(** * A Rocq model of the info_search engine

    The text pipeline (tokenizer, Porter stemmer, lemmatizer), the inverted
    index, TF-IDF ranking, the LZW codec and the search database are modelled
    as executable functions that follow the C++ sources function by function;
    the second half of the file states and proves their properties. *)

From Stdlib Require Import Floats Uint63 ZArith NArith Ascii String List Bool Lia Sorted.
From stdpp Require Import gmap strings list fin_maps sorting.
Import ListNotations.

(** * Byte strings ([NTypes::TString])

    A [TString] is a length-counted byte buffer; the small-string
    optimisation and the heap representation are invisible to callers, so
    the model is the list of its bytes. *)

Abbreviation TString := (list ascii) (only parsing).

(** String literals of the C++ source ([const char*], no embedded NUL). *)
Definition lit (s : string) : TString := list_ascii_of_string s.

Definition char_code (c : ascii) : nat := nat_of_ascii c.

(** [operator[]]: unchecked access.  The buffer always carries a trailing NUL,
    which is what an access at [Size()] reads. *)
Definition char_at (s : TString) (i : nat) : ascii := nth i s zero.

Definition char_eqb (a b : ascii) : bool := Ascii.eqb a b.

(** [TString::operator==]: equal sizes and byte-wise equal contents. *)
Fixpoint TString_eqb (a b : TString) : bool :=
  match a, b with
  | [], [] => true
  | x :: a', y :: b' => char_eqb x y && TString_eqb a' b'
  | _, _ => false
  end.

(** [TString::SubStr(pos, count)]. *)
Definition SubStr (s : TString) (pos count : nat) : TString :=
  if length s <=? pos then []
  else
    let len := if length s <? pos + count then length s - pos else count in
    firstn len (skipn pos s).

(** [c >= 'A' && c <= 'Z'] and the fold [c + ('a' - 'A')]. *)
Definition is_upper (c : ascii) : bool :=
  (65 <=? char_code c) && (char_code c <=? 90).

Definition lower_char (c : ascii) : ascii :=
  if is_upper c then ascii_of_nat (char_code c + 32) else c.

(** [TString::Hash]: 64-bit FNV-1a over the bytes. *)
Definition fnv_offset : Z := 14695981039346656037%Z.
Definition fnv_prime : Z := 1099511628211%Z.
Definition two64 : Z := (2 ^ 64)%Z.

Definition TString_Hash (s : TString) : Z :=
  fold_left
    (fun hash c => (Z.lxor hash (Z.of_nat (char_code c)) * fnv_prime mod two64)%Z)
    s fnv_offset.

(** The scanning loop [while (i < len && p(i)) ++i;].  It runs at most
    [len - i] times; [fuel] only has to be that large. *)
Fixpoint advance_while (p : nat -> bool) (len fuel i : nat) : nat :=
  match fuel with
  | O => i
  | S fuel' =>
      if (i <? len) && p i then advance_while p len fuel' (S i) else i
  end.

(** * Porter stemmer and lemmatizer ([NStemmer]) *)

Module NStemmer.

(** ** Suffix tables ([stemmer_const.h]) *)

Record TSuffixRule := MkRule { From : TString; To : TString; Len : nat }.

Module NStep2.
Definition SUFFIXES : list TSuffixRule :=
  [ MkRule (lit "ational") (lit "ate") 7;
    MkRule (lit "tional") (lit "tion") 6;
    MkRule (lit "enci") (lit "ence") 4;
    MkRule (lit "anci") (lit "ance") 4;
    MkRule (lit "izer") (lit "ize") 4;
    MkRule (lit "abli") (lit "able") 4;
    MkRule (lit "alli") (lit "al") 4;
    MkRule (lit "entli") (lit "ent") 5;
    MkRule (lit "eli") (lit "e") 3;
    MkRule (lit "ousli") (lit "ous") 5;
    MkRule (lit "ization") (lit "ize") 7;
    MkRule (lit "ation") (lit "ate") 5;
    MkRule (lit "ator") (lit "ate") 4;
    MkRule (lit "alism") (lit "al") 5;
    MkRule (lit "iveness") (lit "ive") 7;
    MkRule (lit "fulness") (lit "ful") 7;
    MkRule (lit "ousness") (lit "ous") 7;
    MkRule (lit "aliti") (lit "al") 5;
    MkRule (lit "iviti") (lit "ive") 5;
    MkRule (lit "biliti") (lit "ble") 6;
    MkRule (lit "logi") (lit "log") 4;
    MkRule (lit "fulli") (lit "ful") 5;
    MkRule (lit "lessli") (lit "less") 6 ].
End NStep2.

Module NStep3.
Definition SUFFIXES : list TSuffixRule :=
  [ MkRule (lit "icate") (lit "ic") 5;
    MkRule (lit "ative") (lit "") 5;
    MkRule (lit "alize") (lit "al") 5;
    MkRule (lit "iciti") (lit "ic") 5;
    MkRule (lit "ical") (lit "ic") 4;
    MkRule (lit "ful") (lit "") 3;
    MkRule (lit "ness") (lit "") 4 ].
End NStep3.

Module NStep4.
Definition SUFFIXES : list TString :=
  map lit
    [ "ement"; "ance"; "ence"; "able"; "ible"; "ment"; "ant"; "ent"; "ion";
      "ism"; "ate"; "iti"; "ous"; "ive"; "ize"; "al"; "er"; "ic"; "ou" ]%string.
End NStep4.

(** ** [TPorterStemmer] *)

Definition ToLower (s : TString) : TString := map lower_char s.

Definition is_aeiou (c : ascii) : bool :=
  char_eqb c "a" || char_eqb c "e" || char_eqb c "i" || char_eqb c "o"
  || char_eqb c "u".

Fixpoint IsConsonant (s : TString) (i : nat) : bool :=
  let c := char_at s i in
  if is_aeiou c then false
  else if char_eqb c "y" then
    match i with
    | O => true
    | S j => negb (IsConsonant s j)
    end
  else true.

Fixpoint MeasureM_loop (s : TString) (len fuel i n : nat) : nat :=
  match fuel with
  | O => n
  | S fuel' =>
      if i <? len then
        let i1 := advance_while (IsConsonant s) len len i in
        if len <=? i1 then n
        else
          let i2 :=
            advance_while (fun k => negb (IsConsonant s k)) len len i1 in
          MeasureM_loop s len fuel' i2 (S n)
      else n
  end.

Definition MeasureM (s : TString) : nat :=
  let len := length s in
  let i0 := advance_while (fun k => negb (IsConsonant s k)) len len 0 in
  MeasureM_loop s len len i0 0.

Definition HasVowel (s : TString) : bool :=
  existsb (fun i => negb (IsConsonant s i)) (seq 0 (length s)).

Definition EndsWithDoubleConsonant (s : TString) : bool :=
  let len := length s in
  if len <? 2 then false
  else if negb (char_eqb (char_at s (len - 1)) (char_at s (len - 2))) then false
  else IsConsonant s (len - 1).

Definition EndsCVC (s : TString) : bool :=
  let len := length s in
  if len <? 3 then false
  else if negb (IsConsonant s (len - 1)) then false
  else if IsConsonant s (len - 2) then false
  else if negb (IsConsonant s (len - 3)) then false
  else
    let c := char_at s (len - 1) in
    if char_eqb c "w" || char_eqb c "x" || char_eqb c "y" then false else true.

Definition EndsWith (s suffix : TString) : bool :=
  let slen := length suffix in
  if length s <? slen then false
  else
    forallb
      (fun i => char_eqb (char_at s (length s - slen + i)) (char_at suffix i))
      (seq 0 slen).

Definition RemoveSuffix (s : TString) (len : nat) : TString :=
  if length s <=? len then [] else SubStr s 0 (length s - len).

Definition ReplaceSuffix (s : TString) (removeLen : nat) (add : TString)
  : TString :=
  RemoveSuffix s removeLen ++ add.

Definition Step1a (s : TString) : TString :=
  if EndsWith s (lit "sses") then ReplaceSuffix s 4 (lit "ss")
  else if EndsWith s (lit "ies") then ReplaceSuffix s 3 (lit "i")
  else if EndsWith s (lit "ss") then s
  else if EndsWith s (lit "s") then RemoveSuffix s 1
  else s.

Definition Step1b (s : TString) : TString :=
  if EndsWith s (lit "eed") then
    let stem := RemoveSuffix s 3 in
    if 0 <? MeasureM stem then ReplaceSuffix s 3 (lit "ee") else s
  else
    let '(result, flag) :=
      if EndsWith s (lit "ed") then
        let stem := RemoveSuffix s 2 in
        if HasVowel stem then (stem, true) else (s, false)
      else if EndsWith s (lit "ing") then
        let stem := RemoveSuffix s 3 in
        if HasVowel stem then (stem, true) else (s, false)
      else (s, false) in
    if flag then
      if EndsWith result (lit "at") then ReplaceSuffix result 2 (lit "ate")
      else if EndsWith result (lit "bl") then ReplaceSuffix result 2 (lit "ble")
      else if EndsWith result (lit "iz") then ReplaceSuffix result 2 (lit "ize")
      else
        let c := char_at result (length result - 1) in
        if EndsWithDoubleConsonant result
           && negb (char_eqb c "l") && negb (char_eqb c "s")
           && negb (char_eqb c "z")
        then RemoveSuffix result 1
        else if (MeasureM result =? 1) && EndsCVC result
        then result ++ lit "e"
        else result
    else result.

Definition Step1c (s : TString) : TString :=
  if EndsWith s (lit "y") then
    let stem := RemoveSuffix s 1 in
    if HasVowel stem then ReplaceSuffix s 1 (lit "i") else s
  else s.

(** Steps 2 and 3 share their loop: the first rule whose [From] matches
    decides, whether or not its guard holds. *)
Fixpoint apply_rules (rules : list TSuffixRule) (s : TString) : TString :=
  match rules with
  | [] => s
  | r :: rules' =>
      if EndsWith s (From r) then
        let stem := RemoveSuffix s (Len r) in
        if 0 <? MeasureM stem then ReplaceSuffix s (Len r) (To r) else s
      else apply_rules rules' s
  end.

Definition Step2 (s : TString) : TString := apply_rules NStep2.SUFFIXES s.
Definition Step3 (s : TString) : TString := apply_rules NStep3.SUFFIXES s.

(** Step 4 has no [return str] after a failed guard: the loop goes on to the
    next suffix of the table. *)
Fixpoint Step4_loop (suffixes : list TString) (s : TString) : TString :=
  match suffixes with
  | [] => s
  | suffix :: rest =>
      if EndsWith s suffix then
        let slen := length suffix in
        let stem := RemoveSuffix s slen in
        if char_eqb (char_at suffix 0) "i" && char_eqb (char_at suffix 1) "o"
           && char_eqb (char_at suffix 2) "n" && char_eqb (char_at suffix 3) zero
        then
          if 0 <? length stem then
            let c := char_at stem (length stem - 1) in
            if (char_eqb c "s" || char_eqb c "t") && (1 <? MeasureM stem)
            then stem
            else Step4_loop rest s
          else Step4_loop rest s
        else if 1 <? MeasureM stem then stem
        else Step4_loop rest s
      else Step4_loop rest s
  end.

Definition Step4 (s : TString) : TString := Step4_loop NStep4.SUFFIXES s.

Definition Step5a (s : TString) : TString :=
  if EndsWith s (lit "e") then
    let stem := RemoveSuffix s 1 in
    if 1 <? MeasureM stem then stem
    else if (MeasureM stem =? 1) && negb (EndsCVC stem) then stem
    else s
  else s.

Definition Step5b (s : TString) : TString :=
  if (1 <? MeasureM s) && EndsWithDoubleConsonant s && EndsWith s (lit "l")
  then RemoveSuffix s 1
  else s.

Definition Stem (word : TString) : TString :=
  if length word <? 3 then word
  else
    Step5b (Step5a (Step4 (Step3 (Step2 (Step1c (Step1b (Step1a (ToLower word)))))))).

Definition StemAll (words : list TString) : list TString := map Stem words.

End NStemmer.

(** ** Irregular-form tables ([stemmer_const.h]) *)

Module NIrregularVerbs.

Definition BE_FORMS : list (string * string) :=
  [
    ("am", "be"); ("are", "be"); ("is", "be"); ("was", "be"); ("were", "be");
    ("been", "be"); ("being", "be") ]%string.

Definition HAVE_FORMS : list (string * string) :=
  [
    ("have", "have"); ("has", "have"); ("had", "have"); ("having", "have") ]%string.

Definition DO_FORMS : list (string * string) :=
  [
    ("do", "do"); ("does", "do"); ("did", "do"); ("doing", "do");
    ("done", "do") ]%string.

Definition GO_FORMS : list (string * string) :=
  [
    ("go", "go"); ("goes", "go"); ("went", "go"); ("going", "go");
    ("gone", "go"); ("undergo", "undergo"); ("underwent", "undergo");
    ("undergone", "undergo"); ("forgo", "forgo"); ("forwent", "forgo");
    ("forgone", "forgo") ]%string.

Definition RUN_FORMS : list (string * string) :=
  [
    ("ran", "run"); ("running", "run"); ("runs", "run");
    ("overran", "overrun"); ("overrun", "overrun"); ("reran", "rerun");
    ("rerun", "rerun") ]%string.

Definition TAKE_FORMS : list (string * string) :=
  [
    ("took", "take"); ("taken", "take"); ("taking", "take");
    ("takes", "take"); ("undertook", "undertake");
    ("undertaken", "undertake"); ("mistook", "mistake");
    ("mistaken", "mistake"); ("overtook", "overtake");
    ("overtaken", "overtake"); ("retook", "retake"); ("retaken", "retake") ]%string.

Definition GIVE_FORMS : list (string * string) :=
  [
    ("gave", "give"); ("given", "give"); ("giving", "give");
    ("gives", "give"); ("forgave", "forgive"); ("forgiven", "forgive") ]%string.

Definition SEE_FORMS : list (string * string) :=
  [
    ("saw", "see"); ("seen", "see"); ("seeing", "see"); ("sees", "see");
    ("foresee", "foresee"); ("foresaw", "foresee"); ("foreseen", "foresee");
    ("oversee", "oversee"); ("oversaw", "oversee"); ("overseen", "oversee") ]%string.

Definition COME_FORMS : list (string * string) :=
  [
    ("came", "come"); ("coming", "come"); ("comes", "come");
    ("become", "become"); ("became", "become"); ("overcome", "overcome");
    ("overcame", "overcome") ]%string.

Definition KNOW_FORMS : list (string * string) :=
  [
    ("knew", "know"); ("known", "know"); ("knowing", "know");
    ("knows", "know") ]%string.

Definition MAKE_FORMS : list (string * string) :=
  [
    ("made", "make"); ("making", "make"); ("makes", "make");
    ("remake", "remake"); ("remade", "remake"); ("unmake", "unmake");
    ("unmade", "unmake") ]%string.

Definition SAY_FORMS : list (string * string) :=
  [
    ("said", "say"); ("saying", "say"); ("says", "say") ]%string.

Definition TELL_FORMS : list (string * string) :=
  [
    ("told", "tell"); ("telling", "tell"); ("tells", "tell");
    ("retell", "retell"); ("retold", "retell"); ("foretell", "foretell");
    ("foretold", "foretell") ]%string.

Definition THINK_FORMS : list (string * string) :=
  [
    ("thought", "think"); ("thinking", "think"); ("thinks", "think");
    ("rethought", "rethink") ]%string.

Definition FIND_FORMS : list (string * string) :=
  [
    ("found", "find"); ("finding", "find"); ("finds", "find") ]%string.

Definition GET_FORMS : list (string * string) :=
  [
    ("got", "get"); ("gotten", "get"); ("getting", "get"); ("gets", "get");
    ("forget", "forget"); ("forgot", "forget"); ("forgotten", "forget");
    ("beget", "beget"); ("begot", "beget"); ("begotten", "beget") ]%string.

Definition LEAVE_FORMS : list (string * string) :=
  [
    ("left", "leave"); ("leaving", "leave"); ("leaves", "leave") ]%string.

Definition FEEL_FORMS : list (string * string) :=
  [
    ("felt", "feel"); ("feeling", "feel"); ("feels", "feel") ]%string.

Definition BRING_FORMS : list (string * string) :=
  [
    ("brought", "bring"); ("bringing", "bring"); ("brings", "bring") ]%string.

Definition BUY_FORMS : list (string * string) :=
  [
    ("bought", "buy"); ("buying", "buy"); ("buys", "buy") ]%string.

Definition CATCH_FORMS : list (string * string) :=
  [
    ("caught", "catch"); ("catching", "catch"); ("catches", "catch") ]%string.

Definition TEACH_FORMS : list (string * string) :=
  [
    ("taught", "teach"); ("teaching", "teach"); ("teaches", "teach") ]%string.

Definition SEEK_FORMS : list (string * string) :=
  [
    ("sought", "seek"); ("seeking", "seek"); ("seeks", "seek") ]%string.

Definition WRITE_FORMS : list (string * string) :=
  [
    ("wrote", "write"); ("written", "write"); ("writing", "write");
    ("writes", "write"); ("rewrite", "rewrite"); ("rewrote", "rewrite");
    ("rewritten", "rewrite"); ("overwrite", "overwrite");
    ("overwrote", "overwrite"); ("overwritten", "overwrite") ]%string.

Definition SPEAK_FORMS : list (string * string) :=
  [
    ("spoke", "speak"); ("spoken", "speak"); ("speaking", "speak");
    ("speaks", "speak") ]%string.

Definition BREAK_FORMS : list (string * string) :=
  [
    ("broke", "break"); ("broken", "break"); ("breaking", "break");
    ("breaks", "break"); ("outbreak", "outbreak"); ("outbroke", "outbreak");
    ("outbroken", "outbreak") ]%string.

Definition CHOOSE_FORMS : list (string * string) :=
  [
    ("chose", "choose"); ("chosen", "choose"); ("choosing", "choose");
    ("chooses", "choose") ]%string.

Definition DRIVE_FORMS : list (string * string) :=
  [
    ("drove", "drive"); ("driven", "drive"); ("driving", "drive");
    ("drives", "drive"); ("overdrive", "overdrive");
    ("overdrove", "overdrive"); ("overdriven", "overdrive") ]%string.

Definition RIDE_FORMS : list (string * string) :=
  [
    ("rode", "ride"); ("ridden", "ride"); ("riding", "ride");
    ("rides", "ride"); ("override", "override"); ("overrode", "override");
    ("overridden", "override") ]%string.

Definition RISE_FORMS : list (string * string) :=
  [
    ("rose", "rise"); ("risen", "rise"); ("rising", "rise");
    ("rises", "rise"); ("arise", "arise"); ("arose", "arise");
    ("arisen", "arise") ]%string.

Definition FLY_FORMS : list (string * string) :=
  [
    ("flew", "fly"); ("flown", "fly"); ("flying", "fly"); ("flies", "fly");
    ("overfly", "overfly"); ("overflew", "overfly"); ("overflown", "overfly") ]%string.

Definition GROW_FORMS : list (string * string) :=
  [
    ("grew", "grow"); ("grown", "grow"); ("growing", "grow");
    ("grows", "grow"); ("outgrow", "outgrow"); ("outgrew", "outgrow");
    ("outgrown", "outgrow") ]%string.

Definition THROW_FORMS : list (string * string) :=
  [
    ("threw", "throw"); ("thrown", "throw"); ("throwing", "throw");
    ("throws", "throw"); ("overthrow", "overthrow");
    ("overthrew", "overthrow"); ("overthrown", "overthrow") ]%string.

Definition DRAW_FORMS : list (string * string) :=
  [
    ("drew", "draw"); ("drawn", "draw"); ("drawing", "draw");
    ("draws", "draw"); ("withdraw", "withdraw"); ("withdrew", "withdraw");
    ("withdrawn", "withdraw") ]%string.

Definition SING_FORMS : list (string * string) :=
  [
    ("sang", "sing"); ("sung", "sing"); ("singing", "sing"); ("sings", "sing") ]%string.

Definition SWIM_FORMS : list (string * string) :=
  [
    ("swam", "swim"); ("swum", "swim"); ("swimming", "swim");
    ("swims", "swim") ]%string.

Definition BEGIN_FORMS : list (string * string) :=
  [
    ("began", "begin"); ("begun", "begin"); ("beginning", "begin");
    ("begins", "begin") ]%string.

Definition DRINK_FORMS : list (string * string) :=
  [
    ("drank", "drink"); ("drunk", "drink"); ("drinking", "drink");
    ("drinks", "drink") ]%string.

Definition RING_FORMS : list (string * string) :=
  [
    ("rang", "ring"); ("rung", "ring"); ("ringing", "ring"); ("rings", "ring") ]%string.

Definition SIT_FORMS : list (string * string) :=
  [
    ("sat", "sit"); ("sitting", "sit"); ("sits", "sit");
    ("babysit", "babysit"); ("babysat", "babysit") ]%string.

Definition STAND_FORMS : list (string * string) :=
  [
    ("stood", "stand"); ("standing", "stand"); ("stands", "stand");
    ("understand", "understand"); ("understood", "understand");
    ("withstand", "withstand"); ("withstood", "withstand") ]%string.

Definition HOLD_FORMS : list (string * string) :=
  [
    ("held", "hold"); ("holding", "hold"); ("holds", "hold");
    ("behold", "behold"); ("beheld", "behold"); ("withhold", "withhold");
    ("withheld", "withhold"); ("uphold", "uphold"); ("upheld", "uphold") ]%string.

Definition READ_FORMS : list (string * string) :=
  [
    ("read", "read"); ("reading", "read"); ("reads", "read") ]%string.

Definition LEAD_FORMS : list (string * string) :=
  [
    ("led", "lead"); ("leading", "lead"); ("leads", "lead");
    ("mislead", "mislead"); ("misled", "mislead") ]%string.

Definition MEET_FORMS : list (string * string) :=
  [
    ("met", "meet"); ("meeting", "meet"); ("meets", "meet") ]%string.

Definition PAY_FORMS : list (string * string) :=
  [
    ("paid", "pay"); ("paying", "pay"); ("pays", "pay"); ("repay", "repay");
    ("repaid", "repay"); ("overpay", "overpay"); ("overpaid", "overpay") ]%string.

Definition SEND_FORMS : list (string * string) :=
  [
    ("sent", "send"); ("sending", "send"); ("sends", "send") ]%string.

Definition SPEND_FORMS : list (string * string) :=
  [
    ("spent", "spend"); ("spending", "spend"); ("spends", "spend");
    ("overspend", "overspend"); ("overspent", "overspend") ]%string.

Definition BUILD_FORMS : list (string * string) :=
  [
    ("built", "build"); ("building", "build"); ("builds", "build");
    ("rebuild", "rebuild"); ("rebuilt", "rebuild") ]%string.

Definition LOSE_FORMS : list (string * string) :=
  [
    ("lost", "lose"); ("losing", "lose"); ("loses", "lose") ]%string.

Definition KEEP_FORMS : list (string * string) :=
  [
    ("kept", "keep"); ("keeping", "keep"); ("keeps", "keep") ]%string.

Definition SLEEP_FORMS : list (string * string) :=
  [
    ("slept", "sleep"); ("sleeping", "sleep"); ("sleeps", "sleep");
    ("oversleep", "oversleep"); ("overslept", "oversleep") ]%string.

Definition WIN_FORMS : list (string * string) :=
  [
    ("won", "win"); ("winning", "win"); ("wins", "win") ]%string.

Definition WEAR_FORMS : list (string * string) :=
  [
    ("wore", "wear"); ("worn", "wear"); ("wearing", "wear"); ("wears", "wear") ]%string.

Definition BEAT_FORMS : list (string * string) :=
  [
    ("beat", "beat"); ("beaten", "beat"); ("beating", "beat");
    ("beats", "beat") ]%string.

Definition BITE_FORMS : list (string * string) :=
  [
    ("bit", "bite"); ("bitten", "bite"); ("biting", "bite"); ("bites", "bite") ]%string.

Definition BIND_FORMS : list (string * string) :=
  [
    ("bound", "bind"); ("binding", "bind"); ("binds", "bind");
    ("unbind", "unbind"); ("unbound", "unbind"); ("rebind", "rebind");
    ("rebound", "rebind") ]%string.

Definition BLEED_FORMS : list (string * string) :=
  [
    ("bled", "bleed"); ("bleeding", "bleed"); ("bleeds", "bleed") ]%string.

Definition BLOW_FORMS : list (string * string) :=
  [
    ("blew", "blow"); ("blown", "blow"); ("blowing", "blow");
    ("blows", "blow"); ("overblow", "overblow"); ("overblew", "overblow");
    ("overblown", "overblow") ]%string.

Definition BEAR_FORMS : list (string * string) :=
  [
    ("bore", "bear"); ("born", "bear"); ("borne", "bear");
    ("bearing", "bear"); ("bears", "bear") ]%string.

Definition EAT_FORMS : list (string * string) :=
  [
    ("ate", "eat"); ("eaten", "eat"); ("eating", "eat"); ("eats", "eat");
    ("overeat", "overeat"); ("overate", "overeat"); ("overeaten", "overeat") ]%string.

Definition FALL_FORMS : list (string * string) :=
  [
    ("fell", "fall"); ("fallen", "fall"); ("falling", "fall");
    ("falls", "fall"); ("befall", "befall"); ("befell", "befall");
    ("befallen", "befall") ]%string.

Definition HIDE_FORMS : list (string * string) :=
  [
    ("hid", "hide"); ("hidden", "hide"); ("hiding", "hide"); ("hides", "hide") ]%string.

Definition SHAKE_FORMS : list (string * string) :=
  [
    ("shook", "shake"); ("shaken", "shake"); ("shaking", "shake");
    ("shakes", "shake") ]%string.

Definition FREEZE_FORMS : list (string * string) :=
  [
    ("froze", "freeze"); ("frozen", "freeze"); ("freezing", "freeze");
    ("freezes", "freeze") ]%string.

Definition STEAL_FORMS : list (string * string) :=
  [
    ("stole", "steal"); ("stolen", "steal"); ("stealing", "steal");
    ("steals", "steal") ]%string.

Definition TEAR_FORMS : list (string * string) :=
  [
    ("tore", "tear"); ("torn", "tear"); ("tearing", "tear"); ("tears", "tear") ]%string.

Definition WEAVE_FORMS : list (string * string) :=
  [
    ("wove", "weave"); ("woven", "weave"); ("weaving", "weave");
    ("weaves", "weave") ]%string.

Definition FORBID_FORMS : list (string * string) :=
  [
    ("forbade", "forbid"); ("forbidden", "forbid"); ("forbidding", "forbid");
    ("forbids", "forbid") ]%string.

Definition FORGIVE_FORMS : list (string * string) :=
  [
    ("forgave", "forgive"); ("forgiven", "forgive"); ("forgiving", "forgive");
    ("forgives", "forgive") ]%string.

Definition LIE_FORMS : list (string * string) :=
  [
    ("lay", "lie"); ("lain", "lie"); ("lying", "lie"); ("lies", "lie") ]%string.

Definition LAY_FORMS : list (string * string) :=
  [
    ("laid", "lay"); ("laying", "lay"); ("lays", "lay") ]%string.

Definition SHINE_FORMS : list (string * string) :=
  [
    ("shone", "shine"); ("shined", "shine"); ("shining", "shine");
    ("shines", "shine") ]%string.

Definition SHOOT_FORMS : list (string * string) :=
  [
    ("shot", "shoot"); ("shooting", "shoot"); ("shoots", "shoot");
    ("overshoot", "overshoot"); ("overshot", "overshoot") ]%string.

Definition SHOW_FORMS : list (string * string) :=
  [
    ("showed", "show"); ("shown", "show"); ("showing", "show");
    ("shows", "show") ]%string.

Definition SHRINK_FORMS : list (string * string) :=
  [
    ("shrank", "shrink"); ("shrunk", "shrink"); ("shrinking", "shrink");
    ("shrinks", "shrink") ]%string.

Definition SHUT_FORMS : list (string * string) :=
  [
    ("shut", "shut"); ("shutting", "shut"); ("shuts", "shut") ]%string.

Definition SLAY_FORMS : list (string * string) :=
  [
    ("slew", "slay"); ("slain", "slay"); ("slaying", "slay");
    ("slays", "slay") ]%string.

Definition SLIDE_FORMS : list (string * string) :=
  [
    ("slid", "slide"); ("sliding", "slide"); ("slides", "slide") ]%string.

Definition SLING_FORMS : list (string * string) :=
  [
    ("slung", "sling"); ("slinging", "sling"); ("slings", "sling") ]%string.

Definition SLIT_FORMS : list (string * string) :=
  [
    ("slit", "slit"); ("slitting", "slit"); ("slits", "slit") ]%string.

Definition SMITE_FORMS : list (string * string) :=
  [
    ("smote", "smite"); ("smitten", "smite"); ("smiting", "smite");
    ("smites", "smite") ]%string.

Definition SOW_FORMS : list (string * string) :=
  [
    ("sowed", "sow"); ("sown", "sow"); ("sowing", "sow"); ("sows", "sow") ]%string.

Definition SPIN_FORMS : list (string * string) :=
  [
    ("spun", "spin"); ("spinning", "spin"); ("spins", "spin") ]%string.

Definition SPIT_FORMS : list (string * string) :=
  [
    ("spat", "spit"); ("spit", "spit"); ("spitting", "spit");
    ("spits", "spit") ]%string.

Definition SPLIT_FORMS : list (string * string) :=
  [
    ("split", "split"); ("splitting", "split"); ("splits", "split") ]%string.

Definition SPREAD_FORMS : list (string * string) :=
  [
    ("spread", "spread"); ("spreading", "spread"); ("spreads", "spread") ]%string.

Definition SPRING_FORMS : list (string * string) :=
  [
    ("sprang", "spring"); ("sprung", "spring"); ("springing", "spring");
    ("springs", "spring") ]%string.

Definition STICK_FORMS : list (string * string) :=
  [
    ("stuck", "stick"); ("sticking", "stick"); ("sticks", "stick") ]%string.

Definition STING_FORMS : list (string * string) :=
  [
    ("stung", "sting"); ("stinging", "sting"); ("stings", "sting") ]%string.

Definition STINK_FORMS : list (string * string) :=
  [
    ("stank", "stink"); ("stunk", "stink"); ("stinking", "stink");
    ("stinks", "stink") ]%string.

Definition STRIDE_FORMS : list (string * string) :=
  [
    ("strode", "stride"); ("stridden", "stride"); ("striding", "stride");
    ("strides", "stride") ]%string.

Definition STRIKE_FORMS : list (string * string) :=
  [
    ("struck", "strike"); ("stricken", "strike"); ("striking", "strike");
    ("strikes", "strike") ]%string.

Definition STRING_FORMS : list (string * string) :=
  [
    ("strung", "string"); ("stringing", "string"); ("strings", "string") ]%string.

Definition STRIVE_FORMS : list (string * string) :=
  [
    ("strove", "strive"); ("striven", "strive"); ("striving", "strive");
    ("strives", "strive") ]%string.

Definition SWEAR_FORMS : list (string * string) :=
  [
    ("swore", "swear"); ("sworn", "swear"); ("swearing", "swear");
    ("swears", "swear") ]%string.

Definition SWEEP_FORMS : list (string * string) :=
  [
    ("swept", "sweep"); ("sweeping", "sweep"); ("sweeps", "sweep") ]%string.

Definition SWELL_FORMS : list (string * string) :=
  [
    ("swelled", "swell"); ("swollen", "swell"); ("swelling", "swell");
    ("swells", "swell") ]%string.

Definition SWING_FORMS : list (string * string) :=
  [
    ("swung", "swing"); ("swinging", "swing"); ("swings", "swing") ]%string.

Definition TREAD_FORMS : list (string * string) :=
  [
    ("trod", "tread"); ("trodden", "tread"); ("treading", "tread");
    ("treads", "tread") ]%string.

Definition WAKE_FORMS : list (string * string) :=
  [
    ("woke", "wake"); ("woken", "wake"); ("waking", "wake");
    ("wakes", "wake"); ("awake", "awake"); ("awoke", "awake");
    ("awoken", "awake") ]%string.

Definition WIND_FORMS : list (string * string) :=
  [
    ("wound", "wind"); ("winding", "wind"); ("winds", "wind");
    ("unwind", "unwind"); ("unwound", "unwind"); ("rewind", "rewind");
    ("rewound", "rewind") ]%string.

Definition WRING_FORMS : list (string * string) :=
  [
    ("wrung", "wring"); ("wringing", "wring"); ("wrings", "wring") ]%string.

Definition LIGHT_FORMS : list (string * string) :=
  [
    ("lit", "light"); ("lighted", "light"); ("lighting", "light");
    ("lights", "light") ]%string.

Definition QUIT_FORMS : list (string * string) :=
  [
    ("quit", "quit"); ("quitting", "quit"); ("quits", "quit") ]%string.

Definition SET_FORMS : list (string * string) :=
  [
    ("set", "set"); ("setting", "set"); ("sets", "set"); ("upset", "upset");
    ("reset", "reset"); ("offset", "offset") ]%string.

Definition CUT_FORMS : list (string * string) :=
  [
    ("cut", "cut"); ("cutting", "cut"); ("cuts", "cut");
    ("undercut", "undercut") ]%string.

Definition HIT_FORMS : list (string * string) :=
  [
    ("hit", "hit"); ("hitting", "hit"); ("hits", "hit") ]%string.

Definition PUT_FORMS : list (string * string) :=
  [
    ("put", "put"); ("putting", "put"); ("puts", "put"); ("input", "input");
    ("output", "output") ]%string.

Definition LET_FORMS : list (string * string) :=
  [
    ("let", "let"); ("letting", "let"); ("lets", "let") ]%string.

Definition COST_FORMS : list (string * string) :=
  [
    ("cost", "cost"); ("costing", "cost"); ("costs", "cost") ]%string.

Definition CAST_FORMS : list (string * string) :=
  [
    ("cast", "cast"); ("casting", "cast"); ("casts", "cast");
    ("broadcast", "broadcast"); ("forecast", "forecast");
    ("overcast", "overcast") ]%string.

Definition BURST_FORMS : list (string * string) :=
  [
    ("burst", "burst"); ("bursting", "burst"); ("bursts", "burst") ]%string.

Definition HURT_FORMS : list (string * string) :=
  [
    ("hurt", "hurt"); ("hurting", "hurt"); ("hurts", "hurt") ]%string.

Definition BET_FORMS : list (string * string) :=
  [
    ("bet", "bet"); ("betting", "bet"); ("bets", "bet") ]%string.

Definition BEND_FORMS : list (string * string) :=
  [
    ("bent", "bend"); ("bending", "bend"); ("bends", "bend") ]%string.

Definition LEND_FORMS : list (string * string) :=
  [
    ("lent", "lend"); ("lending", "lend"); ("lends", "lend") ]%string.

Definition FEED_FORMS : list (string * string) :=
  [
    ("fed", "feed"); ("feeding", "feed"); ("feeds", "feed");
    ("overfeed", "overfeed"); ("overfed", "overfeed") ]%string.

Definition BREED_FORMS : list (string * string) :=
  [
    ("bred", "breed"); ("breeding", "breed"); ("breeds", "breed");
    ("crossbreed", "crossbreed"); ("crossbred", "crossbreed") ]%string.

Definition SPEED_FORMS : list (string * string) :=
  [
    ("sped", "speed"); ("speeding", "speed"); ("speeds", "speed") ]%string.

Definition FLEE_FORMS : list (string * string) :=
  [
    ("fled", "flee"); ("fleeing", "flee"); ("flees", "flee") ]%string.

Definition DEAL_FORMS : list (string * string) :=
  [
    ("dealt", "deal"); ("dealing", "deal"); ("deals", "deal") ]%string.

Definition MEAN_FORMS : list (string * string) :=
  [
    ("meant", "mean"); ("meaning", "mean"); ("means", "mean") ]%string.

Definition LEAN_FORMS : list (string * string) :=
  [
    ("leant", "lean"); ("leaned", "lean"); ("leaning", "lean");
    ("leans", "lean") ]%string.

Definition LEAP_FORMS : list (string * string) :=
  [
    ("leapt", "leap"); ("leaped", "leap"); ("leaping", "leap");
    ("leaps", "leap"); ("overleap", "overleap"); ("overleapt", "overleap") ]%string.

Definition LEARN_FORMS : list (string * string) :=
  [
    ("learnt", "learn"); ("learned", "learn"); ("learning", "learn");
    ("learns", "learn") ]%string.

Definition BURN_FORMS : list (string * string) :=
  [
    ("burnt", "burn"); ("burned", "burn"); ("burning", "burn");
    ("burns", "burn") ]%string.

Definition SMELL_FORMS : list (string * string) :=
  [
    ("smelt", "smell"); ("smelled", "smell"); ("smelling", "smell");
    ("smells", "smell") ]%string.

Definition SPELL_FORMS : list (string * string) :=
  [
    ("spelt", "spell"); ("spelled", "spell"); ("spelling", "spell");
    ("spells", "spell"); ("misspell", "misspell"); ("misspelt", "misspell") ]%string.

Definition SPILL_FORMS : list (string * string) :=
  [
    ("spilt", "spill"); ("spilled", "spill"); ("spilling", "spill");
    ("spills", "spill") ]%string.

Definition SPOIL_FORMS : list (string * string) :=
  [
    ("spoilt", "spoil"); ("spoiled", "spoil"); ("spoiling", "spoil");
    ("spoils", "spoil") ]%string.

Definition DREAM_FORMS : list (string * string) :=
  [
    ("dreamt", "dream"); ("dreamed", "dream"); ("dreaming", "dream");
    ("dreams", "dream") ]%string.

Definition DWELL_FORMS : list (string * string) :=
  [
    ("dwelt", "dwell"); ("dwelled", "dwell"); ("dwelling", "dwell");
    ("dwells", "dwell") ]%string.

Definition HANG_FORMS : list (string * string) :=
  [
    ("hung", "hang"); ("hanged", "hang"); ("hanging", "hang");
    ("hangs", "hang"); ("overhang", "overhang"); ("overhung", "overhang") ]%string.

Definition DIG_FORMS : list (string * string) :=
  [
    ("dug", "dig"); ("digging", "dig"); ("digs", "dig") ]%string.

Definition CLING_FORMS : list (string * string) :=
  [
    ("clung", "cling"); ("clinging", "cling"); ("clings", "cling") ]%string.

Definition FLING_FORMS : list (string * string) :=
  [
    ("flung", "fling"); ("flinging", "fling"); ("flings", "fling") ]%string.

Definition WRING_FORMS_EXT : list (string * string) :=
  [
    ("wrung", "wring"); ("wringing", "wring"); ("wrings", "wring") ]%string.

End NIrregularVerbs.

Module NIrregularNouns.

Definition NOUNS : list (string * string) :=
  [
    ("children", "child"); ("men", "man"); ("women", "woman");
    ("feet", "foot"); ("teeth", "tooth"); ("mice", "mouse");
    ("geese", "goose"); ("people", "person"); ("lice", "louse");
    ("oxen", "ox"); ("deer", "deer"); ("sheep", "sheep"); ("fish", "fish");
    ("moose", "moose"); ("series", "series"); ("species", "species");
    ("aircraft", "aircraft"); ("spacecraft", "spacecraft");
    ("salmon", "salmon"); ("trout", "trout"); ("swine", "swine");
    ("bison", "bison"); ("buffalo", "buffalo"); ("shrimp", "shrimp");
    ("cod", "cod"); ("squid", "squid"); ("cacti", "cactus");
    ("cactuses", "cactus"); ("fungi", "fungus"); ("funguses", "fungus");
    ("nuclei", "nucleus"); ("syllabi", "syllabus");
    ("syllabuses", "syllabus"); ("alumni", "alumnus"); ("foci", "focus");
    ("focuses", "focus"); ("radii", "radius"); ("stimuli", "stimulus");
    ("termini", "terminus"); ("terminuses", "terminus"); ("cacti", "cactus");
    ("analyses", "analysis"); ("axes", "axis"); ("bases", "basis");
    ("crises", "crisis"); ("diagnoses", "diagnosis");
    ("ellipses", "ellipsis"); ("hypotheses", "hypothesis");
    ("oases", "oasis"); ("parentheses", "parenthesis");
    ("synopses", "synopsis"); ("syntheses", "synthesis");
    ("theses", "thesis"); ("phenomena", "phenomenon");
    ("criteria", "criterion"); ("data", "datum"); ("errata", "erratum");
    ("strata", "stratum"); ("addenda", "addendum"); ("bacteria", "bacterium");
    ("curricula", "curriculum"); ("memoranda", "memorandum");
    ("media", "medium"); ("millennia", "millennium"); ("ova", "ovum");
    ("spectra", "spectrum"); ("symposia", "symposium"); ("algae", "alga");
    ("antennae", "antenna"); ("antennas", "antenna"); ("formulae", "formula");
    ("formulas", "formula"); ("larvae", "larva"); ("nebulae", "nebula");
    ("vertebrae", "vertebra"); ("vitae", "vita"); ("appendices", "appendix");
    ("appendixes", "appendix"); ("codices", "codex"); ("indices", "index");
    ("indexes", "index"); ("matrices", "matrix"); ("matrixes", "matrix");
    ("vertices", "vertex"); ("vortices", "vortex"); ("vortexes", "vortex");
    ("apices", "apex"); ("apexes", "apex"); ("cortices", "cortex");
    ("helices", "helix"); ("loci", "locus"); ("fungi", "fungus");
    ("octopi", "octopus"); ("octopuses", "octopus");
    ("platypuses", "platypus"); ("platypi", "platypus"); ("cacti", "cactus");
    ("genii", "genius"); ("geniuses", "genius"); ("styli", "stylus");
    ("styluses", "stylus"); ("abscissae", "abscissa"); ("amoebae", "amoeba");
    ("amoebas", "amoeba"); ("antitheses", "antithesis"); ("aphides", "aphis");
    ("apices", "apex"); ("automata", "automaton");
    ("automatons", "automaton"); ("cervices", "cervix");
    ("crania", "cranium"); ("equilibria", "equilibrium");
    ("ganglia", "ganglion"); ("genera", "genus"); ("gymnasia", "gymnasium");
    ("loci", "locus"); ("penumbrae", "penumbra"); ("phyla", "phylum");
    ("quanta", "quantum"); ("rostra", "rostrum"); ("septa", "septum");
    ("solaria", "solarium"); ("stamina", "stamen"); ("thoraces", "thorax");
    ("ultimata", "ultimatum"); ("umbrae", "umbra"); ("uteri", "uterus");
    ("viscera", "viscus"); ("aquaria", "aquarium"); ("aquariums", "aquarium");
    ("consortia", "consortium"); ("crania", "cranium");
    ("craniums", "cranium"); ("emporium", "emporium");
    ("emporia", "emporium"); ("equilibria", "equilibrium");
    ("equilibriums", "equilibrium"); ("ganglia", "ganglion");
    ("ganglions", "ganglion"); ("gymnasia", "gymnasium");
    ("gymnasiums", "gymnasium"); ("honoraria", "honorarium");
    ("honorariums", "honorarium"); ("mausolea", "mausoleum");
    ("mausoleums", "mausoleum"); ("moratorium", "moratorium");
    ("moratoria", "moratorium"); ("planetaria", "planetarium");
    ("planetariums", "planetarium"); ("podiums", "podium");
    ("podia", "podium"); ("referenda", "referendum");
    ("referendums", "referendum"); ("rostra", "rostrum");
    ("rostrums", "rostrum"); ("sanatoriums", "sanatorium");
    ("sanatoria", "sanatorium"); ("stadiums", "stadium");
    ("stadia", "stadium"); ("symposiums", "symposium");
    ("symposia", "symposium"); ("terrariums", "terrarium");
    ("terraria", "terrarium"); ("ultimatums", "ultimatum");
    ("ultimata", "ultimatum"); ("vivariums", "vivarium");
    ("vivaria", "vivarium"); ("atria", "atrium"); ("bacilli", "bacillus");
    ("bronchi", "bronchus"); ("cilia", "cilium"); ("flagella", "flagellum");
    ("ganglia", "ganglion"); ("mitochondria", "mitochondrion");
    ("mycelia", "mycelium"); ("ova", "ovum"); ("protozoa", "protozoan");
    ("septa", "septum"); ("spermatozoa", "spermatozoon"); ("venae", "vena");
    ("abscissae", "abscissa"); ("abscissas", "abscissa"); ("apices", "apex");
    ("asymptotes", "asymptote"); ("axes", "axis"); ("binomials", "binomial");
    ("corollaries", "corollary"); ("loci", "locus"); ("maxima", "maximum");
    ("maximums", "maximum"); ("minima", "minimum"); ("minimums", "minimum");
    ("optima", "optimum"); ("optimums", "optimum");
    ("polyhedra", "polyhedron"); ("polyhedrons", "polyhedron");
    ("quanta", "quantum"); ("radices", "radix"); ("simplices", "simplex");
    ("vertices", "vertex"); ("corpora", "corpus"); ("genera", "genus");
    ("lemmas", "lemma"); ("lemmata", "lemma"); ("lexica", "lexicon");
    ("lexicons", "lexicon"); ("parentheses", "parenthesis");
    ("schemata", "schema"); ("schemas", "schema"); ("amoebae", "amoeba");
    ("antennae", "antenna"); ("larvae", "larva"); ("pupae", "pupa");
    ("chrysalises", "chrysalis"); ("chrysalides", "chrysalis");
    ("addenda", "addendum"); ("addendums", "addendum"); ("agenda", "agendum");
    ("algae", "alga"); ("alumni", "alumnus"); ("alumnae", "alumna");
    ("automata", "automaton"); ("automatons", "automaton");
    ("candelabra", "candelabrum"); ("corrigenda", "corrigendum");
    ("desiderata", "desideratum"); ("dicta", "dictum");
    ("effluvia", "effluvium"); ("errata", "erratum"); ("insignia", "insigne");
    ("memoranda", "memorandum"); ("millennia", "millennium");
    ("millenniums", "millennium"); ("minima", "minimum"); ("phyla", "phylum");
    ("quanta", "quantum"); ("spectra", "spectrum"); ("spectrums", "spectrum");
    ("strata", "stratum"); ("symposia", "symposium");
    ("vaccinia", "vaccinium") ]%string.

End NIrregularNouns.

Module NIrregularAdverbs.

Definition ADVERBS : list (string * string) :=
  [
    ("worse", "badly"); ("worst", "badly"); ("better", "well");
    ("best", "well"); ("more", "much"); ("most", "much"); ("less", "little");
    ("least", "little"); ("farther", "far"); ("farthest", "far");
    ("further", "far"); ("furthest", "far") ]%string.

End NIrregularAdverbs.

Module NIrregularAdjectives.

Definition ADJECTIVES : list (string * string) :=
  [
    ("better", "good"); ("best", "good"); ("worse", "bad"); ("worst", "bad");
    ("more", "much"); ("most", "much"); ("less", "little");
    ("least", "little"); ("farther", "far"); ("farthest", "far");
    ("further", "far"); ("furthest", "far"); ("older", "old");
    ("oldest", "old"); ("elder", "old"); ("eldest", "old") ]%string.

End NIrregularAdjectives.

(** The tables in the order [InitDictionary] loads them. *)
Definition InitDictionary_tables : list (list (string * string)) :=
  [
    NIrregularVerbs.BE_FORMS; NIrregularVerbs.HAVE_FORMS;
    NIrregularVerbs.DO_FORMS; NIrregularVerbs.GO_FORMS;
    NIrregularVerbs.RUN_FORMS; NIrregularVerbs.TAKE_FORMS;
    NIrregularVerbs.GIVE_FORMS; NIrregularVerbs.SEE_FORMS;
    NIrregularVerbs.COME_FORMS; NIrregularVerbs.KNOW_FORMS;
    NIrregularVerbs.MAKE_FORMS; NIrregularVerbs.SAY_FORMS;
    NIrregularVerbs.TELL_FORMS; NIrregularVerbs.THINK_FORMS;
    NIrregularVerbs.FIND_FORMS; NIrregularVerbs.GET_FORMS;
    NIrregularVerbs.LEAVE_FORMS; NIrregularVerbs.FEEL_FORMS;
    NIrregularVerbs.BRING_FORMS; NIrregularVerbs.BUY_FORMS;
    NIrregularVerbs.CATCH_FORMS; NIrregularVerbs.TEACH_FORMS;
    NIrregularVerbs.SEEK_FORMS; NIrregularVerbs.WRITE_FORMS;
    NIrregularVerbs.SPEAK_FORMS; NIrregularVerbs.BREAK_FORMS;
    NIrregularVerbs.CHOOSE_FORMS; NIrregularVerbs.DRIVE_FORMS;
    NIrregularVerbs.RIDE_FORMS; NIrregularVerbs.RISE_FORMS;
    NIrregularVerbs.FLY_FORMS; NIrregularVerbs.GROW_FORMS;
    NIrregularVerbs.THROW_FORMS; NIrregularVerbs.DRAW_FORMS;
    NIrregularVerbs.SING_FORMS; NIrregularVerbs.SWIM_FORMS;
    NIrregularVerbs.BEGIN_FORMS; NIrregularVerbs.DRINK_FORMS;
    NIrregularVerbs.RING_FORMS; NIrregularVerbs.SIT_FORMS;
    NIrregularVerbs.STAND_FORMS; NIrregularVerbs.HOLD_FORMS;
    NIrregularVerbs.READ_FORMS; NIrregularVerbs.LEAD_FORMS;
    NIrregularVerbs.MEET_FORMS; NIrregularVerbs.PAY_FORMS;
    NIrregularVerbs.SEND_FORMS; NIrregularVerbs.SPEND_FORMS;
    NIrregularVerbs.BUILD_FORMS; NIrregularVerbs.LOSE_FORMS;
    NIrregularVerbs.KEEP_FORMS; NIrregularVerbs.SLEEP_FORMS;
    NIrregularVerbs.WIN_FORMS; NIrregularVerbs.WEAR_FORMS;
    NIrregularVerbs.BEAT_FORMS; NIrregularVerbs.BITE_FORMS;
    NIrregularVerbs.BIND_FORMS; NIrregularVerbs.BLEED_FORMS;
    NIrregularVerbs.BLOW_FORMS; NIrregularVerbs.BEAR_FORMS;
    NIrregularVerbs.EAT_FORMS; NIrregularVerbs.FALL_FORMS;
    NIrregularVerbs.HIDE_FORMS; NIrregularVerbs.SHAKE_FORMS;
    NIrregularVerbs.FREEZE_FORMS; NIrregularVerbs.STEAL_FORMS;
    NIrregularVerbs.TEAR_FORMS; NIrregularVerbs.WEAVE_FORMS;
    NIrregularVerbs.FORBID_FORMS; NIrregularVerbs.FORGIVE_FORMS;
    NIrregularVerbs.LIE_FORMS; NIrregularVerbs.LAY_FORMS;
    NIrregularVerbs.SHINE_FORMS; NIrregularVerbs.SHOOT_FORMS;
    NIrregularVerbs.SHOW_FORMS; NIrregularVerbs.SHRINK_FORMS;
    NIrregularVerbs.SHUT_FORMS; NIrregularVerbs.SLAY_FORMS;
    NIrregularVerbs.SLIDE_FORMS; NIrregularVerbs.SLING_FORMS;
    NIrregularVerbs.SLIT_FORMS; NIrregularVerbs.SMITE_FORMS;
    NIrregularVerbs.SOW_FORMS; NIrregularVerbs.SPIN_FORMS;
    NIrregularVerbs.SPIT_FORMS; NIrregularVerbs.SPLIT_FORMS;
    NIrregularVerbs.SPREAD_FORMS; NIrregularVerbs.SPRING_FORMS;
    NIrregularVerbs.STICK_FORMS; NIrregularVerbs.STING_FORMS;
    NIrregularVerbs.STINK_FORMS; NIrregularVerbs.STRIDE_FORMS;
    NIrregularVerbs.STRIKE_FORMS; NIrregularVerbs.STRING_FORMS;
    NIrregularVerbs.STRIVE_FORMS; NIrregularVerbs.SWEAR_FORMS;
    NIrregularVerbs.SWEEP_FORMS; NIrregularVerbs.SWELL_FORMS;
    NIrregularVerbs.SWING_FORMS; NIrregularVerbs.TREAD_FORMS;
    NIrregularVerbs.WAKE_FORMS; NIrregularVerbs.WIND_FORMS;
    NIrregularVerbs.WRING_FORMS; NIrregularVerbs.LIGHT_FORMS;
    NIrregularVerbs.QUIT_FORMS; NIrregularVerbs.SET_FORMS;
    NIrregularVerbs.CUT_FORMS; NIrregularVerbs.HIT_FORMS;
    NIrregularVerbs.PUT_FORMS; NIrregularVerbs.LET_FORMS;
    NIrregularVerbs.COST_FORMS; NIrregularVerbs.CAST_FORMS;
    NIrregularVerbs.BURST_FORMS; NIrregularVerbs.HURT_FORMS;
    NIrregularVerbs.BET_FORMS; NIrregularVerbs.BEND_FORMS;
    NIrregularVerbs.LEND_FORMS; NIrregularVerbs.FEED_FORMS;
    NIrregularVerbs.BREED_FORMS; NIrregularVerbs.SPEED_FORMS;
    NIrregularVerbs.FLEE_FORMS; NIrregularVerbs.DEAL_FORMS;
    NIrregularVerbs.MEAN_FORMS; NIrregularVerbs.LEAN_FORMS;
    NIrregularVerbs.LEAP_FORMS; NIrregularVerbs.LEARN_FORMS;
    NIrregularVerbs.BURN_FORMS; NIrregularVerbs.SMELL_FORMS;
    NIrregularVerbs.SPELL_FORMS; NIrregularVerbs.SPILL_FORMS;
    NIrregularVerbs.SPOIL_FORMS; NIrregularVerbs.DREAM_FORMS;
    NIrregularVerbs.DWELL_FORMS; NIrregularVerbs.HANG_FORMS;
    NIrregularVerbs.DIG_FORMS; NIrregularVerbs.CLING_FORMS;
    NIrregularVerbs.FLING_FORMS; NIrregularAdverbs.ADVERBS;
    NIrregularNouns.NOUNS; NIrregularAdjectives.ADJECTIVES ].

(** ** [TLemmatizer]

    [Dictionary_] is a [TUnorderedMap<size_t, TString>]: it is keyed by the
    64-bit hash of the lower-cased form, not by the form itself.  [Insert]
    overwrites the value of a key that is already present. *)

Module TLemmatizer.

Record t := Mk { Dictionary_ : gmap Z TString }.

Definition ToLower (s : TString) : TString := map lower_char s.

Definition Hash (s : TString) : Z := TString_Hash s.

Definition AddWord (self : t) (word lemma : TString) : t :=
  Mk (<[Hash (ToLower word) := lemma]> (Dictionary_ self)).

Definition AddTable (self : t) (table : list (string * string)) : t :=
  fold_left (fun d row => AddWord d (lit (fst row)) (lit (snd row))) table self.

Definition InitDictionary (self : t) : t :=
  fold_left AddTable InitDictionary_tables self.

(** The constructor. *)
Definition new : t := InitDictionary (Mk ∅).

Definition GetLemma (self : t) (word : TString) : TString :=
  match Dictionary_ self !! Hash word with
  | Some lemma => lemma
  | None => word
  end.

Definition Lemmatize (self : t) (word : TString) : TString :=
  let lower := ToLower word in
  match Dictionary_ self !! Hash lower with
  | Some _ => GetLemma self lower
  | None => NStemmer.Stem lower
  end.

Definition LemmatizeAll (self : t) (words : list TString) : list TString :=
  map (Lemmatize self) words.

End TLemmatizer.

(** * Tokenizer ([NTokenizer]) *)

Module NTokenizer.

Record TToken := MkToken { Text : TString; Position : nat; Length : nat }.

Inductive ETokenType := Word | Number | Punctuation | Whitespace | All.

Record TOptions := MkOptions {
  LowerCase : bool;
  SkipWhitespace : bool;
  SkipPunctuation : bool;
  SkipNumbers : bool;
  MinTokenLength : nat;
  MaxTokenLength : nat
}.

Definition default_options : TOptions := MkOptions true true true true 1 1000.

Definition IsAlpha (c : ascii) : bool :=
  ((97 <=? char_code c) && (char_code c <=? 122))
  || ((65 <=? char_code c) && (char_code c <=? 90)).

Definition IsDigit (c : ascii) : bool :=
  (48 <=? char_code c) && (char_code c <=? 57).

Definition IsWhitespace (c : ascii) : bool :=
  char_eqb c " " || char_eqb c "009" || char_eqb c "010" || char_eqb c "013".

Definition ToLowerChar (c : ascii) : ascii :=
  if (65 <=? char_code c) && (char_code c <=? 90)
  then ascii_of_nat (char_code c + 32)
  else c.

Definition ToLower (s : TString) : TString := map ToLowerChar s.

Definition GetCharType (c : ascii) : ETokenType :=
  if IsAlpha c then Word
  else if IsDigit c then Number
  else if IsWhitespace c then Whitespace
  else Punctuation.

Definition is_word_char (c : ascii) : bool :=
  IsAlpha c || IsDigit c || char_eqb c "_" || char_eqb c "-".

Definition is_number_char (c : ascii) : bool :=
  IsDigit c || char_eqb c "." || char_eqb c ",".

(** One round of the outer [while (pos < len)] loop of [Tokenize]; every
    round that does not leave the loop consumes at least one byte, so [len]
    rounds are enough. *)
Fixpoint Tokenize_loop (o : TOptions) (text : TString) (len fuel pos : nat)
    (tokens : list TToken) : list TToken :=
  match fuel with
  | O => tokens
  | S fuel' =>
      if pos <? len then
        (* leading whitespace: one token for the run, or skipped *)
        let pos1 :=
          advance_while (fun k => IsWhitespace (char_at text k)) len len pos in
        let tokens1 :=
          if (pos <? pos1) && negb (SkipWhitespace o)
          then tokens ++ [MkToken (SubStr text pos (pos1 - pos)) pos (pos1 - pos)]
          else tokens in
        if len <=? pos1 then tokens1
        else
          let start := pos1 in
          match GetCharType (char_at text pos1) with
          | Word =>
              let pos2 :=
                advance_while (fun k => is_word_char (char_at text k))
                  len len pos1 in
              let raw := SubStr text start (pos2 - start) in
              let tokenText := if LowerCase o then ToLower raw else raw in
              let tokens2 :=
                if (MinTokenLength o <=? length tokenText)
                   && (length tokenText <=? MaxTokenLength o)
                then tokens1 ++ [MkToken tokenText start (pos2 - start)]
                else tokens1 in
              Tokenize_loop o text len fuel' pos2 tokens2
          | Number =>
              let pos2 :=
                advance_while (fun k => is_number_char (char_at text k))
                  len len pos1 in
              let tokens2 :=
                if negb (SkipNumbers o)
                then tokens1
                       ++ [MkToken (SubStr text start (pos2 - start)) start
                             (pos2 - start)]
                else tokens1 in
              Tokenize_loop o text len fuel' pos2 tokens2
          | Punctuation =>
              let tokens2 :=
                if negb (SkipPunctuation o)
                then tokens1 ++ [MkToken (SubStr text start 1) start 1]
                else tokens1 in
              Tokenize_loop o text len fuel' (S pos1) tokens2
          | _ => Tokenize_loop o text len fuel' (S pos1) tokens1
          end
      else tokens
  end.

Definition Tokenize (o : TOptions) (text : TString) : list TToken :=
  Tokenize_loop o text (length text) (length text) 0 [].

Definition TokenizeToStrings (o : TOptions) (text : TString) : list TString :=
  map Text (Tokenize o text).

(** ** The static helpers of [TTokenizer] *)

Definition ToUpperChar (c : ascii) : ascii :=
  if (97 <=? char_code c) && (char_code c <=? 122)
  then ascii_of_nat (char_code c - 32)
  else c.

Definition ToUpper (s : TString) : TString := map ToUpperChar s.

Definition IsPunctuation (c : ascii) : bool :=
  char_eqb c "." || char_eqb c "," || char_eqb c "!" || char_eqb c "?"
  || char_eqb c ";" || char_eqb c ":" || char_eqb c "034" || char_eqb c "'"
  || char_eqb c "(" || char_eqb c ")" || char_eqb c "[" || char_eqb c "]"
  || char_eqb c "{" || char_eqb c "}" || char_eqb c "-" || char_eqb c "/"
  || char_eqb c "092".

(** [Normalize] and [RemovePunctuation]: one pass that pushes the bytes it
    keeps onto the result. *)
Definition Normalize (s : TString) : TString :=
  fold_left
    (fun result c =>
       if IsAlpha c || IsDigit c then result ++ [ToLowerChar c] else result)
    s [].

Definition RemovePunctuation (s : TString) : TString :=
  fold_left
    (fun result c => if negb (IsPunctuation c) then result ++ [c] else result)
    s [].

(** The body of the [for] loop of [Split], on the pair [(result, start)]. *)
Definition Split_step (str : TString) (delimiter : ascii)
    (st : list TString * nat) (i : nat) : list TString * nat :=
  let '(result, start) := st in
  if char_eqb (char_at str i) delimiter then
    ((if start <? i then result ++ [SubStr str start (i - start)] else result),
     S i)
  else (result, start).

Definition Split (str : TString) (delimiter : ascii) : list TString :=
  let '(result, start) :=
    fold_left (Split_step str delimiter) (seq 0 (length str)) ([], 0) in
  if start <? length str
  then result ++ [SubStr str start (length str - start)]
  else result.

Definition Join (parts : list TString) (delimiter : TString) : TString :=
  match parts with
  | [] => []
  | first :: rest =>
      fold_left (fun result part => (result ++ delimiter) ++ part) rest first
  end.

End NTokenizer.

(** * Text pipeline ([NIndex::TTextPipeline]) *)

Module TTextPipeline.

Record TOptions := MkOptions {
  LowerCase : bool;
  UseStemming : bool;
  UseLemmatization : bool;
  SkipPunctuation : bool;
  SkipNumbers : bool;
  MinTokenLength : nat;
  MaxTokenLength : nat
}.

Definition default_options : TOptions :=
  MkOptions true true false true true 2 100.

Definition tokenizer_options (o : TOptions) : NTokenizer.TOptions :=
  NTokenizer.MkOptions (LowerCase o)
    (NTokenizer.SkipWhitespace NTokenizer.default_options)
    (SkipPunctuation o) (SkipNumbers o) (MinTokenLength o) (MaxTokenLength o).

Definition Process (o : TOptions) (text : TString) : list TString :=
  let tokens := NTokenizer.TokenizeToStrings (tokenizer_options o) text in
  if UseLemmatization o then TLemmatizer.LemmatizeAll TLemmatizer.new tokens
  else if UseStemming o then NStemmer.StemAll tokens
  else tokens.

Definition NormalizeTerm (o : TOptions) (term : TString) : TString :=
  let result := if LowerCase o then NTokenizer.ToLower term else term in
  if UseLemmatization o then TLemmatizer.Lemmatize TLemmatizer.new result
  else if UseStemming o then NStemmer.Stem result
  else result.

Definition NormalizeTerms (o : TOptions) (terms : list TString)
  : list TString :=
  map (NormalizeTerm o) terms.

Definition Tokenize (o : TOptions) (text : TString)
  : list NTokenizer.TToken :=
  NTokenizer.Tokenize (tokenizer_options o) text.

End TTextPipeline.

(** * Inverted index ([NIndex::TInvertedIndex])

    Document ids, term counts and frequencies are [size_t] counters that only
    ever grow by one per stored item; they are modelled as unbounded naturals
    (2^64 stored items cannot be reached).  The hash maps of the index are
    modelled as finite maps, by their contents: the capacity of a table and
    the slots its keys sit in are not part of the model, so the order in
    which a table is walked is not either.  The one table whose order
    reaches a result, the candidate set of the ranked search, is modelled
    slot by slot ([TUnorderedSet] below). *)

Abbreviation TDocId := nat (only parsing).
Abbreviation TPostingList := (list nat) (only parsing).

Module TInvertedIndex.

Record t := Mk {
  Index_ : gmap TString TPostingList;
  Documents_ : gmap TDocId TString;
  TermFrequencies_ : gmap TDocId (gmap TString nat);
  DocTermCounts_ : gmap TDocId nat;
  NextDocId_ : TDocId
}.

Definition new : t := Mk ∅ ∅ ∅ ∅ 0.

Definition AddTermToIndex (self : t) (term : TString) (docId : TDocId) : t :=
  match Index_ self !! term with
  | Some list =>
      if (length list =? 0) || negb (List.last list 0 =? docId)
      then Mk (<[term := list ++ [docId]]> (Index_ self)) (Documents_ self)
             (TermFrequencies_ self) (DocTermCounts_ self) (NextDocId_ self)
      else self
  | None =>
      Mk (<[term := [docId]]> (Index_ self)) (Documents_ self)
        (TermFrequencies_ self) (DocTermCounts_ self) (NextDocId_ self)
  end.

Definition IncrementTermFrequency (self : t) (docId : TDocId) (term : TString)
  : t :=
  let tfs :=
    match TermFrequencies_ self !! docId with
    | None => <[docId := {[term := 1]}]> (TermFrequencies_ self)
    | Some termMap =>
        match termMap !! term with
        | None => <[docId := <[term := 1]> termMap]> (TermFrequencies_ self)
        | Some n => <[docId := <[term := S n]> termMap]> (TermFrequencies_ self)
        end
    end in
  Mk (Index_ self) (Documents_ self) tfs (DocTermCounts_ self) (NextDocId_ self).

(** The body of the [for] loop of [AddDocument], with its running
    [termCount]. *)
Definition AddDocument_step (docId : TDocId) (st : t * nat) (term : TString)
  : t * nat :=
  let self := AddTermToIndex (fst st) term docId in
  let self := IncrementTermFrequency self docId term in
  (self, S (snd st)).

Definition AddDocument (self : t) (terms : list TString) : t * TDocId :=
  let docId := NextDocId_ self in
  let self :=
    Mk (Index_ self) (Documents_ self) (TermFrequencies_ self)
      (DocTermCounts_ self) (S (NextDocId_ self)) in
  let '(self, termCount) := fold_left (AddDocument_step docId) terms (self, 0) in
  (Mk (Index_ self) (Documents_ self) (TermFrequencies_ self)
     (<[docId := termCount]> (DocTermCounts_ self)) (NextDocId_ self),
   docId).

Definition AddDocumentRaw (self : t) (terms : list TString)
    (rawContent : TString) : t * TDocId :=
  let '(self, docId) := AddDocument self terms in
  (Mk (Index_ self) (<[docId := rawContent]> (Documents_ self))
     (TermFrequencies_ self) (DocTermCounts_ self) (NextDocId_ self),
   docId).

Definition GetPostingList (self : t) (term : TString) : TPostingList :=
  match Index_ self !! term with
  | Some list => list
  | None => []
  end.

Definition GetDocumentFrequency (self : t) (term : TString) : nat :=
  match Index_ self !! term with
  | Some list => length list
  | None => 0
  end.

Definition GetTermFrequency (self : t) (docId : TDocId) (term : TString) : nat :=
  match TermFrequencies_ self !! docId with
  | None => 0
  | Some termMap =>
      match termMap !! term with
      | None => 0
      | Some n => n
      end
  end.

Definition GetDocumentLength (self : t) (docId : TDocId) : nat :=
  match DocTermCounts_ self !! docId with
  | Some n => n
  | None => 0
  end.

Definition GetDocumentCount (self : t) : nat := NextDocId_ self.
Definition GetTermCount (self : t) : nat := size (Index_ self).

Definition ContainsTerm (self : t) (term : TString) : bool :=
  match Index_ self !! term with
  | Some _ => true
  | None => false
  end.

Definition GetDocument (self : t) (docId : TDocId) : TString :=
  match Documents_ self !! docId with
  | Some text => text
  | None => []
  end.

(** [GetAllTerms] walks the hash table.  The model lists the same keys,
    each once; their order is that of the finite map, not that of the slots
    of the table, and is to be read as unspecified. *)
Definition GetAllTerms (self : t) : list TString :=
  (map_to_list (Index_ self)).*1.

Definition GetAllDocIds (self : t) : list TDocId := seq 0 (NextDocId_ self).

(** [Clear] empties the four tables and resets [NextDocId_].  The tables
    keep their capacity ([TUnorderedMap::Clear] destroys the slots only), so
    a cleared index walks its later keys in another order than a new one;
    the contents, all the model holds, are those of a new index. *)
Definition Clear (self : t) : t := Mk ∅ ∅ ∅ ∅ 0.

(** The mutating calls of the public interface, and the index a sequence of
    them builds from a fresh one. *)
Inductive TCall :=
  | CallAddDocument (terms : list TString)
  | CallAddDocumentRaw (terms : list TString) (rawContent : TString)
  | CallClear.

Definition call (self : t) (c : TCall) : t :=
  match c with
  | CallAddDocument terms => fst (AddDocument self terms)
  | CallAddDocumentRaw terms raw => fst (AddDocumentRaw self terms raw)
  | CallClear => Clear self
  end.

Definition run (calls : list TCall) : t := fold_left call calls new.

(** Sum of [GetTermFrequency(docId, t)] over all terms [t] of the index. *)
Definition SumTermFrequencies (self : t) (docId : TDocId) : nat :=
  sum_list_with (GetTermFrequency self docId) (GetAllTerms self).

(** Strictly increasing sequences of document ids. *)
Definition StrictlyIncreasing (l : TPostingList) : Prop :=
  forall i j a b, i < j -> l !! i = Some a -> l !! j = Some b -> a < b.

End TInvertedIndex.

(** * The hash set of candidate documents ([TUnorderedSet<TDocId>])

    [TTfIdf::Search] iterates this set, so the order of its slots decides the
    order in which equal scores reach the sort.  The table is the Robin Hood
    open-addressing table of [TUnorderedMap], with [THash<size_t>]. *)

Module TUnorderedSet.

Local Open Scope Z_scope.

Definition mask64 (x : Z) : Z := x mod 2 ^ 64.

(** [THash<size_t>::operator()]. *)
Definition THash (value : Z) : Z :=
  let h := mask64 value in
  let h := Z.lxor h (Z.shiftr h 33) in
  let h := mask64 (h * 0xff51afd7ed558ccd) in
  let h := Z.lxor h (Z.shiftr h 33) in
  let h := mask64 (h * 0xc4ceb9fe1a85ec53) in
  let h := Z.lxor h (Z.shiftr h 33) in
  h.

Inductive EState := Empty | Occupied | Deleted.

Record TSlot := MkSlot { Key : TDocId; State : EState; ProbeDistance : Z }.

Definition empty_slot : TSlot := MkSlot 0%nat Empty 0.

Record t := Mk { Slots_ : list TSlot; Capacity_ : Z; Size_ : Z; Mask_ : Z }.

Definition DEFAULT_CAPACITY : Z := 16.
Definition MAX_PROBE_DISTANCE : Z := 128.

Definition InitSlots (capacity : Z) : t :=
  Mk (repeat empty_slot (Z.to_nat capacity)) capacity 0 (capacity - 1).

Definition new : t := InitSlots DEFAULT_CAPACITY.

Definition slot_at (m : t) (idx : Z) : TSlot :=
  nth (Z.to_nat idx) (Slots_ m) empty_slot.

Definition set_slot (m : t) (idx : Z) (s : TSlot) (size : Z) : t :=
  Mk (<[Z.to_nat idx := s]> (Slots_ m)) (Capacity_ m) size (Mask_ m).

(** [ShouldRehash]: [float(Size_ + 1) / Capacity_ > 0.75f].  The capacity is a
    power of two and the quotient is exact in single precision for every size
    below 2^24, where the test is [4 (Size_ + 1) > 3 Capacity_]. *)
Definition ShouldRehash (m : t) : bool := 3 * Capacity_ m <? 4 * (Size_ m + 1).

Definition RoundUpToPowerOf2 (n : Z) : Z :=
  if n =? 0 then 1
  else
    let n := n - 1 in
    let n := Z.lor n (Z.shiftr n 1) in
    let n := Z.lor n (Z.shiftr n 2) in
    let n := Z.lor n (Z.shiftr n 4) in
    let n := Z.lor n (Z.shiftr n 8) in
    let n := Z.lor n (Z.shiftr n 16) in
    let n := Z.lor n (Z.shiftr n 32) in
    mask64 (n + 1).

(** The probing loop of [InsertInternal]:
    [while (probeDistance <= MAX_PROBE_DISTANCE)].  A round that swaps takes
    over the probe distance of the slot, so the loop has no fixed number of
    rounds.  [Some (inl m')] when the key was placed or found,
    [Some (inr (m', key))] when the probe distance in hand passed
    [MAX_PROBE_DISTANCE] with [key] still to be placed, [None] when [fuel]
    rounds were not enough. *)
Fixpoint probe (fuel : nat) (m : t) (idx probeDistance : Z) (currentKey : TDocId)
  : option (t + (t * TDocId)) :=
  match fuel with
  | O => None
  | S fuel' =>
      if probeDistance <=? MAX_PROBE_DISTANCE then
        let s := slot_at m idx in
        match State s with
        | Empty | Deleted =>
            Some (inl (set_slot m idx (MkSlot currentKey Occupied probeDistance)
                         (Size_ m + 1)))
        | Occupied =>
            if (Key s =? currentKey)%nat then Some (inl m)
            else if ProbeDistance s <? probeDistance then
              let m' :=
                set_slot m idx (MkSlot currentKey Occupied probeDistance)
                  (Size_ m) in
              probe fuel' m' (Z.land (idx + 1) (Mask_ m))
                ((ProbeDistance s + 1) mod 256) (Key s)
            else
              probe fuel' m (Z.land (idx + 1) (Mask_ m))
                ((probeDistance + 1) mod 256) currentKey
        end
      else Some (inr (m, currentKey))
  end.

(** A bound on the rounds of the loop, read off the table: a round that
    goes on either raises the probe distance in hand by one, or stores it in
    a slot whose own, smaller distance it takes over; the distances to
    [MAX_PROBE_DISTANCE] of the slots and of the key in hand, added up,
    shrink with every round.  The loop started on [m] with distance 0 ends
    within [probe_rounds m] rounds, so [probe] never returns [None] there. *)
Definition slack (s : TSlot) : nat :=
  Z.to_nat (MAX_PROBE_DISTANCE - ProbeDistance s).

Definition probe_rounds (m : t) : nat := sum_list_with slack (Slots_ m) + 130.

(** [Rehash] re-inserts the occupied slots, in slot order, into a fresh
    table; [insert] is the insertion it recurses into. *)
Definition Rehash_with (insert : t -> TDocId -> t) (m : t) (newCapacity : Z)
  : t :=
  let newCapacity := RoundUpToPowerOf2 newCapacity in
  if (newCapacity <=? Capacity_ m) && (4 * Size_ m <? 3 * Capacity_ m) then m
  else
    fold_left
      (fun acc s => match State s with Occupied => insert acc (Key s) | _ => acc end)
      (Slots_ m) (InitSlots newCapacity).

(** [InsertInternal]; [fuel] bounds the rehash-and-retry recursion. *)
Fixpoint InsertInternal (fuel : nat) (m : t) (key : TDocId) : t :=
  match fuel with
  | O => m
  | S fuel' =>
      match
        probe (probe_rounds m) m (Z.land (THash (Z.of_nat key)) (Mask_ m)) 0 key
      with
      | Some (inl m') => m'
      | Some (inr (m', currentKey)) =>
          InsertInternal fuel'
            (Rehash_with (InsertInternal fuel') m' (mask64 (Capacity_ m' * 2)))
            currentKey
      | None => m
      end
  end.

(** Every retry doubles the capacity: a run that retried 64 times would need
    a table of 2^64 slots. *)
Definition retry_fuel : nat := 64.

Definition Insert (m : t) (value : TDocId) : t :=
  let m :=
    if ShouldRehash m
    then Rehash_with (InsertInternal retry_fuel) m (mask64 (Capacity_ m * 2))
    else m in
  InsertInternal retry_fuel m value.

(** Iteration from [begin()] to [end()]: the occupied slots in slot order. *)
Definition elements (m : t) : list TDocId :=
  map Key (List.filter (fun s => match State s with Occupied => true | _ => false end)
             (Slots_ m)).

End TUnorderedSet.

(** * TF-IDF ranking ([NIndex::TTfIdf]) *)

Module TTfIdf.

Definition double : Type := float.

(** [static_cast<double>] of a [size_t]. *)
Definition to_double (n : nat) : double :=
  PrimFloat.of_uint63 (Uint63.of_Z (Z.of_nat n)).

Record TSearchResult := MkResult { DocId : TDocId; Score : double }.

Local Open Scope float_scope.

(** The literals [2.718281828] and [0.367879441], as the nearest doubles. *)
Definition E_APPROX : double := 0x1.5bf0a8b04919bp+1.
Definition INV_E_APPROX : double := 0x1.78b5635fdcf09p-2.

(** The two scaling loops of [Log]. *)
Fixpoint Log_down (fuel : nat) (x result : double) : double * double :=
  match fuel with
  | O => (x, result)
  | S fuel' =>
      if E_APPROX <? x then Log_down fuel' (x / E_APPROX) (result + 1)
      else (x, result)
  end.

Fixpoint Log_up (fuel : nat) (x result : double) : double * double :=
  match fuel with
  | O => (x, result)
  | S fuel' =>
      if x <? INV_E_APPROX then Log_up fuel' (x * E_APPROX) (result - 1)
      else (x, result)
  end.

(** A finite positive double leaves each loop within 1100 rounds. *)
Definition Log_fuel : nat := 1100.

Definition Log (x : double) : double :=
  if x <=? 0 then 0
  else
    let '(x, result) := Log_down Log_fuel x 0 in
    let '(x, result) := Log_up Log_fuel x result in
    let y := (x - 1) / (x + 1) in
    let y2 := y * y in
    result + 2 * y * (1 + y2 / 3 + y2 * y2 / 5 + y2 * y2 * y2 / 7).

Definition ComputeTF (index : TInvertedIndex.t) (docId : TDocId)
    (term : TString) : double :=
  let tf := TInvertedIndex.GetTermFrequency index docId term in
  let docLen := TInvertedIndex.GetDocumentLength index docId in
  if (docLen =? 0)%nat then 0 else to_double tf / to_double docLen.

Definition ComputeIDF (index : TInvertedIndex.t) (term : TString) : double :=
  let N := TInvertedIndex.GetDocumentCount index in
  let df := TInvertedIndex.GetDocumentFrequency index term in
  if ((N =? 0) || (df =? 0))%nat then 0
  else Log (to_double (N + 1) / to_double (df + 1)) + 1.

Definition ComputeTfIdf (index : TInvertedIndex.t) (docId : TDocId)
    (term : TString) : double :=
  ComputeTF index docId term * ComputeIDF index term.

Definition ComputeDocumentScore (index : TInvertedIndex.t) (docId : TDocId)
    (queryTerms : list TString) : double :=
  fold_left (fun score term => score + ComputeTfIdf index docId term)
    queryTerms 0.

(** [SortResults]: the exchange sort, comparing scores only. *)
Definition swap_if_greater (i j : nat) (results : list TSearchResult)
  : list TSearchResult :=
  match results !! i, results !! j with
  | Some ri, Some rj =>
      if Score ri <? Score rj then <[j := ri]> (<[i := rj]> results)
      else results
  | _, _ => results
  end.

Definition SortResults_inner (i : nat) (results : list TSearchResult)
  : list TSearchResult :=
  fold_left (fun rs j => swap_if_greater i j rs)
    (seq (S i) (length results - S i)) results.

Definition SortResults (results : list TSearchResult) : list TSearchResult :=
  fold_left (fun rs i => SortResults_inner i rs) (seq 0 (length results))
    results.

Definition candidateDocs (index : TInvertedIndex.t) (queryTerms : list TString)
  : TUnorderedSet.t :=
  fold_left
    (fun set term =>
       fold_left TUnorderedSet.Insert
         (TInvertedIndex.GetPostingList index term) set)
    queryTerms TUnorderedSet.new.

Definition Search (index : TInvertedIndex.t) (queryTerms : list TString)
    (topK : nat) : list TSearchResult :=
  let results :=
    fold_left
      (fun results docId =>
         let score := ComputeDocumentScore index docId queryTerms in
         if 0 <? score then results ++ [MkResult docId score] else results)
      (TUnorderedSet.elements (candidateDocs index queryTerms)) [] in
  let results := SortResults results in
  if (topK <? length results)%nat then firstn topK results else results.

End TTfIdf.

(** * Boolean search ([NIndex::TBooleanSearch])

    The class holds a reference to the index; every method takes it as its
    first argument here. *)

Module TBooleanSearch.

Definition Search (index : TInvertedIndex.t) (term : TString) : TPostingList :=
  TInvertedIndex.GetPostingList index term.

(** The merge loops of [Intersect] and [Union], on the parts of [a] and [b]
    from the cursors [i] and [j] on. *)
Fixpoint Intersect (a b : TPostingList) : TPostingList :=
  match a with
  | [] => []
  | x :: a' =>
      (fix scan (b : TPostingList) : TPostingList :=
         match b with
         | [] => []
         | y :: b' =>
             if (x =? y)%nat then x :: Intersect a' b'
             else if (x <? y)%nat then Intersect a' b
             else scan b'
         end) b
  end.

Fixpoint Union (a b : TPostingList) : TPostingList :=
  match a with
  | [] => b
  | x :: a' =>
      (fix scan (b : TPostingList) : TPostingList :=
         match b with
         | [] => a
         | y :: b' =>
             if (x =? y)%nat then x :: Union a' b'
             else if (x <? y)%nat then x :: Union a' b
             else y :: scan b'
         end) b
  end.

(** The loop of [SearchAnd] over the terms after the first one; it leaves
    as soon as the running result is empty. *)
Fixpoint SearchAnd_loop (index : TInvertedIndex.t) (terms : list TString)
    (result : TPostingList) : TPostingList :=
  match terms with
  | [] => result
  | term :: terms' =>
      let result :=
        Intersect result (TInvertedIndex.GetPostingList index term) in
      if (length result =? 0)%nat then result
      else SearchAnd_loop index terms' result
  end.

Definition SearchAnd (index : TInvertedIndex.t) (terms : list TString)
  : TPostingList :=
  match terms with
  | [] => []
  | firstTerm :: rest => SearchAnd_loop index rest (Search index firstTerm)
  end.

Definition SearchOr (index : TInvertedIndex.t) (terms : list TString)
  : TPostingList :=
  fold_left
    (fun result term =>
       Union result (TInvertedIndex.GetPostingList index term))
    terms [].

(** [SearchNot] and [SearchAndNot] fill a [TUnorderedSet<TDocId>] and only
    ask it [Contains]; the set is modelled as a finite set. *)
Definition SearchNot (index : TInvertedIndex.t) (term : TString)
    (universe : TPostingList) : TPostingList :=
  let termSet : gset nat :=
    list_to_set (TInvertedIndex.GetPostingList index term) in
  List.filter (fun d => negb (bool_decide (d ∈ termSet))) universe.

Definition SearchAndNot (index : TInvertedIndex.t)
    (include exclude : list TString) : TPostingList :=
  let result := SearchAnd index include in
  let excludeSet : gset nat :=
    fold_left
      (fun set term =>
         fold_left (fun set d => {[d]} ∪ set)
           (TInvertedIndex.GetPostingList index term) set)
      exclude ∅ in
  List.filter (fun d => negb (bool_decide (d ∈ excludeSet))) result.

End TBooleanSearch.

(** * LZW codec ([NLzw::TLzw])

    Codes are [unsigned short], the bit buffer is an [unsigned int]; both are
    integers with their wrap-around written out.  Packed bytes are integers
    in [0, 256). *)

Module TLzw.

Local Open Scope Z_scope.

Definition TByte : Type := Z.
Definition TBytes : Type := list TByte.

Record TOptions := MkOptions {
  MaxCode : Z;
  EndCode : Z;
  FirstFreeCode : Z;
  CodeBits : Z
}.

Definition default_options : TOptions := MkOptions 4095 4095 256 12.

Definition wrap16 (x : Z) : Z := x mod 2 ^ 16.
Definition wrap32 (x : Z) : Z := x mod 2 ^ 32.

(** [TString(1, static_cast<char>(static_cast<unsigned char>(i)))]. *)
Definition single (i : nat) : TString := [ascii_of_nat i].

(** ** Bit packing *)

(** [while (bits >= 8) { out.PushBack(buffer & 0xFF); buffer >>= 8; bits -= 8; }] *)
Fixpoint pack_flush (fuel : nat) (buffer bits : Z) (out : TBytes)
  : Z * Z * TBytes :=
  match fuel with
  | O => (buffer, bits, out)
  | S fuel' =>
      if 8 <=? bits then
        pack_flush fuel' (Z.shiftr buffer 8) (bits - 8)
          (out ++ [Z.land buffer 255])
      else (buffer, bits, out)
  end.

Definition code_mask (o : TOptions) : Z :=
  wrap32 (wrap32 (Z.shiftl 1 (CodeBits o)) - 1).

Definition pack_step (o : TOptions) (st : Z * Z * TBytes) (c : Z)
  : Z * Z * TBytes :=
  let '(buffer, bits, out) := st in
  let code := Z.land c (code_mask o) in
  let buffer := Z.lor buffer (wrap32 (Z.shiftl code bits)) in
  let bits := wrap32 (bits + CodeBits o) in
  pack_flush (Z.to_nat bits) buffer bits out.

Definition PackCodes (o : TOptions) (codes : list Z) : TBytes :=
  let '(buffer, bits, out) := fold_left (pack_step o) codes (0, 0, []) in
  if 0 <? bits then out ++ [Z.land buffer 255] else out.

(** [while (bits >= CodeBits) { codes.PushBack(buffer & mask); ... }] *)
Fixpoint unpack_drain (o : TOptions) (fuel : nat) (buffer bits : Z)
    (codes : list Z) : Z * Z * list Z :=
  match fuel with
  | O => (buffer, bits, codes)
  | S fuel' =>
      if CodeBits o <=? bits then
        unpack_drain o fuel' (Z.shiftr buffer (CodeBits o)) (bits - CodeBits o)
          (codes ++ [wrap16 (Z.land buffer (code_mask o))])
      else (buffer, bits, codes)
  end.

Definition unpack_step (o : TOptions) (st : Z * Z * list Z) (b : TByte)
  : Z * Z * list Z :=
  let '(buffer, bits, codes) := st in
  let byte := b mod 256 in
  let buffer := Z.lor buffer (wrap32 (Z.shiftl byte bits)) in
  let bits := wrap32 (bits + 8) in
  unpack_drain o (Z.to_nat bits) buffer bits codes.

Definition UnpackCodes (o : TOptions) (data : TBytes) : list Z :=
  let '(_, _, codes) := fold_left (unpack_step o) data (0, 0, []) in
  codes.

(** ** Compression *)

Record TEncoder := MkEncoder {
  enc_dict : gmap TString Z;
  enc_nextCode : Z;
  enc_w : TString;
  enc_codes : list Z
}.

Definition initial_dict : gmap TString Z :=
  fold_left (fun dict i => <[single i := wrap16 (Z.of_nat i)]> dict)
    (seq 0 256) ∅.

Definition Compress_step (o : TOptions) (st : TEncoder) (c : ascii)
  : TEncoder :=
  match enc_w st with
  | [] => MkEncoder (enc_dict st) (enc_nextCode st) [c] (enc_codes st)
  | _ :: _ =>
      let wc := enc_w st ++ [c] in
      match enc_dict st !! wc with
      | Some _ => MkEncoder (enc_dict st) (enc_nextCode st) wc (enc_codes st)
      | None =>
          let codes :=
            match enc_dict st !! enc_w st with
            | Some k => enc_codes st ++ [k]
            | None => enc_codes st
            end in
          if enc_nextCode st <? EndCode o then
            MkEncoder (<[wc := enc_nextCode st]> (enc_dict st))
              (wrap16 (enc_nextCode st + 1)) [c] codes
          else MkEncoder (enc_dict st) (enc_nextCode st) [c] codes
      end
  end.

Definition CompressCodes (o : TOptions) (input : TString) : list Z :=
  let st :=
    fold_left (Compress_step o) input
      (MkEncoder initial_dict (FirstFreeCode o) [] []) in
  let codes :=
    match enc_w st with
    | [] => enc_codes st
    | _ :: _ =>
        match enc_dict st !! enc_w st with
        | Some k => enc_codes st ++ [k]
        | None => enc_codes st
        end
    end in
  codes ++ [EndCode o].

Definition Compress (o : TOptions) (input : TString) : TBytes :=
  PackCodes o (CompressCodes o input).

(** ** Decompression *)

Definition initial_table : list TString := map single (seq 0 256).

(** The [while (idx < codes.Size())] loop, on the codes still to be read. *)
Fixpoint Decompress_loop (o : TOptions) (codes : list Z) (dict : list TString)
    (nextCode : Z) (w out : TString) : TString :=
  match codes with
  | [] => out
  | k :: codes' =>
      if k =? EndCode o then out
      else
        let entry : option TString :=
          if k <? Z.of_nat (length dict) then Some (nth (Z.to_nat k) dict [])
          else if (k =? nextCode) && negb (length w =? 0)%nat
          then Some (w ++ [char_at w 0])
          else None in
        match entry with
        | None => []
        | Some entry =>
            let out := out ++ entry in
            if (nextCode <? EndCode o) && negb (length w =? 0)%nat
               && negb (length entry =? 0)%nat
            then
              Decompress_loop o codes' (dict ++ [w ++ [char_at entry 0]])
                (wrap16 (nextCode + 1)) entry out
            else Decompress_loop o codes' dict nextCode entry out
        end
  end.

Definition DecompressCodes (o : TOptions) (codes : list Z) : TString :=
  match codes with
  | [] => []
  | firstCode :: codes' =>
      if firstCode =? EndCode o then []
      else if Z.of_nat (length initial_table) <=? firstCode then []
      else
        let w := nth (Z.to_nat firstCode) initial_table [] in
        Decompress_loop o codes' initial_table (FirstFreeCode o) w w
  end.

Definition Decompress (o : TOptions) (data : TBytes) : TString :=
  DecompressCodes o (UnpackCodes o data).

End TLzw.

(** * Search engine ([NIndex::TSearchEngine]) *)

Module TSearchEngine.

Record t := Mk {
  Pipeline_ : TTextPipeline.TOptions;
  Index_ : TInvertedIndex.t;
  Titles_ : gmap TDocId TString
}.

Definition new (o : TTextPipeline.TOptions) : t := Mk o TInvertedIndex.new ∅.

Definition AddDocumentTerms (self : t) (terms : list TString) : t * TDocId :=
  let '(index, docId) := TInvertedIndex.AddDocument (Index_ self) terms in
  (Mk (Pipeline_ self) index (Titles_ self), docId).

Definition Search (self : t) (query : TString) (topK : nat)
  : list TTfIdf.TSearchResult :=
  TTfIdf.Search (Index_ self) (TTextPipeline.Process (Pipeline_ self) query) topK.

Definition GetDocumentCount (self : t) : nat :=
  TInvertedIndex.GetDocumentCount (Index_ self).

Definition Clear (self : t) : t :=
  Mk (Pipeline_ self) (TInvertedIndex.Clear (Index_ self)) ∅.

(** [AddDocument(content)] and [AddDocument(content, title)]: the engine
    keeps the raw content in the index and the title in its own map. *)
Definition AddDocument1 (self : t) (content : TString) : t * TDocId :=
  let terms := TTextPipeline.Process (Pipeline_ self) content in
  let '(index, docId) :=
    TInvertedIndex.AddDocumentRaw (Index_ self) terms content in
  (Mk (Pipeline_ self) index (Titles_ self), docId).

Definition AddDocument (self : t) (content title : TString) : t * TDocId :=
  let '(self, docId) := AddDocument1 self content in
  (Mk (Pipeline_ self) (Index_ self) (<[docId := title]> (Titles_ self)),
   docId).

Definition SearchTerms (self : t) (queryTerms : list TString) (topK : nat)
  : list TTfIdf.TSearchResult :=
  TTfIdf.Search (Index_ self) queryTerms topK.

Definition BooleanAnd (self : t) (terms : list TString) : TPostingList :=
  TBooleanSearch.SearchAnd (Index_ self)
    (TTextPipeline.NormalizeTerms (Pipeline_ self) terms).

Definition BooleanOr (self : t) (terms : list TString) : TPostingList :=
  TBooleanSearch.SearchOr (Index_ self)
    (TTextPipeline.NormalizeTerms (Pipeline_ self) terms).

Definition BooleanAndNot (self : t) (include exclude : list TString)
  : TPostingList :=
  TBooleanSearch.SearchAndNot (Index_ self)
    (TTextPipeline.NormalizeTerms (Pipeline_ self) include)
    (TTextPipeline.NormalizeTerms (Pipeline_ self) exclude).

Definition GetDocument (self : t) (docId : TDocId) : TString :=
  TInvertedIndex.GetDocument (Index_ self) docId.

Definition GetTitle (self : t) (docId : TDocId) : TString :=
  match Titles_ self !! docId with
  | Some title => title
  | None => []
  end.

Definition GetTermCount (self : t) : nat :=
  TInvertedIndex.GetTermCount (Index_ self).

End TSearchEngine.

(** * Database facade ([NSearchSystem::TSearchDatabase]) *)

Module TSearchDatabase.

Record TOptions := MkOptions {
  Pipeline : TTextPipeline.TOptions;
  StoreDocuments : bool;
  CompressDocuments : bool;
  StoreTitles : bool
}.

Definition default_options : TOptions :=
  MkOptions TTextPipeline.default_options true true true.

Record t := Mk {
  Options_ : TOptions;
  Engine_ : TSearchEngine.t;
  RawDocs_ : gmap TDocId TString;
  CompressedDocs_ : gmap TDocId TLzw.TBytes;
  Titles_ : gmap TDocId TString
}.

(** [Lzw_] is default-constructed. *)
Definition Lzw_ : TLzw.TOptions := TLzw.default_options.

Definition new (o : TOptions) : t :=
  Mk o (TSearchEngine.new (Pipeline o)) ∅ ∅ ∅.

Definition pipeline (self : t) : TTextPipeline.TOptions :=
  TSearchEngine.Pipeline_ (Engine_ self).

Definition index (self : t) : TInvertedIndex.t :=
  TSearchEngine.Index_ (Engine_ self).

Definition StoreDoc (self : t) (docId : TDocId) (content : TString) : t :=
  if CompressDocuments (Options_ self) then
    Mk (Options_ self) (Engine_ self) (RawDocs_ self)
      (<[docId := TLzw.Compress Lzw_ content]> (CompressedDocs_ self))
      (Titles_ self)
  else
    Mk (Options_ self) (Engine_ self) (<[docId := content]> (RawDocs_ self))
      (CompressedDocs_ self) (Titles_ self).

Definition AddDocument (self : t) (content title : TString) : t * TDocId :=
  let terms := TTextPipeline.Process (pipeline self) content in
  let '(engine, docId) := TSearchEngine.AddDocumentTerms (Engine_ self) terms in
  let self :=
    Mk (Options_ self) engine (RawDocs_ self) (CompressedDocs_ self)
      (Titles_ self) in
  let self :=
    if StoreDocuments (Options_ self) then StoreDoc self docId content
    else self in
  let self :=
    if StoreTitles (Options_ self) && negb (length title =? 0)
    then
      Mk (Options_ self) (Engine_ self) (RawDocs_ self) (CompressedDocs_ self)
        (<[docId := title]> (Titles_ self))
    else self in
  (self, docId).

(** [AddDocument(content)] forwards an empty title. *)
Definition AddDocument1 (self : t) (content : TString) : t * TDocId :=
  AddDocument self content [].

Definition AddDocumentTerms (self : t) (terms : list TString) : t * TDocId :=
  let '(engine, docId) := TSearchEngine.AddDocumentTerms (Engine_ self) terms in
  (Mk (Options_ self) engine (RawDocs_ self) (CompressedDocs_ self)
     (Titles_ self),
   docId).

Definition AddDocumentTermsContent (self : t) (terms : list TString)
    (content : TString) : t * TDocId :=
  let '(engine, docId) := TSearchEngine.AddDocumentTerms (Engine_ self) terms in
  let self :=
    Mk (Options_ self) engine (RawDocs_ self) (CompressedDocs_ self)
      (Titles_ self) in
  let self :=
    if StoreDocuments (Options_ self) then StoreDoc self docId content
    else self in
  (self, docId).

Definition Search (self : t) (query : TString) (topK : nat)
  : list TTfIdf.TSearchResult :=
  TSearchEngine.Search (Engine_ self) query topK.

Definition GetDocument (self : t) (docId : TDocId) : TString :=
  if negb (StoreDocuments (Options_ self)) then []
  else if CompressDocuments (Options_ self) then
    match CompressedDocs_ self !! docId with
    | None => []
    | Some data => TLzw.Decompress Lzw_ data
    end
  else
    match RawDocs_ self !! docId with
    | None => []
    | Some text => text
    end.

Definition GetTitle (self : t) (docId : TDocId) : TString :=
  if negb (StoreTitles (Options_ self)) then []
  else
    match Titles_ self !! docId with
    | None => []
    | Some title => title
    end.

Definition GetDocumentCount (self : t) : nat :=
  TSearchEngine.GetDocumentCount (Engine_ self).

Definition Clear (self : t) : t :=
  Mk (Options_ self) (TSearchEngine.Clear (Engine_ self)) ∅ ∅ ∅.

(** ** Boolean queries *)

Definition IsWs (c : ascii) : bool :=
  char_eqb c " " || char_eqb c "009" || char_eqb c "010" || char_eqb c "013".

Definition IsParen (c : ascii) : bool := char_eqb c "(" || char_eqb c ")".

(** The body of the [for] loop of [TokenizeBooleanQuery], on the pair
    [(tokens, cur)]. *)
Definition TokenizeBooleanQuery_step (st : list TString * TString) (c : ascii)
  : list TString * TString :=
  let '(tokens, cur) := st in
  if IsWs c then
    match cur with
    | [] => (tokens, cur)
    | _ :: _ => (tokens ++ [cur], [])
    end
  else if IsParen c then
    match cur with
    | [] => (tokens ++ [[c]], [])
    | _ :: _ => ((tokens ++ [cur]) ++ [[c]], [])
    end
  else (tokens, cur ++ [c]).

Definition TokenizeBooleanQuery (query : TString) : list TString :=
  let '(tokens, cur) := fold_left TokenizeBooleanQuery_step query ([], []) in
  match cur with
  | [] => tokens
  | _ :: _ => tokens ++ [cur]
  end.

Definition tok_is (t : TString) (s : string) : bool := TString_eqb t (lit s).

Definition IsOp (t : TString) : bool :=
  tok_is t "and" || tok_is t "or" || tok_is t "not" || tok_is t "AND" || tok_is t "OR" || tok_is t "NOT".

Definition Prec (t : TString) : Z :=
  if tok_is t "not" || tok_is t "NOT" then 3%Z
  else if tok_is t "and" || tok_is t "AND" then 2%Z
  else if tok_is t "or" || tok_is t "OR" then 1%Z
  else 0%Z.

Definition IsLeftAssoc (t : TString) : bool := negb (tok_is t "not" || tok_is t "NOT").

(** The operator stack [ops] and the evaluation stack [st] are vectors used
    through [Back], [PushBack] and [PopBack] only; they are lists whose head
    is [Back()]. *)

(** [while (!ops.Empty() && ops.Back() != "(") { out.PushBack(ops.Back()); ops.PopBack(); }] *)
Fixpoint pop_to_paren (ops out : list TString) : list TString * list TString :=
  match ops with
  | [] => ([], out)
  | top :: ops' =>
      if negb (tok_is top "(") then pop_to_paren ops' (out ++ [top])
      else (ops, out)
  end.

(** The [while] loop that unloads operators of higher (or equal, for a
    left-associative token) precedence. *)
Fixpoint pop_ops (tok : TString) (ops out : list TString)
  : list TString * list TString :=
  match ops with
  | [] => ([], out)
  | top :: ops' =>
      if IsOp top then
        let p1 := Prec tok in
        let p2 := Prec top in
        if (p1 <? p2)%Z || ((p2 =? p1)%Z && IsLeftAssoc tok)
        then pop_ops tok ops' (out ++ [top])
        else (ops, out)
      else (ops, out)
  end.

Definition ToRpn_step (o : TTextPipeline.TOptions)
    (st : list TString * list TString) (tok : TString)
  : list TString * list TString :=
  let '(out, ops) := st in
  if tok_is tok "(" then (out, tok :: ops)
  else if tok_is tok ")" then
    let '(ops, out) := pop_to_paren ops out in
    match ops with
    | top :: ops' => if tok_is top "(" then (out, ops') else (out, ops)
    | [] => (out, ops)
    end
  else if IsOp tok then
    let '(ops, out) := pop_ops tok ops out in
    (out, tok :: ops)
  else (out ++ [TTextPipeline.NormalizeTerm o tok], ops).

(** The final [while (!ops.Empty())] loop. *)
Fixpoint drain_ops (ops out : list TString) : list TString :=
  match ops with
  | [] => out
  | top :: ops' =>
      if negb (tok_is top "(") && negb (tok_is top ")")
      then drain_ops ops' (out ++ [top])
      else drain_ops ops' out
  end.

Definition ToRpn (o : TTextPipeline.TOptions) (tokens : list TString)
  : list TString :=
  let '(out, ops) := fold_left (ToRpn_step o) tokens ([], []) in
  drain_ops ops out.

Fixpoint Intersect (a b : TPostingList) : TPostingList :=
  match a with
  | [] => []
  | x :: a' =>
      (fix scan (b : TPostingList) : TPostingList :=
         match b with
         | [] => []
         | y :: b' =>
             if x =? y then x :: Intersect a' b'
             else if x <? y then Intersect a' b
             else scan b'
         end) b
  end.

Fixpoint Union (a b : TPostingList) : TPostingList :=
  match a with
  | [] => b
  | x :: a' =>
      (fix scan (b : TPostingList) : TPostingList :=
         match b with
         | [] => a
         | y :: b' =>
             if x =? y then x :: Union a' b'
             else if x <? y then x :: Union a' b
             else y :: scan b'
         end) b
  end.

(** [NotList]: one pass over the ids [0 .. n-1], with the cursor [i] into
    [a] kept as the part of [a] still to be matched. *)
Definition NotList_step (st : TPostingList * TPostingList) (doc : TDocId)
  : TPostingList * TPostingList :=
  let '(rest, r) := st in
  match rest with
  | x :: rest' => if x =? doc then (rest', r) else (rest, r ++ [doc])
  | [] => (rest, r ++ [doc])
  end.

Definition NotList (n : nat) (a : TPostingList) : TPostingList :=
  snd (fold_left NotList_step (seq 0 n) (a, [])).

Fixpoint EvalRpn_loop (idx : TInvertedIndex.t) (rpn : list TString)
    (st : list TPostingList) : TPostingList :=
  match rpn with
  | [] =>
      match st with
      | [] => []
      | top :: _ => top
      end
  | tok :: rpn' =>
      if IsOp tok then
        if tok_is tok "not" || tok_is tok "NOT" then
          match st with
          | [] => []
          | a :: st' =>
              EvalRpn_loop idx rpn'
                (NotList (TInvertedIndex.GetDocumentCount idx) a :: st')
          end
        else
          match st with
          | b :: a :: st' =>
              if tok_is tok "and" || tok_is tok "AND"
              then EvalRpn_loop idx rpn' (Intersect a b :: st')
              else EvalRpn_loop idx rpn' (Union a b :: st')
          | _ => []
          end
      else
        EvalRpn_loop idx rpn' (TInvertedIndex.GetPostingList idx tok :: st)
  end.

Definition EvalRpn (self : t) (rpn : list TString) : TPostingList :=
  EvalRpn_loop (index self) rpn [].

Definition BooleanQuery (self : t) (query : TString) : TPostingList :=
  let tokens := TokenizeBooleanQuery query in
  let rpn := ToRpn (pipeline self) tokens in
  EvalRpn self rpn.

(** The mutating calls of the public interface, and the database a sequence
    of them builds from a freshly constructed one. *)
Inductive TCall :=
  | CallAddDocument (content title : TString)
  | CallAddDocument1 (content : TString)
  | CallAddDocumentTerms (terms : list TString)
  | CallAddDocumentTermsContent (terms : list TString) (content : TString)
  | CallClear.

Definition call (self : t) (c : TCall) : t :=
  match c with
  | CallAddDocument content title => fst (AddDocument self content title)
  | CallAddDocument1 content => fst (AddDocument1 self content)
  | CallAddDocumentTerms terms => fst (AddDocumentTerms self terms)
  | CallAddDocumentTermsContent terms content =>
      fst (AddDocumentTermsContent self terms content)
  | CallClear => Clear self
  end.

Definition run (o : TOptions) (calls : list TCall) : t :=
  fold_left call calls (new o).

Definition SearchTerms (self : t) (queryTerms : list TString) (topK : nat)
  : list TTfIdf.TSearchResult :=
  TSearchEngine.SearchTerms (Engine_ self) queryTerms topK.

Definition BooleanAnd (self : t) (terms : list TString) : TPostingList :=
  TSearchEngine.BooleanAnd (Engine_ self) terms.

Definition BooleanOr (self : t) (terms : list TString) : TPostingList :=
  TSearchEngine.BooleanOr (Engine_ self) terms.

Definition GetTermCount (self : t) : nat :=
  TSearchEngine.GetTermCount (Engine_ self).

End TSearchDatabase.

(** * Vocabulary of the properties *)

Definition stemming_options : TTextPipeline.TOptions :=
  TTextPipeline.default_options.

Definition lemma_options : TTextPipeline.TOptions :=
  TTextPipeline.MkOptions true true true true true 2 100.

Definition plain_options : TTextPipeline.TOptions :=
  TTextPipeline.MkOptions true false false true true 2 100.




Section index_terms.

Import TInvertedIndex.

Definition tf_total (m : gmap TString nat) : nat :=
  sum_list_with snd (map_to_list m).

Definition tfmap (ix : t) (d : TDocId) : gmap TString nat :=
  default ∅ (TermFrequencies_ ix !! d).

Record index_inv (ix : t) : Prop := {
  ii_pl : forall term l, Index_ ix !! term = Some l ->
          StronglySorted lt l /\ Forall (fun d => d < NextDocId_ ix) l;
  ii_tf : forall d term,
          0 < GetTermFrequency ix d term <-> d ∈ GetPostingList ix term;
  ii_pos : forall d term n, tfmap ix d !! term = Some n -> 0 < n;
  ii_sum : forall d, tf_total (tfmap ix d) = GetDocumentLength ix d;
  ii_fresh : forall d, NextDocId_ ix <= d ->
             DocTermCounts_ ix !! d = None /\ TermFrequencies_ ix !! d = None
}.

Record loop_inv (docId k : nat) (ix : t) : Prop := {
  li_next : NextDocId_ ix = S docId;
  li_pl : forall term l, Index_ ix !! term = Some l ->
          StronglySorted lt l /\ Forall (fun d => d <= docId) l;
  li_tf : forall d term,
          0 < GetTermFrequency ix d term <-> d ∈ GetPostingList ix term;
  li_pos : forall d term n, tfmap ix d !! term = Some n -> 0 < n;
  li_sum : forall d, d <> docId ->
           tf_total (tfmap ix d) = GetDocumentLength ix d;
  li_cur : tf_total (tfmap ix docId) = k;
  li_fresh : forall d, docId <= d -> DocTermCounts_ ix !! d = None;
  li_fresh_tf : forall d, docId < d -> TermFrequencies_ ix !! d = None
}.

End index_terms.

Section ranking_terms.

Import TTfIdf.

(** No result after position [p] has a strictly larger score than the one at
    [p]. *)
Definition dominates (rs : list TSearchResult) (p : nat) : Prop :=
  forall k a b, p < k -> rs !! p = Some a -> rs !! k = Some b ->
                (Score a <? Score b)%float = false.

Definition dominates_below (rs : list TSearchResult) (p bound : nat) : Prop :=
  forall k a b, p < k < bound -> rs !! p = Some a -> rs !! k = Some b ->
                (Score a <? Score b)%float = false.

(** The order [SortResults] establishes. *)
Definition NonIncreasingScores (rs : list TSearchResult) : Prop :=
  forall i j a b, i < j -> rs !! i = Some a -> rs !! j = Some b ->
                  (Score a <? Score b)%float = false.

Definition tie_index : TInvertedIndex.t :=
  TInvertedIndex.run
    [ TInvertedIndex.CallAddDocument [lit "b"];
      TInvertedIndex.CallAddDocument [lit "a"];
      TInvertedIndex.CallAddDocument [lit "a"] ].

Definition tie_index4 : TInvertedIndex.t :=
  TInvertedIndex.run
    [ TInvertedIndex.CallAddDocument [lit "a"; lit "b"];
      TInvertedIndex.CallAddDocument [lit "a"; lit "b"];
      TInvertedIndex.CallAddDocument [lit "a"];
      TInvertedIndex.CallAddDocument [lit "a"] ].

End ranking_terms.

Section packing_terms.

Import TLzw.
Local Open Scope Z_scope.

Local Abbreviation o := default_options.

Definition code_in_range (c : Z) : Prop := 0 <= c < 4096.

Definition unpack_all (bytes : TBytes) : Z * Z * list Z :=
  fold_left (unpack_step o) bytes (0, 0, []).

(** The packer after a prefix [cs] of the codes, and the unpacker after the
    bytes written so far. *)
Inductive pack_sync (cs : list Z) : Z * Z * TBytes -> Prop :=
  | sync_even (out : TBytes) :
      unpack_all out = (0, 0, cs) -> pack_sync cs (0, 0, out)
  | sync_odd (out : TBytes) (cs' : list Z) (c : Z) :
      cs = cs' ++ [c] -> code_in_range c ->
      unpack_all out = (c mod 256, 8, cs') ->
      pack_sync cs (c / 256, 4, out).

End packing_terms.

Section coder_terms.

Import TLzw.
Local Open Scope Z_scope.

Local Abbreviation o := default_options.

(** The encoder's hash map [dict] holds exactly the strings of the table
    [D], each under its index. *)
Definition dict_of (dict : gmap TString Z) (D : list TString) : Prop :=
  forall s k, dict !! s = Some k <-> 0 <= k /\ D !! Z.to_nat k = Some s.

Definition finish (st : TEncoder) : list Z :=
  match enc_w st with
  | [] => enc_codes st
  | _ :: _ =>
      match enc_dict st !! enc_w st with
      | Some k => enc_codes st ++ [k]
      | None => enc_codes st
      end
  end ++ [EndCode o].

(** The codes still to come when the encoder stands at [input] with
    dictionary [dict], next code [n] and prefix [w]. *)
Definition tail_codes (input : TString) (dict : gmap TString Z) (n : Z)
    (w : TString) : list Z :=
  finish (fold_left (Compress_step o) input (MkEncoder dict n w [])).

Record enc_inv (dict : gmap TString Z) (n : Z) (D : list TString) : Prop := {
  ei_rel : dict_of dict D;
  ei_next : n = Z.of_nat (length D);
  ei_len : (256 <= length D <= 4095)%nat;
  ei_chars : forall c, D !! nat_of_ascii c = Some [c]
}.

(** The decoder's table [Dd] is the encoder's table [D] without the entry
    the encoder added after its last code, which the decoder adds on the
    next one. *)
Record dec_rel (D Dd : list TString) (wd w : TString) : Prop := {
  dr_w : wd <> [];
  dr_grow : (length Dd < 4095)%nat -> D = Dd ++ [wd ++ [char_at w 0]];
  dr_full : (4095 <= length Dd)%nat -> D = Dd
}.

Definition decode_entry (Dd : list TString) (wd : TString) (k : Z)
  : option TString :=
  if k <? Z.of_nat (length Dd) then Some (nth (Z.to_nat k) Dd [])
  else if (k =? Z.of_nat (length Dd)) && negb (length wd =? 0)%nat
  then Some (wd ++ [char_at wd 0])
  else None.

(** Position [i] of the stream holds a code that is not END, not in the
    decoder's table and not the next code to be assigned, after codes that
    were all well formed: the table has [256 + (j - 1)] entries (at most 4095)
    when the code at position [j >= 1] is read. *)
Definition malformed_at (codes : list Z) (i : nat) (k : Z) : Prop :=
  codes !! i = Some k /\ k <> 4095 /\ 255 + Z.of_nat i < k
  /\ forall j kj, (j < i)%nat -> codes !! j = Some kj ->
                  0 <= kj <= 255 + Z.of_nat j /\ kj < 4095.

End coder_terms.

Section query_terms.

Import TSearchDatabase.

Definition is_not (tok : TString) : bool := tok_is tok "not" || tok_is tok "NOT".

(** Does evaluating [rpn] with [depth] lists on the stack run out of
    operands?  Operands push one list, [not] needs one, [and]/[or] need
    two and leave one. *)
Fixpoint rpn_underflows (rpn : list TString) (depth : nat) : bool :=
  match rpn with
  | [] => false
  | tok :: rpn' =>
      if IsOp tok then
        if is_not tok then
          match depth with
          | O => true
          | S _ => rpn_underflows rpn' depth
          end
        else
          match depth with
          | S (S d) => rpn_underflows rpn' (S d)
          | _ => true
          end
      else rpn_underflows rpn' (S depth)
  end.

(** The evaluation stack after [rpn]; [None] on underflow. *)
Fixpoint RunRpn (idx : TInvertedIndex.t) (rpn : list TString)
    (st : list (list nat)) : option (list (list nat)) :=
  match rpn with
  | [] => Some st
  | tok :: rpn' =>
      if IsOp tok then
        if is_not tok then
          match st with
          | [] => None
          | a :: st' =>
              RunRpn idx rpn'
                (NotList (TInvertedIndex.GetDocumentCount idx) a :: st')
          end
        else
          match st with
          | b :: a :: st' =>
              RunRpn idx rpn'
                ((if tok_is tok "and" || tok_is tok "AND"
                  then Intersect a b else Union a b) :: st')
          | _ => None
          end
      else RunRpn idx rpn' (TInvertedIndex.GetPostingList idx tok :: st)
  end.

Definition operator_spellings : list TString :=
  map lit ["and"; "or"; "not"; "AND"; "OR"; "NOT"]%string.

Definition pets : t :=
  run default_options
    [ CallAddDocument1 (lit "cat dog");
      CallAddDocument1 (lit "cat bird");
      CallAddDocument1 (lit "fish") ].

End query_terms.

Section storage_terms.

Import TSearchDatabase.

(** What the calls since the last [Clear] handed over for each document, in
    id order: the content (if the call had one) and the title (empty when
    none was supplied). *)
Definition log_step (log : list (option (list ascii) * list ascii))
    (c : TCall) : list (option (list ascii) * list ascii) :=
  match c with
  | CallAddDocument content title => log ++ [(Some content, title)]
  | CallAddDocument1 content => log ++ [(Some content, [])]
  | CallAddDocumentTerms _ => log ++ [(None, [])]
  | CallAddDocumentTermsContent _ content => log ++ [(Some content, [])]
  | CallClear => []
  end.

Definition ingest_log (calls : list TCall)
  : list (option (list ascii) * list ascii) :=
  fold_left log_step calls [].

Definition logged_content (log : list (option (list ascii) * list ascii))
    (d : nat) : list ascii :=
  match log !! d with
  | Some (Some content, _) => content
  | _ => []
  end.

Definition logged_title (log : list (option (list ascii) * list ascii))
    (d : nat) : list ascii :=
  match log !! d with
  | Some (_, title) => title
  | None => []
  end.

(** The text the storage maps hold for [d], whichever map is in use. *)
Definition doc_lookup (db : t) (d : nat) : option (list ascii) :=
  if CompressDocuments (Options_ db)
  then TLzw.Decompress Lzw_ <$> CompressedDocs_ db !! d
  else RawDocs_ db !! d.

Record db_inv (o : TOptions) (log : list (option (list ascii) * list ascii))
    (db : t) : Prop := {
  di_options : Options_ db = o;
  di_next : TInvertedIndex.NextDocId_ (index db) = length log;
  di_docs : forall d,
    doc_lookup db d
    = if StoreDocuments o then log !! d ≫= fst else None;
  di_titles : forall d,
    Titles_ db !! d
    = if StoreTitles o
      then match log !! d with
           | Some (_, title) =>
               if (length title =? 0)%nat then None else Some title
           | None => None
           end
      else None
}.

(** The shared tail of the [AddDocument*] calls, once the engine has
    allocated [docId] and returned the index [ix]. *)
Definition ingest (db : t) (ix : TInvertedIndex.t) (docId : nat)
    (content : option (list ascii)) (title : list ascii) : t :=
  let db1 :=
    Mk (Options_ db)
      (TSearchEngine.Mk (TSearchEngine.Pipeline_ (Engine_ db)) ix
         (TSearchEngine.Titles_ (Engine_ db)))
      (RawDocs_ db) (CompressedDocs_ db) (Titles_ db) in
  let db2 :=
    match content with
    | Some text =>
        if StoreDocuments (Options_ db1) then StoreDoc db1 docId text else db1
    | None => db1
    end in
  if StoreTitles (Options_ db2) && negb (length title =? 0)%nat
  then Mk (Options_ db2) (Engine_ db2) (RawDocs_ db2) (CompressedDocs_ db2)
         (<[docId := title]> (Titles_ db2))
  else db2.

End storage_terms.

Section database_index_terms.

Import TSearchDatabase.

(** The call on the index that a call on the database comes down to. *)
Definition index_call (p : TTextPipeline.TOptions) (c : TCall)
  : TInvertedIndex.TCall :=
  match c with
  | CallAddDocument content _ | CallAddDocument1 content =>
      TInvertedIndex.CallAddDocument (TTextPipeline.Process p content)
  | CallAddDocumentTerms terms | CallAddDocumentTermsContent terms _ =>
      TInvertedIndex.CallAddDocument terms
  | CallClear => TInvertedIndex.CallClear
  end.

End database_index_terms.

Section boolean_evaluation_terms.

Import TSearchDatabase.

Definition below (n : nat) (l : list nat) : Prop := Forall (fun d => d < n) l.

(** A posting list as the evaluation keeps it: strictly increasing ids of
    existing documents. *)
Definition posting (n : nat) (l : list nat) : Prop :=
  StronglySorted lt l /\ below n l.

End boolean_evaluation_terms.

Section adding_a_document_terms.

Import TInvertedIndex.

(** How often [term] occurs among [terms], and whether it does, with the
    comparison of [TString::operator==]. *)
Definition occurrences (term : TString) (terms : list TString) : nat :=
  length (List.filter (TString_eqb term) terms).

Definition mentions (term : TString) (terms : list TString) : bool :=
  existsb (TString_eqb term) terms.

(** The state of the loop of [AddDocument] after the terms [done], for the
    new id [docId] on top of the index [ix0]. *)
Record adding (ix0 : t) (docId : nat) (done : list TString) (cur : t)
  : Prop := {
  ad_docs : Documents_ cur = Documents_ ix0;
  ad_counts : DocTermCounts_ cur = DocTermCounts_ ix0;
  ad_next : NextDocId_ cur = S docId;
  ad_other : forall d, d <> docId ->
             TermFrequencies_ cur !! d = TermFrequencies_ ix0 !! d;
  ad_tf : forall term, GetTermFrequency cur docId term = occurrences term done;
  ad_pl : forall term,
          GetPostingList cur term
          = GetPostingList ix0 term
            ++ (if mentions term done then [docId] else [])
}.

End adding_a_document_terms.

Section term_statistics_terms.

Import TInvertedIndex.

(** No posting list of the index is empty. *)
Definition no_empty_list (ix : t) : Prop :=
  forall term l, Index_ ix !! term = Some l -> l <> [].

End term_statistics_terms.

Section packed_size_terms.

Import TLzw.
Local Open Scope Z_scope.

Local Abbreviation o := default_options.

Definition is_byte (b : Z) : Prop := 0 <= b < 256.

(** The packer after [k] codes: no pending bits and three bytes for every
    two codes, or four pending bits after an odd number of codes. *)
Definition packed (k : nat) (st : Z * Z * TBytes) : Prop :=
  let '(buffer, bits, out) := st in
  Forall is_byte out
  /\ ((buffer = 0 /\ bits = 0 /\ (2 * length out = 3 * k)%nat)
      \/ (0 <= buffer < 16 /\ bits = 4 /\ (2 * length out + 1 = 3 * k)%nat)).

Definition pending (st : TEncoder) : nat :=
  length (enc_codes st) + (if (length (enc_w st) =? 0)%nat then 0 else 1).

End packed_size_terms.

Section candidate_set_terms.

Import TUnorderedSet.
Local Open Scope Z_scope.

(** Every key held by the table satisfies [P]. *)
Definition keys_in (P : nat -> Prop) (m : t) : Prop :=
  Forall (fun s => State s = Occupied -> P (Key s)) (Slots_ m).

End candidate_set_terms.

Section search_results_terms.

Import TTfIdf.

Definition matches (index : TInvertedIndex.t) (queryTerms : list TString)
    (d : nat) : Prop :=
  exists term,
    term ∈ queryTerms /\ d ∈ TInvertedIndex.GetPostingList index term.

End search_results_terms.

Section stemmer_lengths_terms.

Import NStemmer.

(** A rule that replaces its suffix by something no longer. *)
Definition rule_shrinks (r : TSuffixRule) : bool :=
  (Len r =? length (From r)) && (length (To r) <=? Len r).

End stemmer_lengths_terms.

Section query_tokens_terms.

Import TSearchDatabase.

(** What [TokenizeBooleanQuery] makes of a token: not empty, free of
    white space, and a parenthesis only as a token of its own. *)
Definition query_token (t : TString) : Prop :=
  t <> []
  /\ Forall (fun c => IsWs c = false) t
  /\ (Forall (fun c => IsParen c = false) t
      \/ exists c, IsParen c = true /\ t = [c]).

Definition word_part (cur : TString) : Prop :=
  Forall (fun c => IsWs c = false) cur
  /\ Forall (fun c => IsParen c = false) cur.

End query_tokens_terms.

Section word_tokens_terms.

Import NTokenizer.

(** A word as [Tokenize] cuts it out of [text]: a run of word characters
    that starts with a letter and is not followed by a word character, with
    its text (lower-cased if the options say so), its position and its
    length, the length within the bounds of the options. *)
Record word_token (o : TOptions) (text : TString) (t : TToken) : Prop := {
  wt_length : 0 < Length t;
  wt_inside : Position t + Length t <= length text;
  wt_text : Text t
            = if LowerCase o then ToLower (SubStr text (Position t) (Length t))
              else SubStr text (Position t) (Length t);
  wt_first : IsAlpha (char_at text (Position t)) = true;
  wt_chars : forall k, Position t <= k < Position t + Length t ->
                       is_word_char (char_at text k) = true;
  wt_maximal : Position t + Length t = length text
               \/ is_word_char (char_at text (Position t + Length t)) = false;
  wt_bounds : MinTokenLength o <= Length t <= MaxTokenLength o
}.

(** Tokens in text order, none overlapping the next. *)
Definition in_text_order (tokens : list TToken) : Prop :=
  forall i j t1 t2,
    i < j -> tokens !! i = Some t1 -> tokens !! j = Some t2 ->
    Position t1 + Length t1 <= Position t2.

(** The tokens collected when the loop stands at [pos]. *)
Definition collected (o : TOptions) (text : TString) (pos : nat)
    (tokens : list TToken) : Prop :=
  Forall (word_token o text) tokens
  /\ Forall (fun t => Position t + Length t <= pos) tokens
  /\ in_text_order tokens.

End word_tokens_terms.

Section splitting_terms.

Import NTokenizer.

(** What the loop of [Split] makes of the bytes [rest] when the bytes [cur]
    since the last delimiter are pending: the pieces it closes, and the
    piece still pending at the end. *)
Fixpoint split_run (d : ascii) (cur rest : TString) : list TString * TString :=
  match rest with
  | [] => ([], cur)
  | c :: rest' =>
      if char_eqb c d then
        let '(pieces, pending) := split_run d [] rest' in
        (match cur with [] => pieces | _ :: _ => cur :: pieces end, pending)
      else split_run d (cur ++ [c]) rest'
  end.

(** A piece that [Split] can return: not empty, without the delimiter. *)
Definition piece (d : ascii) (p : TString) : Prop :=
  p <> [] /\ Forall (fun c => char_eqb c d = false) p.

End splitting_terms.

Section simple_queries_terms.

Import TSearchDatabase.

(** A word of a query that stands for a term: not empty, free of white
    space and parentheses, and no operator keyword, neither as written nor
    after normalisation. *)
Definition operand (p : TTextPipeline.TOptions) (w : TString) : Prop :=
  w <> [] /\ word_part w /\ IsOp w = false
  /\ IsOp (TTextPipeline.NormalizeTerm p w) = false.

End simple_queries_terms.

Section keyword_spellings_terms.

Import TSearchDatabase.

Definition is_and (tok : TString) : bool := tok_is tok "and" || tok_is tok "AND".

Definition is_or (tok : TString) : bool := tok_is tok "or" || tok_is tok "OR".

(** A word of a query: not empty, free of white space and parentheses. *)
Definition word (w : TString) : Prop := w <> [] /\ word_part w.

(** The query that consists of the words [ws], one blank between two. *)
Fixpoint unwords (ws : list TString) : TString :=
  match ws with
  | [] => []
  | w :: ws' =>
      match ws' with
      | [] => w
      | _ :: _ => w ++ " "%char :: unwords ws'
      end
  end.

End keyword_spellings_terms.

(** * Properties *)

(** * Text pipeline: normalisation *)

Section lower_case.

Lemma ToLowerChar_fixes_non_upper (c : ascii) :
  is_upper c = false -> NTokenizer.ToLowerChar c = c.
Proof.
  unfold NTokenizer.ToLowerChar, is_upper. intros ->. reflexivity.
Qed.

Lemma nat_of_ascii_lt_256 (c : ascii) : nat_of_ascii c < 256.
Proof.
  destruct c as [[] [] [] [] [] [] [] []]; vm_compute; lia.
Qed.

Lemma ToLowerChar_not_upper (c : ascii) :
  is_upper (NTokenizer.ToLowerChar c) = false.
Proof.
  unfold NTokenizer.ToLowerChar.
  destruct ((65 <=? char_code c) && (char_code c <=? 90)) eqn:E.
  - unfold is_upper, char_code in *.
    apply andb_true_iff in E as [E1 E2].
    apply Nat.leb_le in E1, E2.
    rewrite nat_ascii_embedding by lia.
    apply andb_false_iff. right. apply Nat.leb_gt. lia.
  - exact E.
Qed.

Lemma ToLowerChar_idempotent (c : ascii) :
  NTokenizer.ToLowerChar (NTokenizer.ToLowerChar c) = NTokenizer.ToLowerChar c.
Proof.
  apply ToLowerChar_fixes_non_upper, ToLowerChar_not_upper.
Qed.

Lemma ToLower_idempotent (s : TString) :
  NTokenizer.ToLower (NTokenizer.ToLower s) = NTokenizer.ToLower s.
Proof.
  unfold NTokenizer.ToLower. rewrite List.map_map.
  apply List.map_ext. intros c. apply ToLowerChar_idempotent.
Qed.

Lemma ToLower_fixes (s : TString) :
  Forall (fun c => is_upper c = false) s -> NTokenizer.ToLower s = s.
Proof.
  unfold NTokenizer.ToLower.
  induction 1 as [|c s Hc _ IH]; simpl.
  - reflexivity.
  - rewrite ToLowerChar_fixes_non_upper by exact Hc. f_equal. exact IH.
Qed.

End lower_case.

Section scanning.

(** What [advance_while] has stepped over satisfies the loop condition. *)
Lemma advance_while_range (p : nat -> bool) (len fuel i : nat) :
  i <= advance_while p len fuel i /\
  forall k, i <= k < advance_while p len fuel i -> p k = true /\ k < len.
Proof.
  revert i. induction fuel as [|fuel IH]; intros i; simpl.
  - split; [lia|]. intros k Hk. lia.
  - destruct ((i <? len) && p i) eqn:E.
    + apply andb_true_iff in E as [E1 E2]. apply Nat.ltb_lt in E1.
      destruct (IH (S i)) as [IH1 IH2]. split; [lia|].
      intros k Hk. destruct (decide (k = i)) as [->|Hne].
      * split; [exact E2 | exact E1].
      * apply IH2. lia.
    + split; [lia|]. intros k Hk. lia.
Qed.

Lemma SubStr_chars (s : TString) (pos count : nat) (P : ascii -> Prop) :
  (forall k, pos <= k < pos + count -> k < length s -> P (char_at s k)) ->
  Forall P (SubStr s pos count).
Proof.
  intros H. unfold SubStr.
  destruct (length s <=? pos) eqn:E; [constructor|].
  apply Nat.leb_gt in E.
  set (len := if length s <? pos + count then length s - pos else count).
  assert (Hlen : len <= count /\ pos + len <= length s).
  { subst len. destruct (length s <? pos + count) eqn:E2.
    - apply Nat.ltb_lt in E2. lia.
    - apply Nat.ltb_ge in E2. lia. }
  apply Forall_forall. intros c Hc.
  apply list_elem_of_In, (In_nth _ _ zero) in Hc as (n & Hn & Hc).
  rewrite length_firstn, length_skipn in Hn.
  rewrite nth_firstn in Hc.
  destruct (n <? len) eqn:E3; [|apply Nat.ltb_ge in E3; lia].
  rewrite nth_skipn in Hc. subst c. apply H; lia.
Qed.

End scanning.

Section tokens_are_lower.

Variable o : NTokenizer.TOptions.
Hypothesis Hlower : NTokenizer.LowerCase o = true.
Hypothesis Hskip : NTokenizer.SkipWhitespace o = true.

Let fixed (t : NTokenizer.TToken) : Prop :=
  NTokenizer.ToLower (NTokenizer.Text t) = NTokenizer.Text t.

Lemma digit_not_upper (c : ascii) :
  NTokenizer.is_number_char c = true -> is_upper c = false.
Proof.
  unfold NTokenizer.is_number_char, NTokenizer.IsDigit, is_upper, char_eqb.
  intros H. apply andb_false_iff.
  repeat (apply orb_true_iff in H as [H|H]).
  - apply andb_true_iff in H as [_ H]. apply Nat.leb_le in H.
    left. apply Nat.leb_gt. lia.
  - apply Ascii.eqb_eq in H. subst c. left. reflexivity.
  - apply Ascii.eqb_eq in H. subst c. left. reflexivity.
Qed.

Lemma punct_not_upper (c : ascii) :
  NTokenizer.GetCharType c = NTokenizer.Punctuation -> is_upper c = false.
Proof.
  unfold NTokenizer.GetCharType, NTokenizer.IsAlpha, is_upper.
  destruct ((65 <=? char_code c) && (char_code c <=? 90)).
  - rewrite orb_true_r. discriminate.
  - reflexivity.
Qed.

Lemma Tokenize_loop_fixed (text : TString) (len fuel pos : nat)
    (tokens : list NTokenizer.TToken) :
  Forall fixed tokens ->
  Forall fixed (NTokenizer.Tokenize_loop o text len fuel pos tokens).
Proof.
  revert pos tokens. induction fuel as [|fuel IH]; intros pos tokens Htok; simpl.
  - exact Htok.
  - destruct (pos <? len); [|exact Htok].
    rewrite Hskip, andb_false_r.
    set (pos1 := advance_while _ len len pos).
    destruct (len <=? pos1) eqn:Elen; [exact Htok|].
    apply Nat.leb_gt in Elen.
    destruct (NTokenizer.GetCharType (char_at text pos1)) eqn:Ety.
    + (* Word *)
      apply IH. rewrite Hlower.
      match goal with |- context [if ?b then _ else _] => destruct b end;
        [|exact Htok].
      apply Forall_app. split; [exact Htok|].
      constructor; [|constructor]. unfold fixed; simpl.
      apply ToLower_idempotent.
    + (* Number *)
      apply IH. destruct (negb (NTokenizer.SkipNumbers o)); [|exact Htok].
      apply Forall_app. split; [exact Htok|].
      constructor; [|constructor]. unfold fixed; simpl.
      apply ToLower_fixes, SubStr_chars. intros k Hk Hk'.
      apply digit_not_upper.
      set (pos2 := advance_while _ len len pos1) in *.
      destruct (advance_while_range
                  (fun k => NTokenizer.is_number_char (char_at text k))
                  len len pos1) as [Hle Hrange].
      fold pos2 in Hle, Hrange.
      apply (Hrange k). lia.
    + (* Punctuation *)
      apply IH. destruct (negb (NTokenizer.SkipPunctuation o)); [|exact Htok].
      apply Forall_app. split; [exact Htok|].
      constructor; [|constructor]. unfold fixed; simpl.
      apply ToLower_fixes, SubStr_chars. intros k Hk Hk'.
      replace k with pos1 by lia. apply punct_not_upper, Ety.
    + apply IH, Htok.
    + apply IH, Htok.
Qed.

Lemma TokenizeToStrings_fixed (text : TString) :
  Forall (fun t => NTokenizer.ToLower t = t)
    (NTokenizer.TokenizeToStrings o text).
Proof.
  unfold NTokenizer.TokenizeToStrings, NTokenizer.Tokenize.
  apply Forall_map.
  apply (Tokenize_loop_fixed text (length text) (length text) 0 []).
  constructor.
Qed.

End tokens_are_lower.

(** C5, as stated, fails: under the default options (stemming on)
    [NormalizeTerm] maps "choose" to "choos" and "choos" to "choo", so it is
    not idempotent and does not fix the output of [Process]; with
    lemmatization on it maps "analyses" to "analysis" and that to
    "analysi". *)
Lemma C5_normalize_not_idempotent :
  TTextPipeline.NormalizeTerm stemming_options
    (TTextPipeline.NormalizeTerm stemming_options (lit "choose"))
  <> TTextPipeline.NormalizeTerm stemming_options (lit "choose")
  /\ map (TTextPipeline.NormalizeTerm stemming_options)
       (TTextPipeline.Process stemming_options (lit "choose"))
     <> TTextPipeline.Process stemming_options (lit "choose")
  /\ TTextPipeline.NormalizeTerm lemma_options
       (TTextPipeline.NormalizeTerm lemma_options (lit "analyses"))
     <> TTextPipeline.NormalizeTerm lemma_options (lit "analyses").
Proof.
  split; [|split]; vm_compute; discriminate.
Qed.

(** C5 (amended): when neither stemming nor lemmatization is enabled,
    [NormalizeTerm] is idempotent for every input and every other option, and
    applying it elementwise to the output of [Process] leaves that output
    unchanged. *)
Theorem C5_normalize_idempotent_without_stemming
    (o : TTextPipeline.TOptions) (t text : TString) :
  TTextPipeline.UseStemming o = false ->
  TTextPipeline.UseLemmatization o = false ->
  TTextPipeline.NormalizeTerm o (TTextPipeline.NormalizeTerm o t)
  = TTextPipeline.NormalizeTerm o t
  /\ map (TTextPipeline.NormalizeTerm o) (TTextPipeline.Process o text)
     = TTextPipeline.Process o text.
Proof.
  intros Hs Hl. unfold TTextPipeline.NormalizeTerm, TTextPipeline.Process.
  rewrite Hs, Hl. destruct (TTextPipeline.LowerCase o) eqn:Hlc.
  - split; [apply ToLower_idempotent|].
    assert (H := TokenizeToStrings_fixed (TTextPipeline.tokenizer_options o)
                   ltac:(exact Hlc) eq_refl text).
    induction H as [|x l Hx _ IH]; simpl; [reflexivity|].
    rewrite Hx. f_equal. exact IH.
  - split; [reflexivity|]. apply List.map_id.
Qed.

(** The amended C5 with lower-casing only, at a capitalised word and a
    two-word text. *)
Lemma C5_normalize_idempotent_witness :
  TTextPipeline.UseStemming plain_options = false
  /\ TTextPipeline.UseLemmatization plain_options = false
  /\ TTextPipeline.NormalizeTerm plain_options
    (TTextPipeline.NormalizeTerm plain_options (lit "Choose"))
  = TTextPipeline.NormalizeTerm plain_options (lit "Choose")
  /\ map (TTextPipeline.NormalizeTerm plain_options)
       (TTextPipeline.Process plain_options (lit "Choose Analyses"))
     = TTextPipeline.Process plain_options (lit "Choose Analyses").
Proof.
  split; [reflexivity|]. split; [reflexivity|].
  apply (C5_normalize_idempotent_without_stemming plain_options
           (lit "Choose") (lit "Choose Analyses")); reflexivity.
Defined.

(** * Stemmer, step 4 *)

(** C6 (evaluation at the failing input): on "statement" the first suffix of
    the table that matches is "ement"; its stem "stat" has measure 1 and fails
    the guard; the loop then goes on, "ment" matches with the stem "state" of
    measure 2, and Step 4 returns "state" instead of leaving the word
    unchanged.  The claim's own example "element" is left unchanged. *)
Theorem C6_Step4_falls_through_to_later_suffix :
  NStemmer.EndsWith (lit "statement") (lit "ement") = true
  /\ NStemmer.MeasureM (NStemmer.RemoveSuffix (lit "statement") 5) = 1
  /\ NStemmer.Step4 (lit "statement") = lit "state"
  /\ NStemmer.Stem (lit "statement") = lit "state"
  /\ NStemmer.Step4 (lit "element") = lit "element".
Proof.
  split; [|split; [|split; [|split]]]; vm_compute; reflexivity.
Qed.

(** Steps 2 and 3 stop at the first rule that matches, whatever its guard
    says. *)
Lemma apply_rules_first_match (r : NStemmer.TSuffixRule)
    (rules : list NStemmer.TSuffixRule) (s : TString) :
  NStemmer.EndsWith s (NStemmer.From r) = true ->
  NStemmer.MeasureM (NStemmer.RemoveSuffix s (NStemmer.Len r)) = 0 ->
  NStemmer.apply_rules (r :: rules) s = s.
Proof.
  intros Hm Hg. simpl. rewrite Hm, Hg. reflexivity.
Qed.

(** * Lemmatizer *)

Lemma TString_eqb_eq (a b : TString) : TString_eqb a b = true -> a = b.
Proof.
  revert b. induction a as [|x a IH]; intros [|y b]; simpl; try discriminate.
  - reflexivity.
  - intros H. apply andb_true_iff in H as [H1 H2].
    apply Ascii.eqb_eq in H1. subst y. f_equal. apply IH, H2.
Qed.

Lemma TString_eqb_refl (a : TString) : TString_eqb a a = true.
Proof.
  induction a as [|x a IH]; simpl; [reflexivity|].
  unfold char_eqb. rewrite Ascii.eqb_refl. exact IH.
Qed.







(** * Inverted index: invariants *)

Section index_invariants.

Import TInvertedIndex.

Lemma GetTermFrequency_tfmap (ix : t) (d : TDocId) (term : TString) :
  GetTermFrequency ix d term = default 0 (tfmap ix d !! term).
Proof.
  unfold GetTermFrequency, tfmap.
  destruct (TermFrequencies_ ix !! d) as [m|]; simpl.
  - destruct (m !! term); reflexivity.
  - rewrite lookup_empty. reflexivity.
Qed.

Lemma tf_total_empty : tf_total ∅ = 0.
Proof. unfold tf_total. rewrite map_to_list_empty. reflexivity. Qed.

Lemma tf_total_insert_fresh (m : gmap TString nat) (term : TString) (n : nat) :
  m !! term = None -> tf_total (<[term := n]> m) = n + tf_total m.
Proof.
  intros H. unfold tf_total. rewrite (map_to_list_insert m term n H).
  reflexivity.
Qed.

Lemma tf_total_delete (m : gmap TString nat) (term : TString) :
  tf_total m = default 0 (m !! term) + tf_total (delete term m).
Proof.
  destruct (m !! term) as [n|] eqn:E; simpl.
  - unfold tf_total. rewrite <- (map_to_list_delete m term n E). reflexivity.
  - rewrite delete_id by exact E. reflexivity.
Qed.

Lemma tf_total_bump (m : gmap TString nat) (term : TString) :
  tf_total (<[term := S (default 0 (m !! term))]> m) = S (tf_total m).
Proof.
  rewrite <- insert_delete_eq.
  rewrite tf_total_insert_fresh by apply lookup_delete_eq.
  rewrite (tf_total_delete m term). lia.
Qed.

Lemma sum_list_with_agree {A} (f g : A -> nat) (l : list A) :
  Forall (fun x => f x = g x) l -> sum_list_with f l = sum_list_with g l.
Proof.
  induction 1 as [|x l Hx _ IH]; simpl; [reflexivity|]. rewrite Hx, IH.
  reflexivity.
Qed.

(** Summing the frequencies over any key set that covers the frequency map
    gives the total of the map. *)
Lemma sum_over_keys {A} (I : gmap TString A) :
  forall m : gmap TString nat,
    (forall term, is_Some (m !! term) -> is_Some (I !! term)) ->
    sum_list_with (fun term => default 0 (m !! term)) (map_to_list I).*1
    = tf_total m.
Proof.
  induction I as [|k v I Hk IH] using map_ind; intros m Hsub.
  - rewrite map_to_list_empty. simpl.
    assert (m = ∅) as ->.
    { apply map_empty. intros i. destruct (m !! i) eqn:E; [|reflexivity].
      destruct (Hsub i) as [x Hx]; [eauto|]. rewrite lookup_empty in Hx.
      discriminate. }
    rewrite tf_total_empty. reflexivity.
  - rewrite (map_to_list_insert I k v Hk). simpl.
    rewrite (tf_total_delete m k). f_equal.
    rewrite <- (IH (delete k m)).
    + apply sum_list_with_agree, Forall_forall. intros term Hin.
      rewrite lookup_delete_ne; [reflexivity|]. intros ->.
      apply list_elem_of_fmap in Hin as [[k' v'] [-> Hin]]. simpl in *.
      apply elem_of_map_to_list in Hin. congruence.
    + intros term [x Hx].
      destruct (decide (k = term)) as [->|Hne].
      * rewrite lookup_delete_eq in Hx. discriminate.
      * rewrite lookup_delete_ne in Hx by exact Hne.
        destruct (Hsub term) as [y Hy]; [eauto|].
        rewrite lookup_insert_ne in Hy by exact Hne. eauto.
Qed.

(** ** Sorted lists of ids *)

Lemma last_elem_of (l : list nat) : l <> [] -> List.last l 0 ∈ l.
Proof.
  intros H. destruct (exists_last H) as (l' & a & ->).
  rewrite List.last_last. apply elem_of_app. right.
  apply list_elem_of_singleton. reflexivity.
Qed.

Lemma sorted_le_last (l : list nat) (x : nat) :
  StronglySorted lt l -> x ∈ l -> x <= List.last l 0.
Proof.
  induction 1 as [|y l Hs IH Hall]; intros Hin.
  - inversion Hin.
  - destruct l as [|z l].
    + apply list_elem_of_singleton in Hin. subst. simpl. lia.
    + change (List.last (y :: z :: l) 0) with (List.last (z :: l) 0).
      apply elem_of_cons in Hin as [->|Hin]; [|apply IH, Hin].
      rewrite Forall_forall in Hall.
      apply Nat.lt_le_incl, Hall, last_elem_of. discriminate.
Qed.

Lemma sorted_snoc (l : list nat) (x : nat) :
  StronglySorted lt l -> Forall (fun y => y < x) l ->
  StronglySorted lt (l ++ [x]).
Proof.
  induction 1 as [|y l Hs IH Hall]; intros Hlt; simpl.
  - repeat constructor.
  - inversion Hlt; subst. constructor.
    + apply IH. assumption.
    + apply Forall_app. split; [exact Hall|]. constructor; [lia|constructor].
Qed.

Lemma sorted_increasing (l : list nat) :
  StronglySorted lt l -> StrictlyIncreasing l.
Proof.
  induction 1 as [|y l Hs IH Hall]; intros i j a b Hij Ha Hb.
  - destruct i; discriminate.
  - destruct j as [|j]; [lia|]. simpl in Hb. destruct i as [|i]; simpl in Ha.
    + inversion Ha; subst. rewrite Forall_forall in Hall. apply Hall.
      apply list_elem_of_lookup. eauto.
    + apply (IH i j); [lia|assumption|assumption].
Qed.

(** ** The two private updates *)

Lemma AddTermToIndex_spec (ix : t) (term : TString) (docId : TDocId) :
  StronglySorted lt (GetPostingList ix term) ->
  Forall (fun d => d <= docId) (GetPostingList ix term) ->
  exists l1,
    AddTermToIndex ix term docId
    = Mk (<[term := l1]> (Index_ ix)) (Documents_ ix) (TermFrequencies_ ix)
        (DocTermCounts_ ix) (NextDocId_ ix)
    /\ StronglySorted lt l1
    /\ Forall (fun d => d <= docId) l1
    /\ docId ∈ l1
    /\ (forall d, d <> docId -> d ∈ l1 <-> d ∈ GetPostingList ix term).
Proof.
  unfold AddTermToIndex, GetPostingList. intros Hs Hb.
  destruct (Index_ ix !! term) as [l|] eqn:E.
  - match goal with
    | |- context [if ?c then _ else _] => destruct c eqn:C
    end.
    + exists (l ++ [docId]). split; [reflexivity|].
      assert (Hlt : Forall (fun y => y < docId) l).
      { apply Forall_forall. intros y Hy.
        pose proof (sorted_le_last l y Hs Hy) as Hle.
        rewrite Forall_forall in Hb.
        apply orb_true_iff in C as [C|C].
        - apply Nat.eqb_eq in C. destruct l; [inversion Hy|discriminate].
        - apply negb_true_iff, Nat.eqb_neq in C.
          assert (List.last l 0 <= docId).
          { apply Hb, last_elem_of. intros ->. inversion Hy. }
          lia. }
      split; [apply sorted_snoc; assumption|].
      split; [apply Forall_app; split; [exact Hb|constructor; [lia|constructor]]|].
      split; [apply elem_of_app; right; apply list_elem_of_singleton; reflexivity|].
      intros d Hd. rewrite elem_of_app, list_elem_of_singleton. tauto.
    + exists l. apply orb_false_iff in C as [C1 C2].
      apply negb_false_iff, Nat.eqb_eq in C2. apply Nat.eqb_neq in C1.
      split.
      { destruct ix; simpl in *. rewrite insert_id by exact E. reflexivity. }
      split; [exact Hs|]. split; [exact Hb|].
      split; [|tauto].
      rewrite <- C2. apply last_elem_of. intros ->. simpl in C1. lia.
  - exists [docId]. split; [reflexivity|].
    split; [repeat constructor|].
    split; [repeat constructor|].
    split; [apply list_elem_of_singleton; reflexivity|].
    intros d Hd. rewrite list_elem_of_singleton. split; [tauto|].
    intros H. inversion H.
Qed.

Lemma IncrementTermFrequency_spec (ix : t) (docId : TDocId) (term : TString) :
  IncrementTermFrequency ix docId term
  = Mk (Index_ ix) (Documents_ ix)
      (<[docId := <[term := S (default 0 (tfmap ix docId !! term))]>
                    (tfmap ix docId)]> (TermFrequencies_ ix))
      (DocTermCounts_ ix) (NextDocId_ ix).
Proof.
  unfold IncrementTermFrequency, tfmap.
  destruct (TermFrequencies_ ix !! docId) as [m|]; simpl.
  - destruct (m !! term); reflexivity.
  - rewrite lookup_empty. reflexivity.
Qed.

(** ** The invariant of the index, and of the loop of [AddDocument] *)

Lemma GetPostingList_sorted_bound (ix : t) (term : TString) (bound : nat)
    (P : nat -> Prop) :
  (forall term l, Index_ ix !! term = Some l ->
                  StronglySorted lt l /\ Forall P l) ->
  StronglySorted lt (GetPostingList ix term) /\ Forall P (GetPostingList ix term).
Proof.
  intros H. unfold GetPostingList.
  destruct (Index_ ix !! term) as [l|] eqn:E; [eauto|].
  split; constructor.
Qed.

Lemma loop_inv_step (docId k : nat) (ix : t) (term : TString) :
  loop_inv docId k ix ->
  loop_inv docId (S k) (fst (AddDocument_step docId (ix, k) term)).
Proof.
  intros [Hnext Hpl Htf Hpos Hsum Hcur Hfresh Hfresh_tf].
  unfold AddDocument_step. simpl.
  destruct (GetPostingList_sorted_bound ix term docId _ Hpl) as [Hs Hb].
  destruct (AddTermToIndex_spec ix term docId Hs Hb)
    as (l1 & -> & Hs1 & Hb1 & Hin1 & Hother).
  rewrite IncrementTermFrequency_spec. unfold tfmap at 1 2. simpl.
  fold (tfmap ix docId).
  set (m1 := <[term := S (default 0 (tfmap ix docId !! term))]> (tfmap ix docId)).
  assert (Htfmap : forall d I D C N,
            tfmap (Mk I D (<[docId := m1]> (TermFrequencies_ ix)) C N) d
            = if decide (d = docId) then m1 else tfmap ix d).
  { intros d I D C N. unfold tfmap. simpl.
    destruct (decide (d = docId)) as [->|Hne].
    - rewrite lookup_insert_eq. reflexivity.
    - rewrite lookup_insert_ne by congruence. reflexivity. }
  constructor; simpl.
  - exact Hnext.
  - intros term' l Hl. destruct (decide (term = term')) as [->|Hne].
    + rewrite lookup_insert_eq in Hl. inversion Hl; subst. auto.
    + rewrite lookup_insert_ne in Hl by exact Hne. eauto.
  - intros d term'. rewrite GetTermFrequency_tfmap.
    rewrite Htfmap. unfold GetPostingList. simpl.
    specialize (Htf d term'). rewrite GetTermFrequency_tfmap in Htf.
    unfold GetPostingList in Htf, Hother.
    destruct (decide (term = term')) as [<-|Hterm].
    + rewrite lookup_insert_eq.
      destruct (decide (d = docId)) as [->|Hd].
      * subst m1. rewrite lookup_insert_eq. simpl. split; [auto|lia].
      * rewrite Hother by exact Hd. exact Htf.
    + rewrite lookup_insert_ne by exact Hterm.
      destruct (decide (d = docId)) as [->|Hd]; [|exact Htf].
      subst m1. rewrite lookup_insert_ne by exact Hterm. exact Htf.
  - intros d term' n. rewrite Htfmap.
    destruct (decide (d = docId)) as [->|Hd]; [|apply Hpos].
    subst m1. destruct (decide (term = term')) as [<-|Hterm].
    + rewrite lookup_insert_eq. intros [= <-]. lia.
    + rewrite lookup_insert_ne by exact Hterm. apply Hpos.
  - intros d Hd. rewrite Htfmap.
    destruct (decide (d = docId)); [contradiction|].
    rewrite Hsum by exact Hd. reflexivity.
  - rewrite Htfmap.
    destruct (decide (docId = docId)); [|contradiction].
    subst m1. rewrite tf_total_bump. f_equal. exact Hcur.
  - exact Hfresh.
  - intros d Hd. rewrite lookup_insert_ne by lia. apply Hfresh_tf, Hd.
Qed.

Lemma loop_inv_fold (docId : nat) (terms : list TString) :
  forall k ix,
    loop_inv docId k ix ->
    loop_inv docId (k + length terms)
      (fst (fold_left (AddDocument_step docId) terms (ix, k)))
    /\ snd (fold_left (AddDocument_step docId) terms (ix, k))
       = k + length terms.
Proof.
  induction terms as [|term terms IH]; intros k ix H; simpl.
  - rewrite Nat.add_0_r. auto.
  - pose proof (loop_inv_step docId k ix term H) as Hstep.
    destruct (AddDocument_step docId (ix, k) term) as [ix' k'] eqn:E.
    assert (k' = S k) as ->
      by (apply (f_equal snd) in E; simpl in E; congruence).
    simpl in Hstep. destruct (IH (S k) ix' Hstep) as [IH1 IH2].
    replace (k + S (length terms)) with (S k + length terms) by lia. auto.
Qed.

Lemma index_inv_new : index_inv new.
Proof.
  constructor; unfold new, GetTermFrequency, GetPostingList, GetDocumentLength,
    tfmap; simpl.
  - intros term l H. rewrite lookup_empty in H. discriminate.
  - intros d term. rewrite !lookup_empty. split; [lia|]. intros H. inversion H.
  - intros d term n. rewrite lookup_empty. simpl. rewrite lookup_empty.
    discriminate.
  - intros d. rewrite !lookup_empty. simpl. apply tf_total_empty.
  - intros d _. rewrite !lookup_empty. auto.
Qed.

Lemma index_inv_AddDocument (ix : t) (terms : list TString) :
  index_inv ix -> index_inv (fst (AddDocument ix terms)).
Proof.
  intros [Hpl Htf Hpos Hsum Hfresh]. unfold AddDocument.
  set (docId := NextDocId_ ix).
  set (ix0 := Mk (Index_ ix) (Documents_ ix) (TermFrequencies_ ix)
                (DocTermCounts_ ix) (S docId)).
  assert (H0 : loop_inv docId 0 ix0).
  { constructor; subst ix0; simpl.
    - reflexivity.
    - intros term l Hl. destruct (Hpl term l Hl) as [Hs Hb]. split; [exact Hs|].
      eapply Forall_impl; [exact Hb|]. intros d Hd. simpl in Hd. fold docId in Hd.
      lia.
    - exact Htf.
    - exact Hpos.
    - intros d _. apply Hsum.
    - unfold tfmap. simpl. destruct (Hfresh docId (Nat.le_refl _)) as [_ ->].
      apply tf_total_empty.
    - intros d Hd. apply Hfresh. exact Hd.
    - intros d Hd. apply Hfresh. fold docId. lia. }
  destruct (loop_inv_fold docId terms 0 ix0 H0) as [H1 H2].
  destruct (fold_left (AddDocument_step docId) terms (ix0, 0)) as [ix1 k1].
  simpl in *. subst k1.
  destruct H1 as [Hnext Hpl1 Htf1 Hpos1 Hsum1 Hcur1 Hfresh1 Hfresh_tf1].
  constructor; simpl.
  - intros term l Hl. destruct (Hpl1 term l Hl) as [Hs Hb]. split; [exact Hs|].
    eapply Forall_impl; [exact Hb|]. intros d Hd. simpl in *. lia.
  - exact Htf1.
  - exact Hpos1.
  - intros d. unfold GetDocumentLength. simpl.
    destruct (decide (d = docId)) as [->|Hd].
    + rewrite lookup_insert_eq. exact Hcur1.
    + rewrite lookup_insert_ne by congruence. apply Hsum1, Hd.
  - intros d Hd. rewrite Hnext in Hd. rewrite lookup_insert_ne by lia.
    split; [apply Hfresh1; lia|apply Hfresh_tf1; lia].
Qed.

Lemma index_inv_documents (ix : t) (docs : gmap TDocId TString) :
  index_inv ix ->
  index_inv (Mk (Index_ ix) docs (TermFrequencies_ ix) (DocTermCounts_ ix)
               (NextDocId_ ix)).
Proof. intros [? ? ? ? ?]. constructor; assumption. Qed.

Lemma index_inv_call (ix : t) (c : TCall) : index_inv ix -> index_inv (call ix c).
Proof.
  intros H. destruct c as [terms|terms raw|]; simpl.
  - apply index_inv_AddDocument, H.
  - unfold AddDocumentRaw.
    pose proof (index_inv_AddDocument ix terms H) as H'.
    destruct (AddDocument ix terms) as [ix' docId]. simpl in *.
    apply index_inv_documents, H'.
  - apply index_inv_new.
Qed.

Lemma index_inv_run (calls : list TCall) : index_inv (run calls).
Proof.
  unfold run. generalize index_inv_new. generalize new.
  induction calls as [|c calls IH]; intros ix H; simpl; [exact H|].
  apply IH, index_inv_call, H.
Qed.

Lemma SumTermFrequencies_total (ix : t) (d : TDocId) :
  index_inv ix -> SumTermFrequencies ix d = tf_total (tfmap ix d).
Proof.
  intros [Hpl Htf Hpos Hsum Hfresh]. unfold SumTermFrequencies, GetAllTerms.
  rewrite <- (sum_over_keys (Index_ ix) (tfmap ix d)).
  - apply sum_list_with_agree, Forall_forall. intros term _.
    apply GetTermFrequency_tfmap.
  - intros term [n Hn]. pose proof (Hpos d term n Hn) as Hn0.
    assert (Hin : d ∈ GetPostingList ix term).
    { apply Htf. rewrite GetTermFrequency_tfmap, Hn. exact Hn0. }
    unfold GetPostingList in Hin.
    destruct (Index_ ix !! term); [eauto|inversion Hin].
Qed.

(** C2: in every index built by calls of [AddDocument] (with or without raw
    text) and [Clear] from a fresh index, for every term [t] and document id
    [d]: the posting list of [t] is strictly increasing; the term frequency of
    [t] in [d] is positive exactly when [d] is in the posting list of [t]; and
    the term frequencies of [d], summed over all terms of the index, give the
    document length of [d]. *)
Theorem C2_index_invariants (calls : list TCall) (term : TString) (d : TDocId) :
  StrictlyIncreasing (GetPostingList (run calls) term)
  /\ (0 < GetTermFrequency (run calls) d term
      <-> d ∈ GetPostingList (run calls) term)
  /\ SumTermFrequencies (run calls) d = GetDocumentLength (run calls) d.
Proof.
  pose proof (index_inv_run calls) as H.
  split; [|split].
  - apply sorted_increasing.
    apply (GetPostingList_sorted_bound (run calls) term 0
             (fun d => d < NextDocId_ (run calls))).
    apply (ii_pl _ H).
  - apply (ii_tf _ H).
  - rewrite SumTermFrequencies_total by exact H. apply (ii_sum _ H).
Qed.

End index_invariants.


(** * TF-IDF ranking: order of the results *)

Section float_order.

(** [<] on doubles is a strict partial order (a NaN compares with nothing). *)

Lemma SFltb_irrefl (a : spec_float) : SFltb a a = false.
Proof.
  unfold SFltb. destruct a as [s|s| |s m e]; simpl; try reflexivity.
  - destruct s; reflexivity.
  - destruct s; rewrite Z.compare_refl; fold (Pos.compare m m);
      rewrite Pos.compare_refl; reflexivity.
Qed.

Lemma SFltb_trans (a b c : spec_float) :
  SFltb a b = true -> SFltb b c = true -> SFltb a c = true.
Proof.
  unfold SFltb.
  destruct a as [sa|sa| |sa ma ea], b as [sb|sb| |sb mb eb],
    c as [sc|sc| |sc mc ec]; simpl;
    try discriminate; try reflexivity;
    try (destruct sa, sb; simpl; (discriminate || reflexivity || idtac));
    try (destruct sa, sc; simpl; (discriminate || reflexivity || idtac));
    try (destruct sb, sc; simpl; (discriminate || reflexivity || idtac));
    try (destruct sa; simpl; (discriminate || reflexivity || idtac));
    try (destruct sb; simpl; (discriminate || reflexivity || idtac));
    try (destruct sc; simpl; (discriminate || reflexivity || idtac)).
  all: fold (Pos.compare ma mb); fold (Pos.compare mb mc);
    fold (Pos.compare ma mc).
  all: destruct (Z.compare_spec ea eb), (Z.compare_spec eb ec),
         (Z.compare_spec ea ec);
    try discriminate; try reflexivity; try lia; subst.
  all: destruct (Pos.compare_spec ma mb), (Pos.compare_spec mb mc),
         (Pos.compare_spec ma mc);
    simpl; try discriminate; try reflexivity; try lia.
Qed.

Lemma ltb_irrefl (x : float) : (x <? x)%float = false.
Proof. rewrite FloatAxioms.ltb_spec. apply SFltb_irrefl. Qed.

Lemma ltb_trans (x y z : float) :
  (x <? y)%float = true -> (y <? z)%float = true -> (x <? z)%float = true.
Proof. rewrite !FloatAxioms.ltb_spec. apply SFltb_trans. Qed.

Lemma ltb_asym (x y : float) :
  (x <? y)%float = true -> (y <? x)%float = false.
Proof.
  intros H. destruct (y <? x)%float eqn:E; [|reflexivity].
  pose proof (ltb_trans x y x H E) as Hc. rewrite ltb_irrefl in Hc.
  discriminate.
Qed.

End float_order.

Section exchange_sort.

Import TTfIdf.

Lemma swap_length (i j : nat) (rs : list TSearchResult) :
  length (swap_if_greater i j rs) = length rs.
Proof.
  unfold swap_if_greater.
  destruct (rs !! i) as [ri|]; [|reflexivity].
  destruct (rs !! j) as [rj|]; [|reflexivity].
  destruct (Score ri <? Score rj)%float; [|reflexivity].
  rewrite !length_insert. reflexivity.
Qed.

Lemma swap_lookup (i j k : nat) (rs : list TSearchResult) (ri rj : TSearchResult) :
  i <> j -> rs !! i = Some ri -> rs !! j = Some rj ->
  <[j := ri]> (<[i := rj]> rs) !! k
  = if decide (k = j) then Some ri
    else if decide (k = i) then Some rj else rs !! k.
Proof.
  intros Hij Hi Hj.
  apply lookup_lt_Some in Hi as Hli. apply lookup_lt_Some in Hj as Hlj.
  destruct (decide (k = j)) as [->|Hkj].
  - rewrite list_lookup_insert_eq by (rewrite length_insert; exact Hlj).
    reflexivity.
  - rewrite list_lookup_insert_ne by congruence.
    destruct (decide (k = i)) as [->|Hki].
    + rewrite list_lookup_insert_eq by exact Hli. reflexivity.
    + rewrite list_lookup_insert_ne by congruence. reflexivity.
Qed.

Lemma swap_keeps_dominates (p i j : nat) (rs : list TSearchResult) :
  p < i -> i < j -> dominates rs p -> dominates (swap_if_greater i j rs) p.
Proof.
  intros Hpi Hij Hdom. unfold swap_if_greater.
  destruct (rs !! i) as [ri|] eqn:Ei; [|exact Hdom].
  destruct (rs !! j) as [rj|] eqn:Ej; [|exact Hdom].
  destruct (Score ri <? Score rj)%float; [|exact Hdom].
  intros k a b Hk Ha Hb.
  rewrite (swap_lookup i j p rs ri rj) in Ha by (lia || assumption).
  rewrite (swap_lookup i j k rs ri rj) in Hb by (lia || assumption).
  destruct (decide (p = j)); [lia|]. destruct (decide (p = i)); [lia|].
  destruct (decide (k = j)) as [->|?].
  - inversion Hb; subst. apply (Hdom i a b); [lia|assumption|assumption].
  - destruct (decide (k = i)) as [->|?].
    + inversion Hb; subst. apply (Hdom j a b); [lia|assumption|assumption].
    + apply (Hdom k a b); assumption.
Qed.

Lemma swap_extends_dominates (i j : nat) (rs : list TSearchResult) :
  i < j -> dominates_below rs i j ->
  dominates_below (swap_if_greater i j rs) i (S j).
Proof.
  intros Hij Hdom. unfold swap_if_greater.
  destruct (rs !! i) as [ri|] eqn:Ei.
  2:{ intros k a b _ Ha. rewrite Ei in Ha. discriminate. }
  destruct (rs !! j) as [rj|] eqn:Ej.
  2:{ intros k a b Hk Ha Hb. destruct (decide (k = j)) as [->|?].
      - rewrite Ej in Hb. discriminate.
      - apply (Hdom k a b); [lia|assumption|assumption]. }
  destruct (Score ri <? Score rj)%float eqn:Elt.
  - intros k a b Hk Ha Hb.
    rewrite (swap_lookup i j i rs ri rj) in Ha by (lia || assumption).
    rewrite (swap_lookup i j k rs ri rj) in Hb by (lia || assumption).
    destruct (decide (i = j)); [lia|].
    destruct (decide (i = i)); [|contradiction]. inversion Ha; subst a.
    destruct (decide (k = j)) as [->|?].
    + inversion Hb; subst b. apply ltb_asym, Elt.
    + destruct (decide (k = i)); [lia|].
      destruct (Score rj <? Score b)%float eqn:E; [|reflexivity].
      pose proof (ltb_trans _ _ _ Elt E) as Hc.
      rewrite (Hdom k ri b) in Hc; [discriminate|lia|assumption|assumption].
  - intros k a b Hk Ha Hb. destruct (decide (k = j)) as [->|?].
    + rewrite Ei in Ha. rewrite Ej in Hb. inversion Ha; inversion Hb; subst.
      exact Elt.
    + apply (Hdom k a b); [lia|assumption|assumption].
Qed.

Lemma inner_fold (i m : nat) (rs : list TSearchResult) :
  let rs' := fold_left (fun rs j => swap_if_greater i j rs) (seq (S i) m) rs in
  length rs' = length rs
  /\ dominates_below rs' i (S i + m)
  /\ (forall p, p < i -> dominates rs p -> dominates rs' p).
Proof.
  induction m as [|m IH]; cbv zeta in *.
  - simpl. split; [reflexivity|]. split; [|auto]. intros k a b Hk. lia.
  - rewrite seq_S, fold_left_app. cbn [fold_left].
    destruct IH as (IH1 & IH2 & IH3).
    set (rs1 := fold_left _ (seq (S i) m) rs) in *.
    split; [rewrite swap_length; exact IH1|]. split.
    + replace (S i + S m) with (S (S i + m)) by lia.
      apply swap_extends_dominates; [lia|exact IH2].
    + intros p Hp Hd. apply swap_keeps_dominates; [lia|lia|auto].
Qed.

Lemma SortResults_inner_spec (i : nat) (rs : list TSearchResult) :
  length (SortResults_inner i rs) = length rs
  /\ dominates (SortResults_inner i rs) i
  /\ (forall p, p < i -> dominates rs p -> dominates (SortResults_inner i rs) p).
Proof.
  unfold SortResults_inner.
  destruct (inner_fold i (length rs - S i) rs) as (H1 & H2 & H3).
  split; [exact H1|]. split; [|exact H3].
  intros k a b Hk Ha Hb. apply (H2 k a b); [|assumption|assumption].
  apply lookup_lt_Some in Hb. rewrite H1 in Hb. lia.
Qed.

Lemma outer_fold (n : nat) (rs : list TSearchResult) :
  let rs' := fold_left (fun rs i => SortResults_inner i rs) (seq 0 n) rs in
  length rs' = length rs /\ forall p, p < n -> dominates rs' p.
Proof.
  induction n as [|n IH]; cbv zeta in *.
  - simpl. split; [reflexivity|]. intros p Hp. lia.
  - rewrite seq_S, fold_left_app. cbn [fold_left]. rewrite Nat.add_0_l.
    destruct IH as (IH1 & IH2).
    set (rs1 := fold_left _ (seq 0 n) rs) in *.
    destruct (SortResults_inner_spec n rs1) as (H1 & H2 & H3).
    split; [rewrite H1; exact IH1|]. intros p Hp.
    destruct (decide (p = n)) as [->|Hne]; [exact H2|].
    apply H3; [lia|]. apply IH2. lia.
Qed.

Lemma SortResults_sorted (rs : list TSearchResult) :
  NonIncreasingScores (SortResults rs).
Proof.
  unfold SortResults. destruct (outer_fold (length rs) rs) as (H1 & H2).
  intros i j a b Hij Ha Hb. apply (H2 i) with (k := j); try assumption.
  apply lookup_lt_Some in Ha. rewrite H1 in Ha. exact Ha.
Qed.

Lemma SortResults_length (rs : list TSearchResult) :
  length (SortResults rs) = length rs.
Proof. apply (outer_fold (length rs) rs). Qed.

Lemma NonIncreasingScores_firstn (k : nat) (rs : list TSearchResult) :
  NonIncreasingScores rs -> NonIncreasingScores (firstn k rs).
Proof.
  intros H i j a b Hij Ha Hb.
  apply lookup_take_Some in Ha as [Ha _]. apply lookup_take_Some in Hb as [Hb _].
  apply (H i j a b); assumption.
Qed.

End exchange_sort.

(** C3, as stated, fails.  In [tie_index] documents 1 and 2 both consist of
    the single term "a"; the query "a" returns them with equal scores,
    document 2 first: the scores are not strictly descending, and the tie is
    in descending id order.  Nor are ties left in the order in which the
    candidate set is walked: the exchange sort moves results with equal
    scores past each other.  In [tie_index4] the set yields the documents
    as 0, 2, 1, 3; documents 0 and 1 have equal scores and come back as
    1, 0, after documents 2 and 3. *)
Lemma C3_equal_scores_in_descending_id_order :
  (exists r1 r2,
     TTfIdf.Search tie_index [lit "a"] 10 = [r1; r2]
     /\ TTfIdf.DocId r1 = 2 /\ TTfIdf.DocId r2 = 1
     /\ TTfIdf.Score r1 = TTfIdf.Score r2
     /\ (TTfIdf.Score r2 <? TTfIdf.Score r1)%float = false)
  /\ (exists r1 r2 r3 r4,
        TUnorderedSet.elements (TTfIdf.candidateDocs tie_index4 [lit "a"])
        = [0; 2; 1; 3]
        /\ TTfIdf.Search tie_index4 [lit "a"] 10 = [r1; r2; r3; r4]
        /\ map TTfIdf.DocId [r1; r2; r3; r4] = [2; 3; 1; 0]
        /\ TTfIdf.Score r1 = TTfIdf.Score r2
        /\ TTfIdf.Score r3 = TTfIdf.Score r4).
Proof.
  split.
  - eexists _, _. split; [vm_compute; reflexivity|].
    simpl. repeat split; reflexivity.
  - eexists _, _, _, _. split; [vm_compute; reflexivity|].
    split; [vm_compute; reflexivity|].
    simpl. repeat split; reflexivity.
Qed.

(** C3 (amended): for every index, query and cap, the results of [Search]
    are in non-increasing score order: no result is followed, at any
    distance, by one with a strictly larger score.  No order is promised
    among results with equal scores. *)
Theorem C3_search_scores_non_increasing (index : TInvertedIndex.t)
    (queryTerms : list TString) (topK : nat) :
  NonIncreasingScores (TTfIdf.Search index queryTerms topK).
Proof.
  unfold TTfIdf.Search.
  match goal with
  | |- context [TTfIdf.SortResults ?l] =>
      generalize l; intros rs
  end.
  destruct (topK <? length (TTfIdf.SortResults rs))%nat.
  - apply NonIncreasingScores_firstn, SortResults_sorted.
  - apply SortResults_sorted.
Qed.


(** * LZW: bit packing *)

Section packing.

Import TLzw.
Local Open Scope Z_scope.

Local Abbreviation o := default_options.

Lemma lor_disjoint (a b n : Z) :
  0 <= n -> 0 <= a < 2 ^ n -> Z.lor a (Z.shiftl b n) = a + b * 2 ^ n.
Proof.
  intros Hn Ha. rewrite <- Z.shiftl_mul_pow2 by exact Hn.
  assert (Hdisj : Z.land a (Z.shiftl b n) = 0).
  { apply Z.bits_inj'. intros i Hi. rewrite Z.land_spec, Z.bits_0.
    destruct (Z.lt_ge_cases i n) as [Hlt|Hge].
    - rewrite Z.shiftl_spec_low by exact Hlt. apply andb_false_r.
    - rewrite <- (Z.mod_small a (2 ^ n)) by exact Ha.
      rewrite Z.mod_pow2_bits_high by lia. reflexivity. }
  rewrite Z.add_nocarry_lxor by exact Hdisj.
  symmetry. apply Z.lxor_lor, Hdisj.
Qed.

Lemma land_255 (x : Z) : Z.land x 255 = x mod 256.
Proof. change 255 with (Z.ones 8). rewrite Z.land_ones by lia. reflexivity. Qed.

Lemma land_4095 (x : Z) : Z.land x 4095 = x mod 4096.
Proof. change 4095 with (Z.ones 12). rewrite Z.land_ones by lia. reflexivity. Qed.

Lemma code_mask_default : code_mask o = 4095.
Proof. reflexivity. Qed.

Lemma pack_flush_unfold (fuel : nat) (buffer bits : Z) (out : TBytes) :
  pack_flush (S fuel) buffer bits out
  = if 8 <=? bits
    then pack_flush fuel (Z.shiftr buffer 8) (bits - 8)
           (out ++ [Z.land buffer 255])
    else (buffer, bits, out).
Proof. reflexivity. Qed.

Lemma unpack_drain_unfold (fuel : nat) (buffer bits : Z) (codes : list Z) :
  unpack_drain o (S fuel) buffer bits codes
  = if 12 <=? bits
    then unpack_drain o fuel (Z.shiftr buffer 12) (bits - 12)
           (codes ++ [wrap16 (Z.land buffer (code_mask o))])
    else (buffer, bits, codes).
Proof. reflexivity. Qed.

(** A code packed from an empty buffer leaves its four high bits behind. *)
Lemma pack_step_even (c : Z) (out : TBytes) :
  code_in_range c ->
  pack_step o (0, 0, out) c = (c / 256, 4, out ++ [c mod 256]).
Proof.
  intros Hc. unfold code_in_range in Hc. unfold pack_step.
  rewrite code_mask_default, land_4095, (Z.mod_small c 4096) by lia.
  rewrite Z.shiftl_0_r. unfold wrap32. rewrite (Z.mod_small c) by lia.
  rewrite Z.lor_0_l. cbn [CodeBits o default_options].
  change (Z.to_nat ((0 + 12) mod 2 ^ 32)) with 12%nat.
  change ((0 + 12) mod 2 ^ 32) with 12.
  rewrite pack_flush_unfold. change (8 <=? 12) with true. cbv iota.
  change (12 - 8) with 4. rewrite pack_flush_unfold.
  change (8 <=? 4) with false. cbv iota.
  rewrite land_255, Z.shiftr_div_pow2 by lia. reflexivity.
Qed.

(** The next code completes that byte and fills one more. *)
Lemma pack_step_odd (r c : Z) (out : TBytes) :
  0 <= r < 16 -> code_in_range c ->
  pack_step o (r, 4, out) c
  = (0, 0, (out ++ [(r + 16 * c) mod 256]) ++ [(r + 16 * c) / 256]).
Proof.
  intros Hr Hc. unfold code_in_range in Hc. unfold pack_step.
  rewrite code_mask_default, land_4095, (Z.mod_small c 4096) by lia.
  rewrite Z.shiftl_mul_pow2 by lia. unfold wrap32.
  rewrite (Z.mod_small (c * 2 ^ 4)) by lia.
  rewrite <- (Z.shiftl_mul_pow2 c 4) by lia.
  rewrite lor_disjoint by lia.
  cbn [CodeBits o default_options].
  change (Z.to_nat ((4 + 12) mod 2 ^ 32)) with 16%nat.
  change ((4 + 12) mod 2 ^ 32) with 16.
  rewrite pack_flush_unfold. change (8 <=? 16) with true. cbv iota.
  change (16 - 8) with 8. rewrite pack_flush_unfold.
  change (8 <=? 8) with true. cbv iota. change (8 - 8) with 0.
  rewrite pack_flush_unfold. change (8 <=? 0) with false. cbv iota.
  rewrite !land_255, !Z.shiftr_div_pow2 by lia.
  replace (r + c * 2 ^ 4) with (r + 16 * c) by lia.
  assert (H1 : (r + 16 * c) / 2 ^ 8 / 2 ^ 8 = 0).
  { rewrite Z.div_div by lia. apply Z.div_small. lia. }
  assert (H2 : ((r + 16 * c) / 2 ^ 8) mod 256 = (r + 16 * c) / 256).
  { apply Z.mod_small. change (2 ^ 8) with 256.
    split; [apply Z.div_pos; lia|]. apply Z.div_lt_upper_bound; lia. }
  rewrite H1, H2. reflexivity.
Qed.

Lemma unpack_step_0 (b : Z) (codes : list Z) :
  0 <= b < 256 -> unpack_step o (0, 0, codes) b = (b, 8, codes).
Proof.
  intros Hb. unfold unpack_step. rewrite (Z.mod_small b 256) by lia.
  rewrite Z.shiftl_0_r. unfold wrap32. rewrite (Z.mod_small b) by lia.
  rewrite Z.lor_0_l.
  change (Z.to_nat ((0 + 8) mod 2 ^ 32)) with 8%nat.
  change ((0 + 8) mod 2 ^ 32) with 8.
  rewrite unpack_drain_unfold. reflexivity.
Qed.

Lemma unpack_step_8 (a b : Z) (codes : list Z) :
  0 <= a < 256 -> 0 <= b < 256 ->
  unpack_step o (a, 8, codes) b
  = ((a + 256 * b) / 4096, 4, codes ++ [(a + 256 * b) mod 4096]).
Proof.
  intros Ha Hb. unfold unpack_step. rewrite (Z.mod_small b 256) by lia.
  rewrite Z.shiftl_mul_pow2 by lia. unfold wrap32.
  rewrite (Z.mod_small (b * 2 ^ 8)) by lia.
  rewrite <- (Z.shiftl_mul_pow2 b 8) by lia.
  rewrite lor_disjoint by lia.
  change (Z.to_nat ((8 + 8) mod 2 ^ 32)) with 16%nat.
  change ((8 + 8) mod 2 ^ 32) with 16.
  rewrite unpack_drain_unfold. change (12 <=? 16) with true. cbv iota.
  change (16 - 12) with 4. rewrite unpack_drain_unfold.
  change (12 <=? 4) with false. cbv iota.
  rewrite code_mask_default, land_4095, Z.shiftr_div_pow2 by lia.
  replace (a + b * 2 ^ 8) with (a + 256 * b) by lia.
  unfold wrap16. rewrite (Z.mod_small (_ mod 4096)).
  - reflexivity.
  - pose proof (Z.mod_pos_bound (a + 256 * b) 4096 ltac:(lia)). lia.
Qed.

Lemma unpack_step_4 (r b : Z) (codes : list Z) :
  0 <= r < 16 -> 0 <= b < 256 ->
  unpack_step o (r, 4, codes) b = (0, 0, codes ++ [r + 16 * b]).
Proof.
  intros Hr Hb. unfold unpack_step. rewrite (Z.mod_small b 256) by lia.
  rewrite Z.shiftl_mul_pow2 by lia. unfold wrap32.
  rewrite (Z.mod_small (b * 2 ^ 4)) by lia.
  rewrite <- (Z.shiftl_mul_pow2 b 4) by lia.
  rewrite lor_disjoint by lia.
  change (Z.to_nat ((4 + 8) mod 2 ^ 32)) with 12%nat.
  change ((4 + 8) mod 2 ^ 32) with 12.
  rewrite unpack_drain_unfold. change (12 <=? 12) with true. cbv iota.
  change (12 - 12) with 0. rewrite unpack_drain_unfold.
  change (12 <=? 0) with false. cbv iota.
  rewrite code_mask_default, land_4095, Z.shiftr_div_pow2 by lia.
  replace (r + b * 2 ^ 4) with (r + 16 * b) by lia.
  rewrite (Z.mod_small (r + 16 * b) 4096) by lia.
  unfold wrap16. rewrite (Z.mod_small (r + 16 * b)) by lia.
  rewrite Z.div_small by lia. reflexivity.
Qed.

Lemma unpack_all_snoc (out : TBytes) (b : Z) :
  unpack_all (out ++ [b]) = unpack_step o (unpack_all out) b.
Proof. unfold unpack_all. rewrite fold_left_app. reflexivity. Qed.

Lemma pack_sync_step (cs : list Z) (st : Z * Z * TBytes) (c : Z) :
  code_in_range c -> pack_sync cs st ->
  pack_sync (cs ++ [c]) (pack_step o st c).
Proof.
  intros Hc [out Hu|out cs' c0 -> Hc0 Hu].
  - rewrite pack_step_even by exact Hc.
    apply (sync_odd _ _ cs c); [reflexivity|exact Hc|].
    rewrite unpack_all_snoc, Hu. apply unpack_step_0.
    apply Z.mod_pos_bound. lia.
  - unfold code_in_range in Hc, Hc0.
    assert (Hr : 0 <= c0 / 256 < 16).
    { split; [apply Z.div_pos; lia|apply Z.div_lt_upper_bound; lia]. }
    rewrite pack_step_odd by assumption.
    apply sync_even. rewrite !unpack_all_snoc, Hu.
    assert (Hb1 : 0 <= (c0 / 256 + 16 * c) mod 256 < 256)
      by (apply Z.mod_pos_bound; lia).
    assert (Hb2 : 0 <= (c0 / 256 + 16 * c) / 256 < 256).
    { split; [apply Z.div_pos; lia|apply Z.div_lt_upper_bound; lia]. }
    rewrite unpack_step_8 by (assumption || (apply Z.mod_pos_bound; lia)).
    assert (E1 : (c0 mod 256 + 256 * ((c0 / 256 + 16 * c) mod 256)) mod 4096
                 = c0).
    { Z.div_mod_to_equations. lia. }
    assert (E2 : (c0 mod 256 + 256 * ((c0 / 256 + 16 * c) mod 256)) / 4096
                 = c mod 16).
    { Z.div_mod_to_equations. lia. }
    rewrite E1, E2.
    rewrite unpack_step_4 by (assumption || (apply Z.mod_pos_bound; lia)).
    assert (E3 : c mod 16 + 16 * ((c0 / 256 + 16 * c) / 256) = c).
    { Z.div_mod_to_equations. lia. }
    rewrite E3. reflexivity.
Qed.

Lemma pack_sync_fold (codes : list Z) :
  forall cs st,
    Forall code_in_range codes -> pack_sync cs st ->
    pack_sync (cs ++ codes) (fold_left (pack_step o) codes st).
Proof.
  induction codes as [|c codes IH]; intros cs st Hall Hs; simpl.
  - rewrite app_nil_r. exact Hs.
  - inversion Hall; subst.
    replace (cs ++ c :: codes) with ((cs ++ [c]) ++ codes)
      by (rewrite <- app_assoc; reflexivity).
    apply IH; [assumption|]. apply pack_sync_step; assumption.
Qed.

(** Unpacking what [PackCodes] wrote gives back the codes. *)
Lemma UnpackCodes_PackCodes (codes : list Z) :
  Forall code_in_range codes -> UnpackCodes o (PackCodes o codes) = codes.
Proof.
  intros Hall.
  assert (H0 : pack_sync [] (0, 0, [])) by (apply sync_even; reflexivity).
  pose proof (pack_sync_fold codes [] _ Hall H0) as Hs. simpl in Hs.
  unfold PackCodes, UnpackCodes.
  destruct Hs as [out Hu|out cs' c E Hc Hu].
  - change (0 <? 0) with false. cbv iota. fold (unpack_all out).
    rewrite Hu. reflexivity.
  - change (0 <? 4) with true. cbv iota.
    fold (unpack_all (out ++ [Z.land (c / 256) 255])).
    unfold code_in_range in Hc.
    assert (Hr : 0 <= c / 256 < 16).
    { split; [apply Z.div_pos; lia|apply Z.div_lt_upper_bound; lia]. }
    rewrite unpack_all_snoc, Hu, land_255, (Z.mod_small (c / 256)) by lia.
    rewrite unpack_step_8 by (lia || (apply Z.mod_pos_bound; lia)).
    assert (E1 : (c mod 256 + 256 * (c / 256)) mod 4096 = c).
    { Z.div_mod_to_equations. lia. }
    rewrite E1, E. reflexivity.
Qed.

End packing.


(** * LZW: the dictionary coder *)

Section coder.

Import TLzw.
Local Open Scope Z_scope.

Local Abbreviation o := default_options.

Lemma dict_of_extend (dict : gmap TString Z) (D : list TString) (s : TString) :
  dict_of dict D -> dict !! s = None ->
  dict_of (<[s := Z.of_nat (length D)]> dict) (D ++ [s]).
Proof.
  intros Hrel Hnone s' k. destruct (decide (s = s')) as [<-|Hne].
  - rewrite lookup_insert_eq. split.
    + intros [= <-]. split; [lia|]. rewrite Nat2Z.id.
      rewrite lookup_app_r by lia. rewrite Nat.sub_diag. reflexivity.
    + intros [Hk Hl].
      destruct (decide (Z.to_nat k < length D)%nat) as [Hlt|Hge].
      * rewrite lookup_app_l in Hl by exact Hlt.
        assert (dict !! s = Some k) by (apply Hrel; auto). congruence.
      * apply lookup_lt_Some in Hl as Hlen. rewrite length_app in Hlen.
        simpl in Hlen. f_equal. lia.
  - rewrite lookup_insert_ne by exact Hne. rewrite (Hrel s' k).
    split; intros [Hk Hl]; (split; [exact Hk|]).
    + apply lookup_app_l_Some, Hl.
    + destruct (decide (Z.to_nat k < length D)%nat) as [Hlt|Hge].
      * rewrite lookup_app_l in Hl by exact Hlt. exact Hl.
      * rewrite lookup_app_r in Hl by lia.
        destruct (Z.to_nat k - length D)%nat; simpl in Hl; [congruence|].
        discriminate.
Qed.

(** ** The initial table *)

Lemma single_inj (i j : nat) :
  (i < 256)%nat -> (j < 256)%nat -> single i = single j -> i = j.
Proof.
  unfold single. intros Hi Hj [= H].
  rewrite <- (nat_ascii_embedding i), <- (nat_ascii_embedding j) by lia.
  rewrite H. reflexivity.
Qed.

Lemma initial_prefix (n : nat) :
  (n <= 256)%nat ->
  dict_of
    (fold_left (fun dict i => <[single i := wrap16 (Z.of_nat i)]> dict)
       (seq 0 n) ∅)
    (map single (seq 0 n)).
Proof.
  induction n as [|n IH]; intros Hn.
  - intros s k. simpl. rewrite lookup_empty. split; [discriminate|].
    intros [_ H]. destruct (Z.to_nat k); discriminate.
  - rewrite seq_S, fold_left_app, map_app. simpl.
    unfold wrap16. rewrite Z.mod_small by lia.
    replace (Z.of_nat n) with (Z.of_nat (length (map single (seq 0 n))))
      by (rewrite length_map, length_seq; reflexivity).
    apply dict_of_extend; [apply IH; lia|].
    destruct (fold_left _ (seq 0 n) ∅ !! single n) as [k|] eqn:E;
      [|reflexivity].
    apply (IH ltac:(lia)) in E as [Hk Hl].
    apply list_lookup_fmap_Some in Hl as (j & Hs & Hj).
    apply lookup_seq in Hj as [-> Hj].
    apply single_inj in Hs; lia.
Qed.

Lemma initial_dict_of : dict_of initial_dict initial_table.
Proof. apply (initial_prefix 256). lia. Qed.

Lemma initial_table_length : length initial_table = 256%nat.
Proof. reflexivity. Qed.

Lemma initial_table_lookup (i : nat) :
  (i < 256)%nat -> initial_table !! i = Some (single i).
Proof.
  intros Hi. unfold initial_table. rewrite list_lookup_fmap.
  rewrite lookup_seq_lt by exact Hi. reflexivity.
Qed.

Lemma initial_table_char (c : ascii) :
  initial_table !! nat_of_ascii c = Some [c].
Proof.
  rewrite initial_table_lookup by apply nat_of_ascii_lt_256.
  unfold single. rewrite ascii_nat_embedding. reflexivity.
Qed.

(** ** The encoder, seen from a point of its input *)

Lemma CompressCodes_finish (input : TString) :
  CompressCodes o input = tail_codes input initial_dict 256 [].
Proof. reflexivity. Qed.

Lemma Compress_step_prefix (pre cs : list Z) (dict : gmap TString Z) (n : Z)
    (w : TString) (c : ascii) :
  Compress_step o (MkEncoder dict n w (pre ++ cs)) c
  = let st := Compress_step o (MkEncoder dict n w cs) c in
    MkEncoder (enc_dict st) (enc_nextCode st) (enc_w st) (pre ++ enc_codes st).
Proof.
  unfold Compress_step. cbn [enc_w enc_dict enc_nextCode enc_codes].
  destruct w as [|c0 w]; [reflexivity|].
  repeat match goal with
         | |- context [match ?t with Some _ => _ | None => _ end] =>
             destruct t
         end;
    try reflexivity;
    destruct (n <? EndCode o); cbn; rewrite ?app_assoc; reflexivity.
Qed.

Lemma finish_prefix (input : TString) :
  forall dict n w pre cs,
    finish (fold_left (Compress_step o) input (MkEncoder dict n w (pre ++ cs)))
    = pre
      ++ finish (fold_left (Compress_step o) input (MkEncoder dict n w cs)).
Proof.
  induction input as [|c input IH]; intros dict n w pre cs.
  - unfold finish. cbn [fold_left enc_w enc_dict enc_codes].
    destruct w as [|c0 w]; [rewrite app_assoc; reflexivity|].
    destruct (dict !! (c0 :: w)); rewrite <- ?app_assoc; reflexivity.
  - cbn [fold_left]. rewrite Compress_step_prefix.
    destruct (Compress_step o (MkEncoder dict n w cs) c) as [d' n' w' cs'].
    cbn. apply IH.
Qed.

Lemma tail_codes_nil (dict : gmap TString Z) (n k : Z) (w : TString) :
  w <> [] -> dict !! w = Some k -> tail_codes [] dict n w = [k; 4095].
Proof.
  intros Hw Hk. unfold tail_codes, finish. cbn [fold_left enc_w enc_dict
    enc_codes]. destruct w as [|c0 w]; [contradiction|]. rewrite Hk.
  reflexivity.
Qed.

Lemma tail_codes_extend (input : TString) (dict : gmap TString Z) (n k : Z)
    (w : TString) (c : ascii) :
  w <> [] -> dict !! (w ++ [c]) = Some k ->
  tail_codes (c :: input) dict n w = tail_codes input dict n (w ++ [c]).
Proof.
  intros Hw Hk. unfold tail_codes. cbn [fold_left]. unfold Compress_step at 2.
  cbn [enc_w enc_dict enc_nextCode enc_codes].
  destruct w as [|c0 w]; [contradiction|]. rewrite Hk. reflexivity.
Qed.

Lemma tail_codes_emit (input : TString) (dict : gmap TString Z) (n k : Z)
    (w : TString) (c : ascii) :
  w <> [] -> dict !! (w ++ [c]) = None -> dict !! w = Some k ->
  tail_codes (c :: input) dict n w
  = k :: (if n <? 4095
          then tail_codes input (<[w ++ [c] := n]> dict) (wrap16 (n + 1)) [c]
          else tail_codes input dict n [c]).
Proof.
  intros Hw Hnone Hk. unfold tail_codes. cbn [fold_left].
  unfold Compress_step at 2. cbn [enc_w enc_dict enc_nextCode enc_codes].
  destruct w as [|c0 w]; [contradiction|]. rewrite Hnone, Hk.
  change (EndCode o) with 4095.
  destruct (n <? 4095); apply (finish_prefix input _ _ _ [k] []).
Qed.

(** ** Encoder and decoder in step *)

Lemma length_eqb_0 (s : TString) : s <> [] -> (length s =? 0)%nat = false.
Proof. destruct s; [contradiction|reflexivity]. Qed.

Lemma char_at_app_0 (a b : TString) : a <> [] -> char_at (a ++ b) 0 = char_at a 0.
Proof. destruct a; [contradiction|reflexivity]. Qed.

Lemma decode_current (dict : gmap TString Z) (n k : Z) (D Dd : list TString)
    (wd w : TString) :
  enc_inv dict n D -> dec_rel D Dd wd w -> dict !! w = Some k ->
  k <> 4095 /\ code_in_range k /\ decode_entry Dd wd k = Some w.
Proof.
  intros [Hrel Hn Hlen Hch] [Hwd Hgrow Hfull] Hk.
  apply Hrel in Hk as [Hk0 Hl]. apply lookup_lt_Some in Hl as Hlt.
  unfold code_in_range, decode_entry.
  split; [lia|]. split; [lia|].
  destruct (decide (length Dd < 4095)%nat) as [Hd|Hd].
  - specialize (Hgrow Hd). rewrite Hgrow in Hl, Hlt.
    rewrite length_app in Hlt. simpl in Hlt.
    destruct (decide (Z.to_nat k < length Dd)%nat) as [Hin|Hout].
    + rewrite lookup_app_l in Hl by exact Hin.
      destruct (k <? Z.of_nat (length Dd)) eqn:E; [|apply Z.ltb_ge in E; lia].
      f_equal. apply nth_lookup_Some with (d := []) in Hl. exact Hl.
    + rewrite lookup_app_r in Hl by lia.
      replace (Z.to_nat k - length Dd)%nat with 0%nat in Hl by lia.
      simpl in Hl. injection Hl as Hw.
      destruct (k <? Z.of_nat (length Dd)) eqn:E; [apply Z.ltb_lt in E; lia|].
      destruct (k =? Z.of_nat (length Dd)) eqn:E2; [|apply Z.eqb_neq in E2; lia].
      rewrite length_eqb_0 by exact Hwd. simpl. f_equal.
      assert (Hc : char_at w 0 = char_at wd 0)
        by (rewrite <- Hw; apply char_at_app_0, Hwd).
      rewrite <- Hc. exact Hw.
  - rewrite <- (Hfull ltac:(lia)).
    destruct (k <? Z.of_nat (length D)) eqn:E; [|apply Z.ltb_ge in E; lia].
    f_equal. apply nth_lookup_Some with (d := []) in Hl. exact Hl.
Qed.

(** One round of the decoder's loop on a code that decodes to [w]. *)
Lemma Decompress_loop_step (k : Z) (codes : list Z) (Dd : list TString)
    (wd w outd : TString) :
  k <> 4095 -> decode_entry Dd wd k = Some w -> wd <> [] -> w <> [] ->
  (length Dd <= 4095)%nat ->
  Decompress_loop o (k :: codes) Dd (Z.of_nat (length Dd)) wd outd
  = let Dd' :=
      if (length Dd <? 4095)%nat then Dd ++ [wd ++ [char_at w 0]] else Dd in
    Decompress_loop o codes Dd' (Z.of_nat (length Dd')) w (outd ++ w).
Proof.
  intros Hk He Hwd Hw Hlen. cbn [Decompress_loop].
  change (EndCode o) with 4095.
  destruct (k =? 4095) eqn:E; [apply Z.eqb_eq in E; contradiction|].
  unfold decode_entry in He. rewrite He.
  rewrite (length_eqb_0 wd Hwd), (length_eqb_0 w Hw). cbn [negb andb].
  rewrite andb_true_r.
  destruct (length Dd <? 4095)%nat eqn:E2.
  - apply Nat.ltb_lt in E2.
    destruct (Z.of_nat (length Dd) <? 4095) eqn:E3;
      [|apply Z.ltb_ge in E3; lia].
    cbv zeta. rewrite length_app. simpl length.
    unfold wrap16. rewrite Z.mod_small by lia.
    replace (Z.of_nat (length Dd) + 1) with (Z.of_nat (length Dd + 1)) by lia.
    reflexivity.
  - apply Nat.ltb_ge in E2.
    destruct (Z.of_nat (length Dd) <? 4095) eqn:E3;
      [apply Z.ltb_lt in E3; lia|].
    reflexivity.
Qed.

Lemma enc_inv_extend (dict : gmap TString Z) (n : Z) (D : list TString)
    (s : TString) :
  enc_inv dict n D -> dict !! s = None -> n < 4095 ->
  enc_inv (<[s := n]> dict) (wrap16 (n + 1)) (D ++ [s]).
Proof.
  intros [Hrel Hn Hlen Hch] Hnone Hlt. subst n. constructor.
  - apply dict_of_extend; assumption.
  - rewrite length_app. simpl. unfold wrap16. rewrite Z.mod_small by lia. lia.
  - rewrite length_app. simpl. lia.
  - intros c. apply lookup_app_l_Some, Hch.
Qed.

Lemma enc_inv_char (dict : gmap TString Z) (n : Z) (D : list TString)
    (c : ascii) :
  enc_inv dict n D -> exists k, dict !! [c] = Some k.
Proof.
  intros [Hrel _ _ Hch]. exists (Z.of_nat (nat_of_ascii c)).
  apply Hrel. split; [lia|]. rewrite Nat2Z.id. apply Hch.
Qed.

Lemma in_step (input : TString) :
  forall dict n w D Dd wd outd,
    w <> [] -> enc_inv dict n D -> is_Some (dict !! w) -> dec_rel D Dd wd w ->
    Forall code_in_range (tail_codes input dict n w)
    /\ Decompress_loop o (tail_codes input dict n w) Dd
         (Z.of_nat (length Dd)) wd outd
       = outd ++ w ++ input.
Proof.
  induction input as [|c input IH];
    intros dict n w D Dd wd outd Hw Hinv [k Hk] Hrel.
  - destruct (decode_current dict n k D Dd wd w Hinv Hrel Hk)
      as (Hk1 & Hk2 & Hk3).
    rewrite (tail_codes_nil dict n k w Hw Hk). split.
    + repeat constructor; unfold code_in_range in *; lia.
    + assert (Hlen : (length Dd <= 4095)%nat).
      { destruct Hinv as [_ _ Hl _], Hrel as [_ Hg Hf].
        destruct (decide (length Dd < 4095)%nat); [lia|].
        rewrite <- (Hf ltac:(lia)). lia. }
      rewrite (Decompress_loop_step k [4095] Dd wd w outd Hk1 Hk3
                 (dr_w _ _ _ _ Hrel) Hw Hlen).
      cbv zeta. cbn [Decompress_loop]. change (4095 =? EndCode o) with true.
      cbv iota. rewrite app_nil_r. reflexivity.
  - destruct (dict !! (w ++ [c])) as [k'|] eqn:Ewc.
    + rewrite (tail_codes_extend input dict n k' w c Hw Ewc).
      destruct (IH dict n (w ++ [c]) D Dd wd outd) as [IH1 IH2].
      * destruct w; discriminate.
      * exact Hinv.
      * eauto.
      * destruct Hrel as [H1 H2 H3]. constructor; [exact H1| |exact H3].
        rewrite char_at_app_0 by exact Hw. exact H2.
      * split; [exact IH1|]. rewrite IH2, <- app_assoc. reflexivity.
    + destruct (decode_current dict n k D Dd wd w Hinv Hrel Hk)
        as (Hk1 & Hk2 & Hk3).
      rewrite (tail_codes_emit input dict n k w c Hw Ewc Hk).
      assert (Hlen : (length Dd <= 4095)%nat).
      { destruct Hinv as [_ _ Hl _], Hrel as [_ Hg Hf].
        destruct (decide (length Dd < 4095)%nat); [lia|].
        rewrite <- (Hf ltac:(lia)). lia. }
      assert (HDd : (if (length Dd <? 4095)%nat
                     then Dd ++ [wd ++ [char_at w 0]] else Dd) = D).
      { destruct Hrel as [_ Hg Hf].
        destruct (length Dd <? 4095)%nat eqn:E.
        - apply Nat.ltb_lt in E. symmetry. apply Hg, E.
        - apply Nat.ltb_ge in E. symmetry. apply Hf, E. }
      rewrite (Decompress_loop_step k _ Dd wd w outd Hk1 Hk3
                 (dr_w _ _ _ _ Hrel) Hw Hlen).
      cbv zeta. rewrite HDd.
      pose proof (ei_next _ _ _ Hinv) as Hn.
      destruct (n <? 4095) eqn:En.
      * apply Z.ltb_lt in En.
        pose proof (enc_inv_extend dict n D (w ++ [c]) Hinv Ewc En) as Hinv'.
        destruct (IH (<[w ++ [c] := n]> dict) (wrap16 (n + 1)) [c]
                    (D ++ [w ++ [c]]) D w (outd ++ w)) as [IH1 IH2].
        -- discriminate.
        -- exact Hinv'.
        -- apply (enc_inv_char _ _ _ c Hinv').
        -- constructor; [exact Hw| |lia]. intros _. reflexivity.
        -- split; [constructor; assumption|].
           rewrite IH2, <- !app_assoc. reflexivity.
      * apply Z.ltb_ge in En.
        destruct (IH dict n [c] D D w (outd ++ w)) as [IH1 IH2].
        -- discriminate.
        -- exact Hinv.
        -- apply (enc_inv_char _ _ _ c Hinv).
        -- constructor; [exact Hw|lia|reflexivity].
        -- split; [constructor; assumption|].
           rewrite IH2, <- !app_assoc. reflexivity.
Qed.

Lemma enc_inv_initial : enc_inv initial_dict 256 initial_table.
Proof.
  constructor.
  - apply initial_dict_of.
  - reflexivity.
  - rewrite initial_table_length. lia.
  - apply initial_table_char.
Qed.

Lemma initial_dict_pair (a b : ascii) : initial_dict !! [a; b] = None.
Proof.
  destruct (initial_dict !! [a; b]) as [k|] eqn:E; [|reflexivity].
  apply initial_dict_of in E as [Hk Hl].
  apply lookup_lt_Some in Hl as Hlt. rewrite initial_table_length in Hlt.
  rewrite initial_table_lookup in Hl by exact Hlt. discriminate.
Qed.

Lemma initial_dict_char (c : ascii) :
  initial_dict !! [c] = Some (Z.of_nat (nat_of_ascii c)).
Proof.
  apply initial_dict_of. split; [lia|]. rewrite Nat2Z.id.
  apply initial_table_char.
Qed.

Lemma DecompressCodes_first (c : ascii) (codes : list Z) :
  DecompressCodes o (Z.of_nat (nat_of_ascii c) :: codes)
  = Decompress_loop o codes initial_table 256 [c] [c].
Proof.
  pose proof (nat_of_ascii_lt_256 c) as Hc.
  unfold DecompressCodes. change (EndCode o) with 4095.
  change (FirstFreeCode o) with 256. rewrite initial_table_length.
  destruct (Z.of_nat (nat_of_ascii c) =? 4095) eqn:E;
    [apply Z.eqb_eq in E; lia|].
  destruct (Z.of_nat 256 <=? Z.of_nat (nat_of_ascii c)) eqn:E2;
    [apply Z.leb_le in E2; lia|].
  rewrite Nat2Z.id.
  rewrite (nth_lookup_Some _ _ [] _ (initial_table_char c)). reflexivity.
Qed.

(** The decoder recovers the input from the encoder's codes, all of which
    fit in twelve bits. *)
Lemma DecompressCodes_CompressCodes (x : TString) :
  Forall code_in_range (CompressCodes o x)
  /\ DecompressCodes o (CompressCodes o x) = x.
Proof.
  rewrite CompressCodes_finish. destruct x as [|c0 rest].
  - split; [|reflexivity]. repeat constructor; unfold code_in_range; cbn; lia.
  - assert (E0 : tail_codes (c0 :: rest) initial_dict 256 []
                 = tail_codes rest initial_dict 256 [c0]) by reflexivity.
    rewrite E0. clear E0.
    pose proof (nat_of_ascii_lt_256 c0) as Hc0.
    destruct rest as [|c1 rest].
    + rewrite (tail_codes_nil initial_dict 256 _ [c0] ltac:(discriminate)
                 (initial_dict_char c0)).
      split; [repeat constructor; unfold code_in_range; lia|].
      rewrite DecompressCodes_first. reflexivity.
    + rewrite (tail_codes_emit rest initial_dict 256 _ [c0] c1
                 ltac:(discriminate) (initial_dict_pair c0 c1)
                 (initial_dict_char c0)).
      change (256 <? 4095) with true. cbv iota.
      pose proof (enc_inv_extend initial_dict 256 initial_table [c0; c1]
                    enc_inv_initial (initial_dict_pair c0 c1) ltac:(lia))
        as Hinv.
      destruct (in_step rest _ _ [c1] _ initial_table [c0] [c0]
                  ltac:(discriminate) Hinv (enc_inv_char _ _ _ c1 Hinv))
        as [H1 H2].
      { constructor; [discriminate| |rewrite initial_table_length; lia].
        intros _. reflexivity. }
      split; [constructor; [unfold code_in_range; lia|exact H1]|].
      rewrite DecompressCodes_first. exact H2.
Qed.

Lemma Decompress_Compress (x : TString) :
  Decompress default_options (Compress default_options x) = x.
Proof.
  unfold Decompress, Compress.
  destruct (DecompressCodes_CompressCodes x) as [Hrange Hdec].
  rewrite UnpackCodes_PackCodes by exact Hrange. exact Hdec.
Qed.

(** C1: decompressing what [Compress] produced gives back the input, for
    every byte string, with the default options (12-bit codes, END = 4095,
    first free code 256). *)
Theorem C1_decompress_compress (x : TString) :
  Decompress default_options (Compress default_options x) = x.
Proof. apply Decompress_Compress. Qed.

(** ** Malformed code streams *)

Lemma Decompress_loop_malformed (codes : list Z) :
  forall (i : nat) (k : Z) (Dd : list TString) (wd outd : TString),
    Forall (fun s => s <> []) Dd -> wd <> [] ->
    (256 <= length Dd <= 4095)%nat ->
    codes !! i = Some k -> k <> 4095 ->
    Z.of_nat (length Dd) + Z.of_nat i < k ->
    (forall j kj, (j < i)%nat -> codes !! j = Some kj ->
                  0 <= kj <= Z.of_nat (length Dd) + Z.of_nat j /\ kj < 4095) ->
    Decompress_loop o codes Dd (Z.of_nat (length Dd)) wd outd = [].
Proof.
  induction codes as [|k0 codes IH];
    intros i k Dd wd outd Hne Hwd Hlen Hi Hk Hbig Hpre.
  - destruct i; discriminate.
  - destruct i as [|i].
    + injection Hi as ->. cbn [Decompress_loop]. change (EndCode o) with 4095.
      destruct (k =? 4095) eqn:E; [apply Z.eqb_eq in E; contradiction|].
      destruct (k <? Z.of_nat (length Dd)) eqn:E1;
        [apply Z.ltb_lt in E1; lia|].
      destruct (k =? Z.of_nat (length Dd)) eqn:E2;
        [apply Z.eqb_eq in E2; lia|].
      reflexivity.
    + destruct (Hpre 0%nat k0 ltac:(lia) eq_refl) as [Hk0 Hk0'].
      assert (He : exists e, decode_entry Dd wd k0 = Some e /\ e <> []).
      { unfold decode_entry.
        destruct (k0 <? Z.of_nat (length Dd)) eqn:E1.
        - apply Z.ltb_lt in E1. eexists. split; [reflexivity|].
          rewrite Forall_forall in Hne. apply Hne.
          apply list_elem_of_In, nth_In. lia.
        - apply Z.ltb_ge in E1.
          destruct (k0 =? Z.of_nat (length Dd)) eqn:E2;
            [|apply Z.eqb_neq in E2; lia].
          rewrite length_eqb_0 by exact Hwd. eexists. split; [reflexivity|].
          destruct wd; discriminate. }
      destruct He as (e & He & Hene).
      rewrite (Decompress_loop_step k0 codes Dd wd e outd ltac:(lia) He Hwd
                 Hene ltac:(lia)).
      cbv zeta.
      destruct (length Dd <? 4095)%nat eqn:E.
      * apply Nat.ltb_lt in E.
        apply (IH i k); try assumption.
        -- apply Forall_app. split; [exact Hne|].
           constructor; [destruct wd; discriminate|constructor].
        -- rewrite length_app. simpl. lia.
        -- rewrite length_app. simpl. lia.
        -- intros j kj Hj Hkj. rewrite length_app. simpl.
           destruct (Hpre (S j) kj ltac:(lia) Hkj). lia.
      * apply Nat.ltb_ge in E.
        apply (IH i k); try assumption.
        -- lia.
        -- intros j kj Hj Hkj.
           destruct (Hpre (S j) kj ltac:(lia) Hkj). lia.
Qed.

Lemma initial_table_nonempty : Forall (fun s => s <> []) initial_table.
Proof.
  apply Forall_forall. intros s Hs.
  apply list_elem_of_fmap in Hs as (i & -> & _). discriminate.
Qed.

Lemma DecompressCodes_malformed (codes : list Z) (i : nat) (k : Z) :
  malformed_at codes i k -> DecompressCodes o codes = [].
Proof.
  intros (Hi & Hk & Hbig & Hpre). destruct codes as [|k0 codes].
  - destruct i; discriminate.
  - unfold DecompressCodes. change (EndCode o) with 4095.
    change (FirstFreeCode o) with 256. rewrite initial_table_length.
    destruct (k0 =? 4095) eqn:E; [reflexivity|]. apply Z.eqb_neq in E.
    destruct (Z.of_nat 256 <=? k0) eqn:E1; [reflexivity|].
    apply Z.leb_gt in E1. destruct i as [|i].
    + injection Hi as ->. lia.
    + destruct (Hpre 0%nat k0 ltac:(lia) eq_refl) as [Hk0 _].
      change 256 with (Z.of_nat (length initial_table)) at 1.
      apply (Decompress_loop_malformed codes i k).
      * apply initial_table_nonempty.
      * pose proof (initial_table_lookup (Z.to_nat k0) ltac:(lia)) as Hl.
        rewrite (nth_lookup_Some _ _ [] _ Hl). discriminate.
      * rewrite initial_table_length. lia.
      * exact Hi.
      * exact Hk.
      * rewrite initial_table_length. lia.
      * intros j kj Hj Hkj. rewrite initial_table_length.
        destruct (Hpre (S j) kj ltac:(lia) Hkj). lia.
Qed.

Lemma Decompress_malformed (data : TBytes) (i : nat) (k : Z) :
  malformed_at (UnpackCodes o data) i k -> Decompress o data = [].
Proof. apply DecompressCodes_malformed. Qed.

End coder.


(** * Database facade *)

Section boolean_queries.

Import TSearchDatabase.

Lemma EvalRpn_loop_underflow (idx : TInvertedIndex.t) (rpn : list TString) :
  forall st,
    rpn_underflows rpn (length st) = true -> EvalRpn_loop idx rpn st = [].
Proof.
  induction rpn as [|tok rpn IH]; intros st H; simpl in *; [discriminate|].
  destruct (IsOp tok).
  - fold (is_not tok) in *. destruct (is_not tok).
    + destruct st as [|a st]; [reflexivity|]. apply IH. exact H.
    + destruct st as [|b [|a st]]; try reflexivity.
      destruct (tok_is tok "and" || tok_is tok "AND"); apply IH; exact H.
  - apply IH. exact H.
Qed.

Lemma EvalRpn_loop_RunRpn (idx : TInvertedIndex.t) (rpn : list TString) :
  forall st st',
    RunRpn idx rpn st = Some st' ->
    EvalRpn_loop idx rpn st = match st' with [] => [] | top :: _ => top end.
Proof.
  induction rpn as [|tok rpn IH]; intros st st' H; simpl in *.
  - injection H as ->. reflexivity.
  - destruct (IsOp tok).
    + fold (is_not tok) in *. destruct (is_not tok).
      * destruct st as [|a st]; [discriminate|]. apply IH, H.
      * destruct st as [|b [|a st]]; try discriminate.
        destruct (tok_is tok "and" || tok_is tok "AND"); apply IH, H.
    + apply IH, H.
Qed.

Lemma RunRpn_operands (idx : TInvertedIndex.t) (rpn : list TString) :
  forall st,
    Forall (fun tok => IsOp tok = false) rpn ->
    RunRpn idx rpn st
    = Some (rev (map (TInvertedIndex.GetPostingList idx) rpn) ++ st).
Proof.
  induction rpn as [|tok rpn IH]; intros st H; simpl; [reflexivity|].
  inversion H as [|? ? Htok Hrest]; subst. rewrite Htok.
  rewrite IH by exact Hrest. rewrite <- app_assoc. reflexivity.
Qed.

Lemma IsOp_spellings (tok : TString) :
  IsOp tok = true <-> In tok operator_spellings.
Proof.
  unfold IsOp, tok_is, operator_spellings. simpl. split.
  - intros H.
    repeat (apply orb_true_iff in H as [H|H]);
      apply TString_eqb_eq in H; subst; tauto.
  - intros H.
    repeat (destruct H as [<-|H]; [reflexivity|]). contradiction.
Qed.

(** C4, as stated, fails: "And" is not the operator that "AND" is.
    [ToRpn] does not take it for an operator and emits it where it stands,
    normalised to "and"; [EvalRpn] then applies "and" at that place, with
    one list on the stack, and gives up.  So "cat And dog" returns the empty
    list, not the intersection that "cat AND dog" returns. *)
Lemma C4_mixed_case_is_no_infix_operator :
  IsOp (lit "And") = false
  /\ ToRpn (pipeline pets) [lit "cat"; lit "And"; lit "dog"]
     = [lit "cat"; lit "and"; lit "dog"]
  /\ ToRpn (pipeline pets) [lit "cat"; lit "AND"; lit "dog"]
     = [lit "cat"; lit "dog"; lit "AND"]
  /\ BooleanQuery pets (lit "cat AND dog") = [0]
  /\ BooleanQuery pets (lit "cat And dog") = [].
Proof.
  split; [|split; [|split; [|split]]]; vm_compute; reflexivity.
Qed.

(** C7: a Boolean expression whose RPN runs out of operands makes
    [BooleanQuery] return the empty list, and a byte stream whose codes are
    malformed (a first code outside 0..255, or a later code that is neither
    in the table nor the next one to be assigned) makes [Decompress] return
    the empty string.  Both are [const] methods: they take the state and
    return a value only. *)
Theorem C7_malformed_input_yields_empty :
  (forall (db : t) (query : TString),
     rpn_underflows (ToRpn (pipeline db) (TokenizeBooleanQuery query)) 0 = true ->
     BooleanQuery db query = [])
  /\ (forall (data : TLzw.TBytes) (i : nat) (k : Z),
        malformed_at (TLzw.UnpackCodes TLzw.default_options data) i k ->
        TLzw.Decompress TLzw.default_options data = []).
Proof.
  split.
  - intros db query H. unfold BooleanQuery, EvalRpn.
    apply EvalRpn_loop_underflow. exact H.
  - apply Decompress_malformed.
Qed.

(** C7 at two queries that start with an operator and at two byte streams:
    one whose first code is 300, one whose second code is 258 when the next
    code to assign is 256. *)
Lemma C7_malformed_input_witness :
  BooleanQuery pets (lit "and cat") = []
  /\ BooleanQuery pets (lit "not") = []
  /\ TLzw.Decompress TLzw.default_options [44; 241; 255]%Z = []
  /\ TLzw.Decompress TLzw.default_options [97; 32; 16; 255; 15]%Z = [].
Proof.
  split; [|split; [|split]].
  - apply (proj1 C7_malformed_input_yields_empty). vm_compute. reflexivity.
  - apply (proj1 C7_malformed_input_yields_empty). vm_compute. reflexivity.
  - apply (proj2 C7_malformed_input_yields_empty _ 0%nat 300%Z).
    split; [vm_compute; reflexivity|]. split; [lia|]. split; [simpl; lia|].
    intros j kj Hj. lia.
  - apply (proj2 C7_malformed_input_yields_empty _ 1%nat 258%Z).
    split; [vm_compute; reflexivity|]. split; [lia|]. split; [simpl; lia|].
    intros j kj Hj Hkj. assert (j = 0)%nat as -> by lia.
    vm_compute in Hkj. injection Hkj as <-. lia.
Defined.

(** C10, as stated, fails: the query "fish dog and cat" ends with two lists
    on the stack and returns the one on top, the intersection of "dog" and
    "cat", which is not the posting list of the last operand "cat". *)
Lemma C10_top_is_not_last_operand :
  RunRpn (index pets)
    (ToRpn (pipeline pets) (TokenizeBooleanQuery (lit "fish dog and cat"))) []
  = Some [[0]; [2]]
  /\ BooleanQuery pets (lit "fish dog and cat") = [0]
  /\ TInvertedIndex.GetPostingList (index pets)
       (TTextPipeline.NormalizeTerm (pipeline pets) (lit "cat"))
     = [0; 1].
Proof.
  split; [|split]; vm_compute; reflexivity.
Qed.

Lemma NormalizeTerm_cat_dog (o : TTextPipeline.TOptions) :
  IsOp (TTextPipeline.NormalizeTerm o (lit "cat")) = false
  /\ IsOp (TTextPipeline.NormalizeTerm o (lit "dog")) = false.
Proof.
  destruct o as [lc st lm sp sn mn mx].
  destruct lc, st, lm; split; vm_compute; reflexivity.
Qed.

(** C10 (amended): a Boolean query whose RPN evaluation ends with one or
    more lists on the stack returns the list on top, the last one pushed, and
    silently discards the others.  When the RPN holds operands only, the top
    is the posting list of the last operand; so "cat dog" returns the posting
    list of the normalised "dog" in every database. *)
Theorem C10_result_is_top_of_stack (db : t) :
  (forall query top rest,
     RunRpn (index db) (ToRpn (pipeline db) (TokenizeBooleanQuery query)) []
     = Some (top :: rest) ->
     BooleanQuery db query = top)
  /\ (forall rpn tok,
        Forall (fun t => IsOp t = false) (rpn ++ [tok]) ->
        EvalRpn db (rpn ++ [tok])
        = TInvertedIndex.GetPostingList (index db) tok)
  /\ BooleanQuery db (lit "cat dog")
     = TInvertedIndex.GetPostingList (index db)
         (TTextPipeline.NormalizeTerm (pipeline db) (lit "dog")).
Proof.
  assert (Hops : forall rpn tok,
            Forall (fun t => IsOp t = false) (rpn ++ [tok]) ->
            EvalRpn db (rpn ++ [tok])
            = TInvertedIndex.GetPostingList (index db) tok).
  { intros rpn tok H. unfold EvalRpn.
    rewrite (EvalRpn_loop_RunRpn _ _ _ _ (RunRpn_operands _ _ [] H)).
    rewrite map_app, rev_app_distr. reflexivity. }
  split; [|split].
  - intros query top rest H. unfold BooleanQuery, EvalRpn.
    rewrite (EvalRpn_loop_RunRpn _ _ _ _ H). reflexivity.
  - exact Hops.
  - destruct (NormalizeTerm_cat_dog (pipeline db)) as [Hc Hd].
    unfold BooleanQuery.
    change (TokenizeBooleanQuery (lit "cat dog")) with [lit "cat"; lit "dog"].
    unfold ToRpn. cbn [fold_left].
    change (ToRpn_step (pipeline db) ([], []) (lit "cat"))
      with ([TTextPipeline.NormalizeTerm (pipeline db) (lit "cat")],
            @nil (list ascii)).
    change (ToRpn_step (pipeline db)
              ([TTextPipeline.NormalizeTerm (pipeline db) (lit "cat")], [])
              (lit "dog"))
      with ([TTextPipeline.NormalizeTerm (pipeline db) (lit "cat");
             TTextPipeline.NormalizeTerm (pipeline db) (lit "dog")],
            @nil (list ascii)).
    cbn [drain_ops].
    apply (Hops [TTextPipeline.NormalizeTerm (pipeline db) (lit "cat")]).
    repeat constructor; assumption.
Qed.

(** The amended C10 at the query of the counterexample: the stack ends as
    [[0]; [2]] and the answer is its top. *)
Lemma C10_result_is_top_witness :
  BooleanQuery pets (lit "fish dog and cat") = [0].
Proof.
  apply (proj1 (C10_result_is_top_of_stack pets) (lit "fish dog and cat")
           [0] [[2]]).
  vm_compute. reflexivity.
Defined.

End boolean_queries.


(** * Database facade: stored text and titles *)

Section stored_text.

Import TSearchDatabase.

Lemma AddDocument_step_next (docId : nat) (st : TInvertedIndex.t * nat)
    (term : TString) :
  TInvertedIndex.NextDocId_ (fst (TInvertedIndex.AddDocument_step docId st term))
  = TInvertedIndex.NextDocId_ (fst st).
Proof.
  unfold TInvertedIndex.AddDocument_step, TInvertedIndex.IncrementTermFrequency,
    TInvertedIndex.AddTermToIndex. simpl.
  destruct (TInvertedIndex.Index_ (fst st) !! term); [|reflexivity].
  match goal with |- context [if ?c then _ else _] => destruct c end;
    reflexivity.
Qed.

Lemma AddDocument_next (ix : TInvertedIndex.t) (terms : list TString) :
  snd (TInvertedIndex.AddDocument ix terms) = TInvertedIndex.NextDocId_ ix
  /\ TInvertedIndex.NextDocId_ (fst (TInvertedIndex.AddDocument ix terms))
     = S (TInvertedIndex.NextDocId_ ix).
Proof.
  unfold TInvertedIndex.AddDocument.
  set (ix0 := TInvertedIndex.Mk _ _ _ _ (S (TInvertedIndex.NextDocId_ ix))).
  assert (H : forall st,
            TInvertedIndex.NextDocId_
              (fst (fold_left
                      (TInvertedIndex.AddDocument_step
                         (TInvertedIndex.NextDocId_ ix)) terms st))
            = TInvertedIndex.NextDocId_ (fst st)).
  { induction terms as [|term terms IH]; intros st; simpl; [reflexivity|].
    rewrite IH. apply AddDocument_step_next. }
  specialize (H (ix0, 0)).
  destruct (fold_left _ terms (ix0, 0)) as [ix1 k]. simpl in *.
  split; [reflexivity|exact H].
Qed.

Lemma engine_add (e : TSearchEngine.t) (terms : list TString) :
  exists ix,
    TSearchEngine.AddDocumentTerms e terms
    = (TSearchEngine.Mk (TSearchEngine.Pipeline_ e) ix (TSearchEngine.Titles_ e),
       TInvertedIndex.NextDocId_ (TSearchEngine.Index_ e))
    /\ TInvertedIndex.NextDocId_ ix
       = S (TInvertedIndex.NextDocId_ (TSearchEngine.Index_ e)).
Proof.
  unfold TSearchEngine.AddDocumentTerms.
  destruct (AddDocument_next (TSearchEngine.Index_ e) terms) as [H1 H2].
  destruct (TInvertedIndex.AddDocument (TSearchEngine.Index_ e) terms)
    as [ix docId].
  simpl in *. subst docId. eauto.
Qed.

Lemma lookup_snoc {A} (l : list A) (x : A) (d : nat) :
  (l ++ [x]) !! d
  = if decide (d = length l) then Some x else l !! d.
Proof.
  destruct (decide (d = length l)) as [->|Hne].
  - rewrite lookup_app_r by lia. rewrite Nat.sub_diag. reflexivity.
  - destruct (decide (d < length l)) as [Hlt|Hge].
    + apply lookup_app_l. exact Hlt.
    + rewrite !lookup_ge_None_2; [reflexivity|lia|rewrite length_app; simpl; lia].
Qed.

Ltac ingest_cases db content title :=
  unfold ingest, StoreDoc, doc_lookup, index; destruct content; cbn;
  destruct (StoreDocuments (Options_ db)); cbn;
  destruct (CompressDocuments (Options_ db)) eqn:?; cbn;
  destruct (StoreTitles (Options_ db)); cbn;
  destruct (length title =? 0)%nat; cbn.

Lemma ingest_options db ix docId content title :
  Options_ (ingest db ix docId content title) = Options_ db.
Proof. ingest_cases db content title; reflexivity. Qed.

Lemma ingest_index db ix docId content title :
  index (ingest db ix docId content title) = ix.
Proof. ingest_cases db content title; reflexivity. Qed.

Lemma ingest_docs db ix docId content title d :
  doc_lookup (ingest db ix docId content title) d
  = match content with
    | Some text =>
        if StoreDocuments (Options_ db)
        then if decide (d = docId) then Some text else doc_lookup db d
        else doc_lookup db d
    | None => doc_lookup db d
    end.
Proof.
  ingest_cases db content title;
    repeat match goal with H : CompressDocuments _ = _ |- _ => rewrite H end;
    try reflexivity;
    destruct (decide (d = docId)) as [->|Hne];
    rewrite ?lookup_insert_eq, ?lookup_insert_ne by congruence;
    cbn; unfold Lzw_; rewrite ?Decompress_Compress; reflexivity.
Qed.

Lemma ingest_titles db ix docId content title d :
  Titles_ (ingest db ix docId content title) !! d
  = if StoreTitles (Options_ db) && negb (length title =? 0)%nat
    then if decide (d = docId) then Some title else Titles_ db !! d
    else Titles_ db !! d.
Proof.
  ingest_cases db content title; try reflexivity;
    destruct (decide (d = docId)) as [->|Hne];
    rewrite ?lookup_insert_eq, ?lookup_insert_ne by congruence; reflexivity.
Qed.

Lemma db_inv_ingest (o : TOptions)
    (log : list (option (list ascii) * list ascii)) (db : t)
    (ix : TInvertedIndex.t) (content : option (list ascii))
    (title : list ascii) :
  db_inv o log db ->
  TInvertedIndex.NextDocId_ ix = S (length log) ->
  db_inv o (log ++ [(content, title)]) (ingest db ix (length log) content title).
Proof.
  intros [Hopt Hnext Hdocs Htitles] Hix.
  assert (Hfresh : log !! length log = None) by (apply lookup_ge_None_2; lia).
  constructor.
  - rewrite ingest_options. exact Hopt.
  - rewrite ingest_index, Hix, length_app. simpl. lia.
  - intros d. rewrite ingest_docs, Hopt, Hdocs, lookup_snoc.
    specialize (Hdocs (length log)). rewrite Hfresh in Hdocs.
    destruct content as [text|]; destruct (StoreDocuments o);
      destruct (decide (d = length log)) as [->|Hne];
      rewrite ?Hfresh; reflexivity.
  - intros d. rewrite ingest_titles, Hopt, Htitles, lookup_snoc.
    destruct (StoreTitles o); [|reflexivity]. cbn.
    destruct (decide (d = length log)) as [->|Hne].
    + rewrite Hfresh. destruct (length title =? 0)%nat; reflexivity.
    + destruct (length title =? 0)%nat; reflexivity.
Qed.

Lemma db_inv_new (o : TOptions) : db_inv o [] (new o).
Proof.
  constructor; unfold doc_lookup; simpl; try reflexivity.
  - intros d. rewrite !lookup_empty.
    destruct (CompressDocuments o), (StoreDocuments o); reflexivity.
  - intros d. rewrite lookup_empty. destruct (StoreTitles o); reflexivity.
Qed.

Lemma db_inv_call (o : TOptions) (log : list (option (list ascii) * list ascii))
    (db : t) (c : TCall) :
  db_inv o log db -> db_inv o (log_step log c) (call db c).
Proof.
  intros H. pose proof (di_next _ _ _ H) as Hnext. unfold index in Hnext.
  destruct c as [content title|content|terms|terms content|]; simpl.
  - unfold AddDocument.
    destruct (engine_add (Engine_ db)
                (TTextPipeline.Process (pipeline db) content))
      as (ix & -> & Hix).
    rewrite Hnext in *.
    apply (db_inv_ingest o log db ix (Some content) title H Hix).
  - unfold AddDocument1, AddDocument.
    destruct (engine_add (Engine_ db)
                (TTextPipeline.Process (pipeline db) content))
      as (ix & -> & Hix).
    rewrite Hnext in *.
    apply (db_inv_ingest o log db ix (Some content) [] H Hix).
  - unfold AddDocumentTerms.
    destruct (engine_add (Engine_ db) terms) as (ix & -> & Hix).
    rewrite Hnext in *.
    pose proof (db_inv_ingest o log db ix None [] H Hix) as H'.
    unfold ingest in H'. cbn in H'. rewrite andb_false_r in H'. exact H'.
  - unfold AddDocumentTermsContent.
    destruct (engine_add (Engine_ db) terms) as (ix & -> & Hix).
    rewrite Hnext in *.
    pose proof (db_inv_ingest o log db ix (Some content) [] H Hix) as H'.
    unfold ingest in H'. cbn in H'. rewrite andb_false_r in H'. exact H'.
  - destruct H as [Hopt _ _ _]. unfold Clear.
    constructor; unfold doc_lookup; simpl; try assumption; try reflexivity.
    + intros d. rewrite !lookup_empty.
      destruct (CompressDocuments (Options_ db)), (StoreDocuments o);
        reflexivity.
    + intros d. rewrite lookup_empty. destruct (StoreTitles o); reflexivity.
Qed.

Lemma db_inv_run (o : TOptions) (calls : list TCall) :
  db_inv o (ingest_log calls) (run o calls).
Proof.
  unfold ingest_log, run. generalize (db_inv_new o).
  generalize (new o). generalize (@nil (option (list ascii) * list ascii)).
  induction calls as [|c calls IH]; intros log db H; simpl; [exact H|].
  apply IH, db_inv_call, H.
Qed.

(** C9: in every database built by the public calls, [GetDocument] and
    [GetTitle] are total and return what was handed over at ingest, and the
    empty string in every other case: when the storage option is off, when
    the id is unknown (not below the document count), when the document was
    added without content, or without a title.  A stored empty content or
    title gives the same empty string. *)
Theorem C9_missing_text_is_empty (o : TOptions) (calls : list TCall) (d : nat) :
  GetDocumentCount (run o calls) = length (ingest_log calls)
  /\ GetDocument (run o calls) d
     = (if StoreDocuments o then logged_content (ingest_log calls) d else [])
  /\ GetTitle (run o calls) d
     = (if StoreTitles o then logged_title (ingest_log calls) d else []).
Proof.
  destruct (db_inv_run o calls) as [Hopt Hnext Hdocs Htitles].
  split; [exact Hnext|]. split.
  - specialize (Hdocs d). unfold GetDocument, doc_lookup, logged_content in *.
    rewrite Hopt in *. destruct (StoreDocuments o); [|reflexivity]. simpl.
    destruct (CompressDocuments o).
    + destruct (CompressedDocs_ (run o calls) !! d); simpl in Hdocs;
        destruct (ingest_log calls !! d) as [[[c|] ti]|]; simpl in Hdocs;
        congruence.
    + rewrite Hdocs.
      destruct (ingest_log calls !! d) as [[[c|] ti]|]; reflexivity.
  - specialize (Htitles d). unfold GetTitle, logged_title.
    rewrite Hopt, Htitles. destruct (StoreTitles o); [|reflexivity]. simpl.
    destruct (ingest_log calls !! d) as [[c ti]|]; [|reflexivity].
    destruct ti; reflexivity.
Qed.

End stored_text.


(** * Posting-list algebra *)

Section posting_lists.

Import TSearchDatabase.

Lemma sorted_head_lt (x : nat) (l : list nat) :
  StronglySorted lt (x :: l) -> forall d, d ∈ l -> x < d.
Proof.
  intros H d Hd. apply StronglySorted_inv in H as [_ H].
  rewrite Forall_forall in H. apply H, Hd.
Qed.

Lemma sorted_tail (x : nat) (l : list nat) :
  StronglySorted lt (x :: l) -> StronglySorted lt l.
Proof. intros H. apply StronglySorted_inv in H as [H _]. exact H. Qed.

Lemma sorted_cons (x : nat) (l : list nat) :
  StronglySorted lt l -> (forall d, d ∈ l -> x < d) ->
  StronglySorted lt (x :: l).
Proof.
  intros Hs H. constructor; [exact Hs|]. apply Forall_forall. exact H.
Qed.

Lemma sorted_NoDup (l : list nat) : StronglySorted lt l -> NoDup l.
Proof.
  induction 1 as [|x l Hs IH Hx]; constructor; [|exact IH].
  intros Hin. rewrite Forall_forall in Hx. specialize (Hx _ Hin). lia.
Qed.

(** Strictly increasing lists with the same elements are equal. *)
Lemma sorted_ext (l k : list nat) :
  StronglySorted lt l -> StronglySorted lt k ->
  (forall d, d ∈ l <-> d ∈ k) -> l = k.
Proof.
  revert k. induction l as [|x l IH]; intros k Hl Hk H.
  - destruct k as [|y k]; [reflexivity|].
    exfalso. apply (not_elem_of_nil y), H. left.
  - destruct k as [|y k].
    { exfalso. apply (not_elem_of_nil x), H. left. }
    assert (Hxy : x = y).
    { assert (Hx : x ∈ y :: k) by (apply H; left).
      assert (Hy : y ∈ x :: l) by (apply H; left).
      apply elem_of_cons in Hx as [Hx|Hx]; [exact Hx|].
      apply elem_of_cons in Hy as [Hy|Hy]; [congruence|].
      pose proof (sorted_head_lt _ _ Hl _ Hy).
      pose proof (sorted_head_lt _ _ Hk _ Hx). lia. }
    subst y. f_equal.
    apply IH; [eapply sorted_tail, Hl|eapply sorted_tail, Hk|].
    intros d. split; intros Hd.
    + assert (Hd' : d ∈ x :: k) by (apply H; right; exact Hd).
      apply elem_of_cons in Hd' as [->|Hd']; [|exact Hd'].
      pose proof (sorted_head_lt _ _ Hl _ Hd). lia.
    + assert (Hd' : d ∈ x :: l) by (apply H; right; exact Hd).
      apply elem_of_cons in Hd' as [->|Hd']; [|exact Hd'].
      pose proof (sorted_head_lt _ _ Hk _ Hd). lia.
Qed.

(** In a strictly increasing list of numbers from [lo] up to [n], [n]
    excluded, there are at most [n - lo] entries. *)
Lemma sorted_length_le (l : list nat) :
  StronglySorted lt l ->
  forall lo n, Forall (fun d => lo <= d < n) l -> length l <= n - lo.
Proof.
  induction 1 as [|x l Hs IH Hx]; intros lo n Hb; simpl; [lia|].
  apply Forall_cons in Hb as [Hx' Hb].
  assert (H : length l <= n - S x).
  { apply IH. rewrite Forall_forall in *. intros d Hd.
    specialize (Hx _ Hd). specialize (Hb _ Hd). lia. }
  lia.
Qed.

Lemma Intersect_unfold (x y : nat) (a b : list nat) :
  Intersect (x :: a) (y :: b)
  = if x =? y then x :: Intersect a b
    else if x <? y then Intersect a (y :: b)
    else Intersect (x :: a) b.
Proof. reflexivity. Qed.

Lemma Intersect_nil_r (a : list nat) : Intersect a [] = [].
Proof. destruct a; reflexivity. Qed.

Lemma Union_unfold (x y : nat) (a b : list nat) :
  Union (x :: a) (y :: b)
  = if x =? y then x :: Union a b
    else if x <? y then x :: Union a (y :: b)
    else y :: Union (x :: a) b.
Proof. reflexivity. Qed.

Lemma Union_nil_r (a : list nat) : Union a [] = a.
Proof. destruct a; reflexivity. Qed.

Lemma Intersect_sound (a b : list nat) :
  forall d, d ∈ Intersect a b -> d ∈ a /\ d ∈ b.
Proof.
  revert b. induction a as [|x a IHa]; intros b d Hd.
  - simpl in Hd. inversion Hd.
  - induction b as [|y b IHb].
    + rewrite Intersect_nil_r in Hd. inversion Hd.
    + rewrite Intersect_unfold in Hd.
      destruct (x =? y) eqn:E.
      * apply Nat.eqb_eq in E. subst y.
        apply elem_of_cons in Hd as [->|Hd]; [split; left|].
        destruct (IHa _ _ Hd). split; right; assumption.
      * destruct (x <? y) eqn:E2.
        -- destruct (IHa _ _ Hd). split; [right|]; assumption.
        -- destruct (IHb Hd). split; [|right]; assumption.
Qed.

Lemma Intersect_complete (a b : list nat) :
  StronglySorted lt a -> StronglySorted lt b ->
  forall d, d ∈ a -> d ∈ b -> d ∈ Intersect a b.
Proof.
  revert b. induction a as [|x a IHa]; intros b Ha Hb d Hda Hdb.
  - inversion Hda.
  - induction b as [|y b IHb].
    + inversion Hdb.
    + rewrite Intersect_unfold.
      destruct (x =? y) eqn:E.
      * apply Nat.eqb_eq in E. subst y.
        apply elem_of_cons in Hda as [->|Hda]; [left|].
        apply elem_of_cons in Hdb as [->|Hdb].
        { pose proof (sorted_head_lt _ _ Ha _ Hda). lia. }
        right. apply IHa; eauto using sorted_tail.
      * apply Nat.eqb_neq in E. destruct (x <? y) eqn:E2.
        -- apply Nat.ltb_lt in E2.
           apply elem_of_cons in Hda as [->|Hda].
           { apply elem_of_cons in Hdb as [->|Hdb]; [lia|].
             pose proof (sorted_head_lt _ _ Hb _ Hdb). lia. }
           apply IHa; eauto using sorted_tail.
        -- apply Nat.ltb_ge in E2.
           apply elem_of_cons in Hdb as [->|Hdb].
           { apply elem_of_cons in Hda as [->|Hda]; [lia|].
             pose proof (sorted_head_lt _ _ Ha _ Hda). lia. }
           apply IHb; eauto using sorted_tail.
Qed.

Lemma Intersect_sorted (a b : list nat) :
  StronglySorted lt a -> StronglySorted lt b ->
  StronglySorted lt (Intersect a b).
Proof.
  revert b. induction a as [|x a IHa]; intros b Ha Hb.
  - constructor.
  - induction b as [|y b IHb].
    + rewrite Intersect_nil_r. constructor.
    + rewrite Intersect_unfold.
      destruct (x =? y) eqn:E; [|destruct (x <? y)].
      * apply sorted_cons; [apply IHa; eauto using sorted_tail|].
        intros d Hd. apply Intersect_sound in Hd as [Hd _].
        apply (sorted_head_lt _ _ Ha _ Hd).
      * apply IHa; eauto using sorted_tail.
      * apply IHb. eauto using sorted_tail.
Qed.

Lemma Union_elem_of (a b : list nat) :
  forall d, d ∈ Union a b <-> d ∈ a \/ d ∈ b.
Proof.
  revert b. induction a as [|x a IHa]; intros b d.
  - simpl. split; [tauto|]. intros [H|H]; [inversion H|exact H].
  - induction b as [|y b IHb].
    + rewrite Union_nil_r. split; [tauto|]. intros [H|H]; [exact H|inversion H].
    + rewrite Union_unfold.
      destruct (x =? y) eqn:E; [|destruct (x <? y)].
      * apply Nat.eqb_eq in E. subst y.
        rewrite !elem_of_cons, IHa. tauto.
      * rewrite !elem_of_cons, IHa, elem_of_cons. tauto.
      * rewrite !elem_of_cons, IHb, elem_of_cons. tauto.
Qed.

Lemma Union_sorted (a b : list nat) :
  StronglySorted lt a -> StronglySorted lt b -> StronglySorted lt (Union a b).
Proof.
  revert b. induction a as [|x a IHa]; intros b Ha Hb.
  - exact Hb.
  - induction b as [|y b IHb].
    + rewrite Union_nil_r. exact Ha.
    + rewrite Union_unfold.
      destruct (x =? y) eqn:E; [|destruct (x <? y) eqn:E2].
      * apply Nat.eqb_eq in E. subst y.
        apply sorted_cons; [apply IHa; eauto using sorted_tail|].
        intros d Hd. apply Union_elem_of in Hd as [Hd|Hd];
          eauto using sorted_head_lt.
      * apply Nat.ltb_lt in E2.
        apply sorted_cons; [apply IHa; eauto using sorted_tail|].
        intros d Hd. apply Union_elem_of in Hd as [Hd|Hd];
          [eauto using sorted_head_lt|].
        apply elem_of_cons in Hd as [->|Hd]; [exact E2|].
        pose proof (sorted_head_lt _ _ Hb _ Hd). lia.
      * apply Nat.eqb_neq in E. apply Nat.ltb_ge in E2.
        apply sorted_cons; [apply IHb; eauto using sorted_tail|].
        intros d Hd. apply Union_elem_of in Hd as [Hd|Hd];
          [|eauto using sorted_head_lt].
        apply elem_of_cons in Hd as [->|Hd]; [lia|].
        pose proof (sorted_head_lt _ _ Ha _ Hd). lia.
Qed.

(** [NotList] keeps the ids below [n] that are not in [a]. *)
Lemma NotList_fold (m : nat) :
  forall k rest r,
    StronglySorted lt rest -> Forall (fun x => k <= x) rest ->
    snd (fold_left NotList_step (seq k m) (rest, r))
    = r ++ List.filter (fun d => negb (bool_decide (d ∈ rest))) (seq k m).
Proof.
  induction m as [|m IH]; intros k rest r Hs Hge; simpl.
  - rewrite app_nil_r. reflexivity.
  - assert (Hext : forall x rest',
              rest = x :: rest' -> 
              List.filter (fun d => negb (bool_decide (d ∈ rest))) (seq (S k) m)
              = List.filter (fun d => negb (bool_decide (d ∈ rest')))
                  (seq (S k) m) \/ k < x).
    { intros x rest' ->. destruct (decide (k < x)) as [Hlt|Hnlt]; [right; exact Hlt|].
      left. apply List.filter_ext_in. intros d Hd. apply in_seq in Hd.
      f_equal. apply bool_decide_ext. rewrite elem_of_cons.
      apply Forall_cons in Hge as [Hx _]. split; [|tauto].
      intros [->|H]; [lia|exact H]. }
    destruct rest as [|x rest'].
    + rewrite IH by (constructor). simpl.
      rewrite <- app_assoc. reflexivity.
    + destruct (x =? k) eqn:E.
      * apply Nat.eqb_eq in E. subst x.
        rewrite bool_decide_eq_true_2 by left. simpl.
        rewrite IH.
        -- f_equal. apply List.filter_ext_in. intros d Hd. apply in_seq in Hd.
           f_equal. apply bool_decide_ext. rewrite elem_of_cons.
           split; [tauto|]. intros [->|H]; [lia|exact H].
        -- eapply sorted_tail, Hs.
        -- apply Forall_forall. intros d Hd.
           pose proof (sorted_head_lt _ _ Hs _ Hd). lia.
      * apply Nat.eqb_neq in E.
        apply Forall_cons in Hge as [Hx Hge].
        rewrite bool_decide_eq_false_2.
        2:{ intros Hin. apply elem_of_cons in Hin as [->|Hin]; [lia|].
            pose proof (sorted_head_lt _ _ Hs _ Hin). lia. }
        simpl. rewrite IH; [rewrite <- app_assoc; reflexivity|exact Hs|].
        constructor; [lia|]. apply Forall_forall. intros d Hd.
        pose proof (sorted_head_lt _ _ Hs _ Hd). lia.
Qed.

Lemma NotList_filter (n : nat) (a : list nat) :
  StronglySorted lt a ->
  NotList n a = List.filter (fun d => negb (bool_decide (d ∈ a))) (seq 0 n).
Proof.
  intros Hs. unfold NotList. rewrite NotList_fold; [reflexivity|exact Hs|].
  apply Forall_forall. intros; lia.
Qed.

Lemma seq_sorted (k m : nat) : StronglySorted lt (seq k m).
Proof.
  revert k. induction m as [|m IH]; intros k; simpl; constructor; [apply IH|].
  apply Forall_forall. intros d Hd. apply list_elem_of_In, in_seq in Hd. lia.
Qed.

Lemma filter_sorted (p : nat -> bool) (l : list nat) :
  StronglySorted lt l -> StronglySorted lt (List.filter p l).
Proof.
  induction 1 as [|x l Hs IH Hx]; simpl; [constructor|].
  destruct (p x); [|exact IH]. constructor; [exact IH|].
  rewrite Forall_forall in *. intros d Hd.
  apply list_elem_of_In, filter_In in Hd as [Hd _]. apply Hx, list_elem_of_In, Hd.
Qed.

Lemma NotList_elem_of (n : nat) (a : list nat) (d : nat) :
  StronglySorted lt a -> (d ∈ NotList n a <-> d < n /\ d ∉ a).
Proof.
  intros Hs. rewrite NotList_filter by exact Hs.
  rewrite list_elem_of_In, filter_In, in_seq, negb_true_iff,
    bool_decide_eq_false.
  split; intros [H1 H2]; split; (lia || exact H2).
Qed.

Lemma NotList_sorted (n : nat) (a : list nat) :
  StronglySorted lt a -> StronglySorted lt (NotList n a).
Proof.
  intros Hs. rewrite NotList_filter by exact Hs.
  apply filter_sorted, seq_sorted.
Qed.

End posting_lists.


(** * The index inside the database *)

Section database_index.

Import TSearchDatabase.

Lemma call_index (db : t) (c : TCall) :
  index (call db c) = TInvertedIndex.call (index db) (index_call (pipeline db) c)
  /\ pipeline (call db c) = pipeline db.
Proof.
  destruct c as [content title|content|terms|terms content|];
    unfold call, index_call, AddDocument1, AddDocument, AddDocumentTerms,
      AddDocumentTermsContent, Clear, TSearchEngine.AddDocumentTerms,
      TSearchEngine.Clear, StoreDoc, index, pipeline; cbn;
    repeat match goal with
           | |- context [TInvertedIndex.AddDocument ?ix ?ts] =>
               destruct (TInvertedIndex.AddDocument ix ts); cbn
           | |- context [if ?c then _ else _] => destruct c; cbn
           end;
    split; reflexivity.
Qed.

Lemma fold_call_index (calls : list TCall) :
  forall db,
    index (fold_left call calls db)
    = fold_left TInvertedIndex.call (map (index_call (pipeline db)) calls)
        (index db)
    /\ pipeline (fold_left call calls db) = pipeline db.
Proof.
  induction calls as [|c calls IH]; intros db; simpl; [split; reflexivity|].
  destruct (call_index db c) as [Hi Hp].
  destruct (IH (call db c)) as [IH1 IH2].
  rewrite IH1, IH2, Hi, Hp. split; reflexivity.
Qed.

(** X1: the index inside a database is the index that [TInvertedIndex] builds
    from the terms of each call: the processed content for the calls that
    take a content, the given terms for the others. *)
Theorem database_index_is_index_of_terms (o : TOptions) (calls : list TCall) :
  index (run o calls)
  = TInvertedIndex.run (map (index_call (Pipeline o)) calls)
  /\ pipeline (run o calls) = Pipeline o.
Proof. apply (fold_call_index calls (new o)). Qed.

Lemma index_inv_database (o : TOptions) (calls : list TCall) :
  index_inv (index (run o calls)).
Proof.
  unfold run. rewrite (proj1 (fold_call_index calls (new o))).
  apply (index_inv_run (map (index_call (pipeline (new o))) calls)).
Qed.

End database_index.

Section boolean_evaluation.

Import TSearchDatabase.

Lemma posting_nil (n : nat) : posting n [].
Proof. split; constructor. Qed.

Lemma posting_Intersect (n : nat) (a b : list nat) :
  posting n a -> posting n b -> posting n (Intersect a b).
Proof.
  intros [Ha Hna] [Hb Hnb]. split; [apply Intersect_sorted; assumption|].
  apply Forall_forall. intros d Hd. apply Intersect_sound in Hd as [Hd _].
  unfold below in Hna. rewrite Forall_forall in Hna. apply Hna, Hd.
Qed.

Lemma posting_Union (n : nat) (a b : list nat) :
  posting n a -> posting n b -> posting n (Union a b).
Proof.
  intros [Ha Hna] [Hb Hnb]. split; [apply Union_sorted; assumption|].
  apply Forall_forall. intros d Hd. apply Union_elem_of in Hd.
  unfold below in *. rewrite Forall_forall in Hna, Hnb.
  destruct Hd as [Hd|Hd]; auto.
Qed.

Lemma posting_NotList (n : nat) (a : list nat) :
  StronglySorted lt a -> posting n (NotList n a).
Proof.
  intros Ha. split; [apply NotList_sorted, Ha|].
  apply Forall_forall. intros d Hd. apply NotList_elem_of in Hd; tauto.
Qed.

Lemma posting_GetPostingList (ix : TInvertedIndex.t) (term : TString) :
  index_inv ix ->
  posting (TInvertedIndex.GetDocumentCount ix)
    (TInvertedIndex.GetPostingList ix term).
Proof.
  intros H.
  apply (GetPostingList_sorted_bound ix term 0
           (fun d => d < TInvertedIndex.NextDocId_ ix)).
  apply (ii_pl _ H).
Qed.

Lemma posting_EvalRpn_loop (idx : TInvertedIndex.t) (rpn : list TString) :
  index_inv idx ->
  forall st,
    Forall (posting (TInvertedIndex.GetDocumentCount idx)) st ->
    posting (TInvertedIndex.GetDocumentCount idx) (EvalRpn_loop idx rpn st).
Proof.
  intros Hinv. induction rpn as [|tok rpn IH]; intros st Hst; simpl.
  - destruct Hst; [apply posting_nil|assumption].
  - destruct (IsOp tok).
    + destruct (tok_is tok "not" || tok_is tok "NOT").
      * destruct Hst as [|a st Ha Hst]; [apply posting_nil|].
        apply IH. constructor; [|exact Hst].
        apply posting_NotList, Ha.
      * destruct Hst as [|b st Hb Hst]; [apply posting_nil|].
        destruct Hst as [|a st Ha Hst]; [apply posting_nil|].
        destruct (tok_is tok "and" || tok_is tok "AND"); apply IH;
          (constructor; [|exact Hst]).
        -- apply posting_Intersect; assumption.
        -- apply posting_Union; assumption.
    + apply IH. constructor; [|exact Hst].
      apply posting_GetPostingList, Hinv.
Qed.

End boolean_evaluation.


(** * Boolean operations on posting lists *)

Section boolean_laws.

Import TSearchDatabase.

(** X2: on strictly increasing lists [Intersect] is set intersection: the
    result is strictly increasing and holds the ids that are in both. *)
Theorem Intersect_is_intersection (a b : list nat) :
  StronglySorted lt a -> StronglySorted lt b ->
  StronglySorted lt (Intersect a b)
  /\ forall d, d ∈ Intersect a b <-> d ∈ a /\ d ∈ b.
Proof.
  intros Ha Hb. split; [apply Intersect_sorted; assumption|].
  intros d. split; [apply Intersect_sound|].
  intros [H1 H2]. apply Intersect_complete; assumption.
Qed.

(** X2 on a concrete input. *)
Lemma Intersect_is_intersection_witness :
  StronglySorted lt (Intersect [1; 3; 5; 8] [0; 3; 4; 8; 9])
  /\ forall d, d ∈ Intersect [1; 3; 5; 8] [0; 3; 4; 8; 9]
               <-> d ∈ [1; 3; 5; 8] /\ d ∈ [0; 3; 4; 8; 9].
Proof.
  apply (Intersect_is_intersection [1; 3; 5; 8] [0; 3; 4; 8; 9]);
    repeat constructor; lia.
Defined.

(** X3: [Union] holds the ids of either list, whatever the lists; on strictly
    increasing lists the result is strictly increasing, so an id that is in
    both lists appears once. *)
Theorem Union_is_union (a b : list nat) :
  (forall d, d ∈ Union a b <-> d ∈ a \/ d ∈ b)
  /\ (StronglySorted lt a -> StronglySorted lt b ->
      StronglySorted lt (Union a b)).
Proof. split; [apply Union_elem_of|apply Union_sorted]. Qed.

(** X3 on a concrete input. *)
Lemma Union_is_union_witness :
  StronglySorted lt (Union [1; 3; 5; 8] [0; 3; 4; 8; 9]).
Proof.
  apply (proj2 (Union_is_union [1; 3; 5; 8] [0; 3; 4; 8; 9]));
    repeat constructor; lia.
Defined.

(** X4: [NotList] is the complement within the ids [0 .. n-1]: for a strictly
    increasing [a] it returns, in increasing order, the ids below [n] that
    are not in [a].  Complementing twice gives back a list of ids below
    [n], and the complement of a union is the intersection of the
    complements. *)
Theorem NotList_is_complement (n : nat) (a b : list nat) :
  StronglySorted lt a -> StronglySorted lt b ->
  StronglySorted lt (NotList n a)
  /\ (forall d, d ∈ NotList n a <-> d < n /\ d ∉ a)
  /\ (Forall (fun d => d < n) a -> NotList n (NotList n a) = a)
  /\ NotList n (Union a b) = Intersect (NotList n a) (NotList n b).
Proof.
  intros Ha Hb.
  split; [apply NotList_sorted, Ha|].
  split; [intros d; apply NotList_elem_of, Ha|].
  split.
  - intros Hn. apply sorted_ext; [apply NotList_sorted, NotList_sorted, Ha|exact Ha|].
    intros d. rewrite NotList_elem_of by (apply NotList_sorted, Ha).
    rewrite NotList_elem_of by exact Ha.
    rewrite Forall_forall in Hn. split.
    + intros [H1 H2]. destruct (decide (d ∈ a)) as [H|H]; [exact H|].
      exfalso. apply H2. split; assumption.
    + intros H. split; [apply Hn, H|]. intros [_ H2]. apply H2, H.
  - apply sorted_ext.
    + apply NotList_sorted, Union_sorted; assumption.
    + apply Intersect_sorted; apply NotList_sorted; assumption.
    + intros d.
      rewrite NotList_elem_of by (apply Union_sorted; assumption).
      rewrite Union_elem_of. split.
      * intros [H1 H2]. apply Intersect_complete;
          try (apply NotList_sorted; assumption);
          apply NotList_elem_of; try assumption; split; try exact H1; tauto.
      * intros H. apply Intersect_sound in H as [H1 H2].
        apply NotList_elem_of in H1; [|exact Ha].
        apply NotList_elem_of in H2; [|exact Hb]. tauto.
Qed.

(** X4 on a concrete input. *)
Lemma NotList_is_complement_witness :
  StronglySorted lt (NotList 6 [1; 4])
  /\ (forall d, d ∈ NotList 6 [1; 4] <-> d < 6 /\ d ∉ [1; 4])
  /\ (Forall (fun d => d < 6) [1; 4] -> NotList 6 (NotList 6 [1; 4]) = [1; 4])
  /\ NotList 6 (Union [1; 4] [0; 4; 5])
     = Intersect (NotList 6 [1; 4]) (NotList 6 [0; 4; 5]).
Proof.
  apply (NotList_is_complement 6 [1; 4] [0; 4; 5]); repeat constructor; lia.
Defined.

(** X5: whatever the query, the list a Boolean query returns from a database
    built by the public calls is strictly increasing and holds only ids of
    documents of the database. *)
Theorem BooleanQuery_sorted_and_bounded (o : TOptions) (calls : list TCall)
    (query : TString) :
  StronglySorted lt (BooleanQuery (run o calls) query)
  /\ Forall (fun d => d < GetDocumentCount (run o calls))
       (BooleanQuery (run o calls) query).
Proof.
  unfold BooleanQuery, EvalRpn.
  apply (posting_EvalRpn_loop (index (run o calls)) _
           (index_inv_database o calls) []).
  constructor.
Qed.

End boolean_laws.

Section boolean_search.

Import TBooleanSearch.

Lemma Intersect_same : TBooleanSearch.Intersect = TSearchDatabase.Intersect.
Proof. reflexivity. Qed.

Lemma Union_same : TBooleanSearch.Union = TSearchDatabase.Union.
Proof. reflexivity. Qed.

Lemma SearchAnd_loop_spec (ix : TInvertedIndex.t) (terms : list TString) :
  index_inv ix ->
  forall result,
    StronglySorted lt result ->
    StronglySorted lt (SearchAnd_loop ix terms result)
    /\ forall d,
         d ∈ SearchAnd_loop ix terms result
         <-> d ∈ result
             /\ forall t, t ∈ terms -> d ∈ TInvertedIndex.GetPostingList ix t.
Proof.
  intros Hinv. induction terms as [|term terms IH]; intros result Hs; simpl.
  - split; [exact Hs|]. intros d. split; [|tauto].
    intros H. split; [exact H|]. intros t Ht. inversion Ht.
  - rewrite Intersect_same.
    destruct (posting_GetPostingList ix term Hinv) as [Hpl _].
    pose proof (Intersect_sorted _ _ Hs Hpl) as Hs'.
    assert (Hmem : forall d,
              d ∈ TSearchDatabase.Intersect result
                    (TInvertedIndex.GetPostingList ix term)
              <-> d ∈ result /\ d ∈ TInvertedIndex.GetPostingList ix term).
    { intros d. split; [apply Intersect_sound|].
      intros [H1 H2]. apply Intersect_complete; assumption. }
    destruct (length _ =? 0) eqn:E.
    + split; [exact Hs'|]. intros d. rewrite Hmem. split.
      * intros H. exfalso. apply Nat.eqb_eq in E.
        apply Hmem in H. 
        destruct (TSearchDatabase.Intersect result
                    (TInvertedIndex.GetPostingList ix term));
          [inversion H|discriminate].
      * intros [H1 H2]. split; [exact H1|]. apply H2. left.
    + destruct (IH _ Hs') as [IH1 IH2]. split; [exact IH1|].
      intros d. rewrite IH2, Hmem. split.
      * intros [[H1 H2] H3]. split; [exact H1|].
        intros t Ht. apply elem_of_cons in Ht as [->|Ht]; auto.
      * intros [H1 H2]. split; [split; [exact H1|apply H2; left]|].
        intros t Ht. apply H2. right. exact Ht.
Qed.

(** X6: in an index built by the public calls, [SearchAnd] returns, in
    increasing order, exactly the documents whose posting lists all hold
    them: those that contain every one of the terms.  With no term at all
    the answer is empty. *)
Theorem SearchAnd_every_term (calls : list TInvertedIndex.TCall)
    (terms : list TString) :
  let ix := TInvertedIndex.run calls in
  StronglySorted lt (SearchAnd ix terms)
  /\ forall d,
       d ∈ SearchAnd ix terms
       <-> terms <> []
           /\ forall t, t ∈ terms -> d ∈ TInvertedIndex.GetPostingList ix t.
Proof.
  intros ix. pose proof (index_inv_run calls) as Hinv. fold ix in Hinv.
  destruct terms as [|firstTerm rest]; simpl.
  - split; [constructor|]. intros d. split; [intros H; inversion H|].
    intros [H _]. congruence.
  - destruct (posting_GetPostingList ix firstTerm Hinv) as [Hpl _].
    destruct (SearchAnd_loop_spec ix rest Hinv _ Hpl) as [H1 H2].
    split; [exact H1|]. intros d. unfold Search in *. rewrite H2. split.
    + intros [Ha Hb]. split; [discriminate|].
      intros t Ht. apply elem_of_cons in Ht as [->|Ht]; auto.
    + intros [_ H]. split; [apply H; left|].
      intros t Ht. apply H. right. exact Ht.
Qed.

Lemma SearchOr_fold (ix : TInvertedIndex.t) (terms : list TString) :
  forall result d,
    d ∈ fold_left
          (fun result term =>
             Union result (TInvertedIndex.GetPostingList ix term))
          terms result
    <-> d ∈ result
        \/ exists t, t ∈ terms /\ d ∈ TInvertedIndex.GetPostingList ix t.
Proof.
  induction terms as [|term terms IH]; intros result d; simpl.
  - split; [tauto|]. intros [H|(t & Ht & _)]; [exact H|inversion Ht].
  - rewrite IH, Union_same, Union_elem_of. split.
    + intros [[H|H]|(t & Ht & H)]; [tauto| |].
      * right. exists term. split; [left|exact H].
      * right. exists t. split; [right; exact Ht|exact H].
    + intros [H|(t & Ht & H)]; [tauto|].
      apply elem_of_cons in Ht as [->|Ht]; [tauto|].
      right. exists t. split; assumption.
Qed.

Lemma SearchOr_fold_sorted (ix : TInvertedIndex.t) (terms : list TString) :
  index_inv ix ->
  forall result,
    StronglySorted lt result ->
    StronglySorted lt
      (fold_left
         (fun result term =>
            Union result (TInvertedIndex.GetPostingList ix term))
         terms result).
Proof.
  intros Hinv. induction terms as [|term terms IH]; intros result Hs; simpl;
    [exact Hs|].
  apply IH. rewrite Union_same. apply Union_sorted; [exact Hs|].
  apply (posting_GetPostingList ix term Hinv).
Qed.

(** X7: [SearchOr] returns the documents that are in the posting list of at
    least one of the terms, for every index; in an index built by the
    public calls the result is strictly increasing, without repeats. *)
Theorem SearchOr_some_term (terms : list TString) :
  (forall (ix : TInvertedIndex.t) d,
     d ∈ SearchOr ix terms
     <-> exists t, t ∈ terms /\ d ∈ TInvertedIndex.GetPostingList ix t)
  /\ forall calls, StronglySorted lt (SearchOr (TInvertedIndex.run calls) terms).
Proof.
  split.
  - intros ix d. unfold SearchOr. rewrite SearchOr_fold. split.
    + intros [H|H]; [inversion H|exact H].
    + intros H. right. exact H.
  - intros calls. apply SearchOr_fold_sorted; [apply index_inv_run|constructor].
Qed.

Lemma excludeSet_fold (ix : TInvertedIndex.t) (exclude : list TString) :
  forall (set : gset nat) d,
    d ∈ fold_left
          (fun set term =>
             fold_left (fun set d => {[d]} ∪ set)
               (TInvertedIndex.GetPostingList ix term) set)
          exclude set
    <-> d ∈ set
        \/ exists t, t ∈ exclude /\ d ∈ TInvertedIndex.GetPostingList ix t.
Proof.
  assert (Hin : forall (l : list nat) (set : gset nat) d,
            d ∈ fold_left (fun set d => {[d]} ∪ set) l set
            <-> d ∈ set \/ d ∈ l).
  { induction l as [|x l IH]; intros set d; simpl.
    - split; [tauto|]. intros [H|H]; [exact H|inversion H].
    - rewrite IH, elem_of_union, elem_of_singleton, elem_of_cons. tauto. }
  induction exclude as [|term exclude IH]; intros set d; simpl.
  - split; [tauto|]. intros [H|(t & Ht & _)]; [exact H|inversion Ht].
  - rewrite IH, Hin. split.
    + intros [[H|H]|(t & Ht & H)]; [tauto| |].
      * right. exists term. split; [left|exact H].
      * right. exists t. split; [right; exact Ht|exact H].
    + intros [H|(t & Ht & H)]; [tauto|].
      apply elem_of_cons in Ht as [->|Ht]; [tauto|].
      right. exists t. split; assumption.
Qed.

(** X8: [SearchNot] keeps, in their order, the ids of [universe] that are not
    in the posting list of the term; [SearchAndNot] keeps the results of
    [SearchAnd] on the included terms that are in the posting list of no
    excluded term. *)
Theorem SearchNot_filters (ix : TInvertedIndex.t) (term : TString)
    (universe : list nat) (include exclude : list TString) (d : nat) :
  SearchNot ix term universe
  = List.filter
      (fun u => negb (bool_decide (u ∈ TInvertedIndex.GetPostingList ix term)))
      universe
  /\ (d ∈ SearchAndNot ix include exclude
      <-> d ∈ SearchAnd ix include
          /\ forall t, t ∈ exclude ->
                       d ∉ TInvertedIndex.GetPostingList ix t).
Proof.
  split.
  - unfold SearchNot. apply List.filter_ext. intros u. f_equal.
    apply bool_decide_ext. apply elem_of_list_to_set.
  - unfold SearchAndNot.
    rewrite list_elem_of_In, filter_In, <- list_elem_of_In, negb_true_iff,
      bool_decide_eq_false, excludeSet_fold.
    split.
    + intros [H1 H2]. split; [exact H1|]. intros t Ht Hd.
      apply H2. right. exists t. split; assumption.
    + intros [H1 H2]. split; [exact H1|].
      intros [H|(t & Ht & Hd)]; [inversion H|]. apply (H2 t Ht Hd).
Qed.

End boolean_search.


(** * Inverted index: adding a document *)

Section adding_a_document.

Import TInvertedIndex.

Lemma TString_eqb_iff (a b : TString) : TString_eqb a b = true <-> a = b.
Proof.
  split; [apply TString_eqb_eq|]. intros ->. apply TString_eqb_refl.
Qed.

Lemma TString_eqb_neq (a b : TString) : a <> b -> TString_eqb a b = false.
Proof.
  intros H. destruct (TString_eqb a b) eqn:E; [|reflexivity].
  apply TString_eqb_eq in E. contradiction.
Qed.

Lemma occurrences_snoc (t term : TString) (done : list TString) :
  occurrences t (done ++ [term])
  = occurrences t done + (if decide (t = term) then 1 else 0).
Proof.
  unfold occurrences. rewrite List.filter_app, length_app. simpl.
  destruct (decide (t = term)) as [->|Hne].
  - rewrite TString_eqb_refl. reflexivity.
  - rewrite TString_eqb_neq by exact Hne. reflexivity.
Qed.

Lemma mentions_snoc (t term : TString) (done : list TString) :
  mentions t (done ++ [term])
  = mentions t done || (if decide (t = term) then true else false).
Proof.
  unfold mentions. rewrite existsb_app. simpl. rewrite orb_false_r.
  destruct (decide (t = term)) as [->|Hne].
  - rewrite TString_eqb_refl. reflexivity.
  - rewrite TString_eqb_neq by exact Hne. reflexivity.
Qed.

Lemma GetPostingList_AddTermToIndex (ix : t) (term t' : TString) (docId : nat) :
  GetPostingList (AddTermToIndex ix term docId) t'
  = if decide (t' = term) then
      let l := GetPostingList ix term in
      if (length l =? 0) || negb (List.last l 0 =? docId)
      then l ++ [docId] else l
    else GetPostingList ix t'.
Proof.
  unfold AddTermToIndex, GetPostingList.
  destruct (Index_ ix !! term) as [l|] eqn:E.
  - cbv zeta.
    destruct ((length l =? 0) || negb (List.last l 0 =? docId)); simpl.
    + destruct (decide (t' = term)) as [->|Hne].
      * rewrite lookup_insert_eq. reflexivity.
      * rewrite lookup_insert_ne by congruence. reflexivity.
    + destruct (decide (t' = term)) as [->|Hne]; [rewrite E|]; reflexivity.
  - simpl. destruct (decide (t' = term)) as [->|Hne].
    + rewrite lookup_insert_eq. reflexivity.
    + rewrite lookup_insert_ne by congruence. reflexivity.
Qed.

Lemma AddTermToIndex_fields (ix : t) (term : TString) (docId : nat) :
  Documents_ (AddTermToIndex ix term docId) = Documents_ ix
  /\ TermFrequencies_ (AddTermToIndex ix term docId) = TermFrequencies_ ix
  /\ DocTermCounts_ (AddTermToIndex ix term docId) = DocTermCounts_ ix
  /\ NextDocId_ (AddTermToIndex ix term docId) = NextDocId_ ix.
Proof.
  unfold AddTermToIndex. destruct (Index_ ix !! term) as [l|].
  - destruct ((length l =? 0) || negb (List.last l 0 =? docId)); simpl; tauto.
  - simpl. tauto.
Qed.

Lemma last_snoc (l : list nat) (x d : nat) : List.last (l ++ [x]) d = x.
Proof. apply last_last. Qed.

Lemma adding_step (ix0 : t) (docId : nat) (done : list TString) (cur : t)
    (k : nat) (term : TString) :
  (forall term, Forall (fun d => d < docId) (GetPostingList ix0 term)) ->
  adding ix0 docId done cur ->
  adding ix0 docId (done ++ [term])
    (fst (AddDocument_step docId (cur, k) term)).
Proof.
  intros Hold [Hdocs Hcounts Hnext Hother Htf Hpl].
  unfold AddDocument_step. cbn [fst snd].
  destruct (AddTermToIndex_fields cur term docId) as (F1 & F2 & F3 & F4).
  rewrite IncrementTermFrequency_spec.
  constructor; cbn [Documents_ DocTermCounts_ NextDocId_ TermFrequencies_ Index_].
  - congruence.
  - congruence.
  - congruence.
  - intros d Hd. rewrite lookup_insert_ne by congruence.
    rewrite F2. apply Hother, Hd.
  - intros t'. unfold GetTermFrequency. cbn [TermFrequencies_].
    rewrite lookup_insert_eq. rewrite occurrences_snoc.
    assert (Hm : tfmap (AddTermToIndex cur term docId) docId = tfmap cur docId).
    { unfold tfmap. rewrite F2. reflexivity. }
    rewrite Hm. specialize (Htf t'). rewrite GetTermFrequency_tfmap in Htf.
    destruct (decide (t' = term)) as [->|Hne].
    + rewrite lookup_insert_eq. pose proof (Htf) as Htf'. lia.
    + rewrite lookup_insert_ne by congruence.
      destruct (tfmap cur docId !! t'); simpl in *; lia.
  - intros t'.
    change (GetPostingList
              (Mk (Index_ (AddTermToIndex cur term docId)) 
                 (Documents_ (AddTermToIndex cur term docId))
                 (<[docId:=<[term:=S (default 0 (tfmap (AddTermToIndex cur term docId) docId !! term))]>
                      (tfmap (AddTermToIndex cur term docId) docId)]>
                    (TermFrequencies_ (AddTermToIndex cur term docId)))
                 (DocTermCounts_ (AddTermToIndex cur term docId))
                 (NextDocId_ (AddTermToIndex cur term docId))) t')
      with (GetPostingList (AddTermToIndex cur term docId) t').
    rewrite GetPostingList_AddTermToIndex, mentions_snoc.
    destruct (decide (t' = term)) as [->|Hne].
    + cbv zeta. rewrite Hpl. rewrite orb_true_r.
      destruct (mentions term done).
      * rewrite last_snoc, Nat.eqb_refl, length_app. simpl.
        replace (length (GetPostingList ix0 term) + 1 =? 0) with false
          by (symmetry; apply Nat.eqb_neq; lia).
        reflexivity.
      * rewrite app_nil_r.
        assert (E : (length (GetPostingList ix0 term) =? 0)
                    || negb (List.last (GetPostingList ix0 term) 0 =? docId)
                    = true).
        { specialize (Hold term).
          destruct (GetPostingList ix0 term) as [|x l] eqn:El; [reflexivity|].
          simpl length. cbn [Nat.eqb orb].
          apply negb_true_iff, Nat.eqb_neq.
          rewrite Forall_forall in Hold.
          assert (List.last (x :: l) 0 < docId).
          { apply Hold, last_elem_of. discriminate. }
          lia. }
        rewrite E. reflexivity.
    + rewrite orb_false_r. apply Hpl.
Qed.

Lemma adding_fold (ix0 : t) (docId : nat) (terms : list TString) :
  (forall term, Forall (fun d => d < docId) (GetPostingList ix0 term)) ->
  forall done cur k,
    adding ix0 docId done cur ->
    adding ix0 docId (done ++ terms)
      (fst (fold_left (AddDocument_step docId) terms (cur, k)))
    /\ snd (fold_left (AddDocument_step docId) terms (cur, k))
       = k + length terms.
Proof.
  intros Hold. induction terms as [|term terms IH]; intros done cur k H; simpl.
  - rewrite app_nil_r. split; [exact H|lia].
  - pose proof (adding_step ix0 docId done cur k term Hold H) as H'.
    change (AddDocument_step docId (cur, k) term)
      with (fst (AddDocument_step docId (cur, k) term), S k).
    destruct (IH _ _ (S k) H') as [IH1 IH2].
    rewrite <- app_assoc in IH1. simpl in IH1. split; [exact IH1|lia].
Qed.

Lemma AddDocument_effect (ix : t) (terms : list TString) :
  index_inv ix ->
  snd (AddDocument ix terms) = NextDocId_ ix
  /\ NextDocId_ (fst (AddDocument ix terms)) = S (NextDocId_ ix)
  /\ (forall term,
        GetTermFrequency (fst (AddDocument ix terms)) (NextDocId_ ix) term
        = occurrences term terms)
  /\ (forall term,
        GetPostingList (fst (AddDocument ix terms)) term
        = GetPostingList ix term
          ++ (if mentions term terms then [NextDocId_ ix] else []))
  /\ (forall d term, d <> NextDocId_ ix ->
        GetTermFrequency (fst (AddDocument ix terms)) d term
        = GetTermFrequency ix d term)
  /\ GetDocumentLength (fst (AddDocument ix terms)) (NextDocId_ ix)
     = length terms
  /\ forall d, d <> NextDocId_ ix ->
       GetDocumentLength (fst (AddDocument ix terms)) d = GetDocumentLength ix d.
Proof.
  intros Hinv. unfold AddDocument.
  set (docId := NextDocId_ ix).
  set (ix1 := Mk (Index_ ix) (Documents_ ix) (TermFrequencies_ ix)
                (DocTermCounts_ ix) (S docId)).
  assert (Hold : forall term,
            Forall (fun d => d < docId) (GetPostingList ix term)).
  { intros term. apply (posting_GetPostingList ix term Hinv). }
  assert (H1 : adding ix docId [] ix1).
  { constructor; subst ix1; simpl; try reflexivity.
    - intros term. unfold GetTermFrequency. simpl.
      destruct (ii_fresh _ Hinv docId ltac:(subst docId; lia)) as [_ Hf].
      rewrite Hf. reflexivity.
    - intros term. rewrite app_nil_r. reflexivity. }
  destruct (adding_fold ix docId terms Hold [] ix1 0 H1) as [H2 H3].
  destruct (fold_left (AddDocument_step docId) terms (ix1, 0)) as [ix2 n].
  cbn [fst snd app] in *. destruct H2 as [Hdocs Hcounts Hnext Hother Htf Hpl].
  split; [reflexivity|]. split; [exact Hnext|].
  split; [exact Htf|]. split; [exact Hpl|]. split; [|split].
  - intros d term Hd. unfold GetTermFrequency. cbn [TermFrequencies_].
    rewrite (Hother d Hd). reflexivity.
  - unfold GetDocumentLength. simpl. rewrite lookup_insert_eq. exact H3.
  - intros d Hd. unfold GetDocumentLength. simpl.
    rewrite lookup_insert_ne by congruence. rewrite Hcounts. reflexivity.
Qed.

(** X9: adding a document to an index built by the public calls: the new id is
    the document count before the call, and the count grows by one; for the
    new id the frequency of a term is the number of its occurrences among
    the terms handed over and the length is their number; the posting list
    of a term gets the new id appended, once, exactly when the term occurs;
    the frequencies and lengths of the other documents stay what they were. *)
Theorem AddDocument_records_the_terms (calls : list TCall)
    (terms : list TString) (term : TString) (d : TDocId) :
  let ix := run calls in
  let ix' := fst (AddDocument ix terms) in
  let docId := snd (AddDocument ix terms) in
  docId = GetDocumentCount ix
  /\ GetDocumentCount ix' = S docId
  /\ GetTermFrequency ix' docId term = occurrences term terms
  /\ GetDocumentLength ix' docId = length terms
  /\ GetPostingList ix' term
     = GetPostingList ix term ++ (if mentions term terms then [docId] else [])
  /\ (d <> docId ->
      GetTermFrequency ix' d term = GetTermFrequency ix d term
      /\ GetDocumentLength ix' d = GetDocumentLength ix d).
Proof.
  intros ix ix' docId.
  destruct (AddDocument_effect ix terms (index_inv_run calls))
    as (Hid & Hnext & Htf & Hpl & Hother & Hlen & Hlens).
  fold ix' in Hnext, Htf, Hpl, Hother, Hlen, Hlens.
  fold docId in Hid. unfold GetDocumentCount. rewrite Hid.
  split; [reflexivity|]. split; [exact Hnext|]. split; [apply Htf|].
  split; [exact Hlen|]. split; [apply Hpl|].
  intros Hd. split; [apply Hother, Hd|apply Hlens, Hd].
Qed.

(** X9 on a concrete input. *)
Lemma AddDocument_records_witness :
  let ix := run [CallAddDocument [lit "a"; lit "b"]] in
  let ix' := fst (AddDocument ix [lit "b"; lit "c"; lit "b"]) in
  GetTermFrequency ix' 0 (lit "b") = GetTermFrequency ix 0 (lit "b")
  /\ GetDocumentLength ix' 0 = GetDocumentLength ix 0.
Proof.
  apply (AddDocument_records_the_terms [CallAddDocument [lit "a"; lit "b"]]
           [lit "b"; lit "c"; lit "b"] (lit "b") 0).
  vm_compute. lia.
Defined.

End adding_a_document.


(** * Inverted index: term statistics; clearing *)

Section term_statistics.

Import TInvertedIndex.

Lemma no_empty_list_step (docId : nat) (st : t * nat) (term : TString) :
  no_empty_list (fst st) ->
  no_empty_list (fst (AddDocument_step docId st term)).
Proof.
  intros H. unfold AddDocument_step. cbn [fst].
  rewrite IncrementTermFrequency_spec. unfold no_empty_list. cbn [Index_].
  unfold AddTermToIndex. intros t' l.
  destruct (Index_ (fst st) !! term) as [l0|] eqn:E.
  - destruct ((length l0 =? 0) || negb (List.last l0 0 =? docId));
      cbn [Index_]; [|apply H].
    destruct (decide (term = t')) as [->|Hne].
    + rewrite lookup_insert_eq. intros [= <-]. destruct l0; discriminate.
    + rewrite lookup_insert_ne by exact Hne. apply H.
  - cbn [Index_]. destruct (decide (term = t')) as [->|Hne].
    + rewrite lookup_insert_eq. intros [= <-]. discriminate.
    + rewrite lookup_insert_ne by exact Hne. apply H.
Qed.

Lemma no_empty_list_AddDocument (ix : t) (terms : list TString) :
  no_empty_list ix -> no_empty_list (fst (AddDocument ix terms)).
Proof.
  intros H. unfold AddDocument.
  set (ix1 := Mk _ _ _ _ (S (NextDocId_ ix))).
  assert (H1 : no_empty_list (fst (ix1, 0))) by exact H.
  generalize dependent (ix1, 0). clear ix1.
  induction terms as [|term terms IH]; intros st Hst; simpl.
  - destruct st as [ix2 n]. exact Hst.
  - apply IH, no_empty_list_step, Hst.
Qed.

Lemma no_empty_list_run (calls : list TCall) : no_empty_list (run calls).
Proof.
  unfold run.
  assert (H0 : no_empty_list new).
  { intros term l H. unfold new in H. simpl in H.
    rewrite lookup_empty in H. discriminate. }
  generalize dependent new.
  induction calls as [|c calls IH]; intros ix H; simpl; [exact H|].
  apply IH. destruct c as [terms|terms raw|]; simpl.
  - apply no_empty_list_AddDocument, H.
  - unfold AddDocumentRaw.
    pose proof (no_empty_list_AddDocument ix terms H) as H'.
    destruct (AddDocument ix terms) as [ix' docId]. exact H'.
  - intros term l Hl. simpl in Hl. rewrite lookup_empty in Hl. discriminate.
Qed.

(** X10: in an index built by the public calls, the document frequency of a term
    is the length of its posting list and never exceeds the number of
    documents, and [ContainsTerm] holds exactly for the terms with a
    positive document frequency, which are those that occur in some
    document of the index. *)
Theorem document_frequency_bounds (calls : list TCall) (term : TString) :
  let ix := run calls in
  GetDocumentFrequency ix term = length (GetPostingList ix term)
  /\ GetDocumentFrequency ix term <= GetDocumentCount ix
  /\ (ContainsTerm ix term = true <-> 0 < GetDocumentFrequency ix term)
  /\ (ContainsTerm ix term = true
      <-> exists d, d < GetDocumentCount ix /\ 0 < GetTermFrequency ix d term).
Proof.
  intros ix. pose proof (index_inv_run calls) as Hinv. fold ix in Hinv.
  pose proof (no_empty_list_run calls) as Hne. fold ix in Hne.
  destruct (posting_GetPostingList ix term Hinv) as [Hs Hb].
  assert (Hdf : GetDocumentFrequency ix term = length (GetPostingList ix term)).
  { unfold GetDocumentFrequency, GetPostingList.
    destruct (Index_ ix !! term); reflexivity. }
  assert (Hc : ContainsTerm ix term = true <-> 0 < GetDocumentFrequency ix term).
  { unfold ContainsTerm, GetDocumentFrequency.
    destruct (Index_ ix !! term) as [l|] eqn:E.
    - specialize (Hne _ _ E). destruct l; [congruence|]. simpl.
      split; [lia|reflexivity].
    - split; [discriminate|lia]. }
  split; [exact Hdf|]. split; [|split; [exact Hc|]].
  - rewrite Hdf.
    pose proof (sorted_length_le _ Hs 0 (GetDocumentCount ix)) as H.
    rewrite Nat.sub_0_r in H. apply H.
    unfold below in Hb. rewrite Forall_forall in *. intros d Hd.
    specialize (Hb _ Hd). lia.
  - rewrite Hc, Hdf. split.
    + intros Hlen. destruct (GetPostingList ix term) as [|d l] eqn:E;
        [simpl in Hlen; lia|].
      exists d. unfold below in Hb. rewrite Forall_forall in Hb. split.
      * apply Hb. left.
      * apply (ii_tf _ Hinv). rewrite E. left.
    + intros (d & _ & Hd). apply (ii_tf _ Hinv) in Hd.
      destruct (GetPostingList ix term); [inversion Hd|simpl; lia].
Qed.

End term_statistics.


(** * LZW: sizes, and bytes after the stream *)

Section packed_size.

Import TLzw.
Local Open Scope Z_scope.

Local Abbreviation o := default_options.

Lemma packed_step (k : nat) (st : Z * Z * TBytes) (c : Z) :
  code_in_range c -> packed k st -> packed (S k) (pack_step o st c).
Proof.
  intros Hc. destruct st as [[buffer bits] out].
  intros [Hout [(-> & -> & Hlen)|(Hr & -> & Hlen)]].
  - rewrite pack_step_even by exact Hc. unfold code_in_range in Hc.
    split.
    + apply Forall_app. split; [exact Hout|].
      constructor; [|constructor]. apply Z.mod_pos_bound. lia.
    + right. split; [|split; [reflexivity|]].
      * split; [apply Z.div_pos; lia|apply Z.div_lt_upper_bound; lia].
      * rewrite length_app. simpl. lia.
  - rewrite pack_step_odd by assumption. unfold code_in_range in Hc.
    split.
    + repeat (apply Forall_app; split); try exact Hout;
        (constructor; [|constructor]).
      * apply Z.mod_pos_bound. lia.
      * split; [apply Z.div_pos; lia|apply Z.div_lt_upper_bound; lia].
    + left. split; [reflexivity|split; [reflexivity|]].
      rewrite !length_app. simpl. lia.
Qed.

Lemma packed_fold (codes : list Z) :
  Forall code_in_range codes ->
  forall k st,
    packed k st ->
    packed (k + length codes) (fold_left (pack_step o) codes st).
Proof.
  induction 1 as [|c codes Hc _ IH]; intros k st H; simpl.
  - rewrite Nat.add_0_r. exact H.
  - replace (k + S (length codes))%nat with (S k + length codes)%nat by lia.
    apply IH, packed_step; assumption.
Qed.

Lemma PackCodes_shape (codes : list Z) :
  Forall code_in_range codes ->
  length (PackCodes o codes) = ((3 * length codes + 1) / 2)%nat
  /\ Forall is_byte (PackCodes o codes).
Proof.
  intros Hall.
  assert (H0 : packed 0 (0, 0, [])).
  { split; [constructor|]. left. repeat split. }
  pose proof (packed_fold codes Hall 0%nat _ H0) as H. simpl in H.
  unfold PackCodes.
  destruct (fold_left (pack_step o) codes (0, 0, [])) as [[buffer bits] out].
  destruct H as [Hout [(-> & -> & Hlen)|(Hr & -> & Hlen)]].
  - change (0 <? 0) with false. cbv iota. split; [|exact Hout].
    apply Nat.div_unique with (r := 1%nat); lia.
  - change (0 <? 4) with true. cbv iota. split.
    + rewrite length_app. cbn [length].
      apply Nat.div_unique with (r := 0%nat); lia.
    + apply Forall_app. split; [exact Hout|].
      constructor; [|constructor].
      rewrite land_255. apply Z.mod_pos_bound. lia.
Qed.

(** X12: codes of twelve bits are packed two to three bytes: [n] codes take
    [(3 n + 1) / 2] bytes, each in the range of a byte, and [UnpackCodes]
    reads the same codes back. *)
Theorem PackCodes_size_and_round_trip (codes : list Z) :
  Forall code_in_range codes ->
  length (PackCodes o codes) = ((3 * length codes + 1) / 2)%nat
  /\ Forall is_byte (PackCodes o codes)
  /\ UnpackCodes o (PackCodes o codes) = codes.
Proof.
  intros H. destruct (PackCodes_shape codes H) as [H1 H2].
  split; [exact H1|]. split; [exact H2|].
  apply UnpackCodes_PackCodes, H.
Qed.

(** X12 on a concrete input. *)
Lemma PackCodes_size_and_round_trip_witness :
  length (PackCodes o [97; 4000; 4095]) = 5%nat
  /\ Forall is_byte (PackCodes o [97; 4000; 4095])
  /\ UnpackCodes o (PackCodes o [97; 4000; 4095]) = [97; 4000; 4095].
Proof.
  apply (PackCodes_size_and_round_trip [97; 4000; 4095]).
  repeat constructor; unfold code_in_range; lia.
Defined.

(** ** Bytes after the compressed stream *)

Lemma unpack_drain_appends (fuel : nat) :
  forall buffer bits codes,
    exists more, snd (unpack_drain o fuel buffer bits codes) = codes ++ more.
Proof.
  induction fuel as [|fuel IH]; intros buffer bits codes.
  - exists []. simpl. rewrite app_nil_r. reflexivity.
  - rewrite unpack_drain_unfold. destruct (12 <=? bits).
    + destruct (IH (Z.shiftr buffer 12) (bits - 12)
                  (codes ++ [wrap16 (Z.land buffer (code_mask o))]))
        as [more Hm].
      rewrite Hm, <- app_assoc. eauto.
    + exists []. simpl. rewrite app_nil_r. reflexivity.
Qed.

Lemma unpack_fold_appends (data : TBytes) :
  forall st,
    exists more, snd (fold_left (unpack_step o) data st) = snd st ++ more.
Proof.
  induction data as [|b data IH]; intros st; simpl.
  - exists []. rewrite app_nil_r. reflexivity.
  - destruct (IH (unpack_step o st b)) as [more Hm]. rewrite Hm.
    destruct st as [[buffer bits] codes]. unfold unpack_step.
    destruct (unpack_drain_appends
                (Z.to_nat (wrap32 (bits + 8)))
                (Z.lor buffer (wrap32 (Z.shiftl (b mod 256) bits)))
                (wrap32 (bits + 8)) codes) as [more' Hm'].
    rewrite Hm'. cbn [snd]. rewrite <- app_assoc. eauto.
Qed.

Lemma UnpackCodes_app (data junk : TBytes) :
  exists more, UnpackCodes o (data ++ junk) = UnpackCodes o data ++ more.
Proof.
  unfold UnpackCodes. rewrite fold_left_app.
  destruct (unpack_fold_appends junk (fold_left (unpack_step o) data (0, 0, [])))
    as [more Hm].
  exists more.
  destruct (fold_left (unpack_step o) junk _) as [[b1 b2] c1].
  destruct (fold_left (unpack_step o) data _) as [[b3 b4] c2].
  exact Hm.
Qed.

Lemma Decompress_loop_END (pre junk : list Z) :
  forall dict n w out,
    Decompress_loop o (pre ++ 4095 :: junk) dict n w out
    = Decompress_loop o (pre ++ [4095]) dict n w out.
Proof.
  induction pre as [|k pre IH]; intros dict n w out; [reflexivity|].
  cbn [app Decompress_loop].
  destruct (k =? EndCode o); [reflexivity|].
  match goal with
  | |- match ?e with Some _ => _ | None => _ end = _ => destruct e as [entry|]
  end; [|reflexivity].
  match goal with
  | |- (if ?c then _ else _) = _ => destruct c
  end; apply IH.
Qed.

Lemma DecompressCodes_END (pre junk : list Z) :
  DecompressCodes o (pre ++ 4095 :: junk) = DecompressCodes o (pre ++ [4095]).
Proof.
  destruct pre as [|k pre]; [reflexivity|].
  cbn [app DecompressCodes].
  destruct (k =? EndCode o); [reflexivity|].
  destruct (Z.of_nat (length initial_table) <=? k); [reflexivity|].
  apply Decompress_loop_END.
Qed.

Lemma CompressCodes_ends (x : TString) :
  exists body, CompressCodes o x = body ++ [4095].
Proof. unfold CompressCodes. eauto. Qed.

(** X13: decoding stops at the END code: whatever bytes follow a compressed
    stream, [Decompress] returns the text that was compressed. *)
Theorem Decompress_ignores_trailing_bytes (x : TString) (junk : TBytes) :
  Decompress o (Compress o x ++ junk) = x.
Proof.
  unfold Decompress, Compress.
  destruct (DecompressCodes_CompressCodes x) as [Hrange Hdec].
  destruct (UnpackCodes_app (PackCodes o (CompressCodes o x)) junk)
    as [more Hm].
  rewrite Hm, UnpackCodes_PackCodes by exact Hrange.
  destruct (CompressCodes_ends x) as [body Hb]. rewrite Hb in *.
  rewrite <- app_assoc. cbn [app]. rewrite DecompressCodes_END. exact Hdec.
Qed.

(** ** Size of the compressed stream *)

Lemma Compress_step_pending (st : TEncoder) (c : ascii) :
  (pending (Compress_step o st c) <= S (pending st))%nat.
Proof.
  unfold pending, Compress_step.
  destruct (enc_w st) as [|c0 w]; cbn [enc_w enc_codes length Nat.eqb].
  - lia.
  - destruct (enc_dict st !! ((c0 :: w) ++ [c])).
    + cbn [enc_w enc_codes]. rewrite length_app. simpl. lia.
    + destruct (enc_dict st !! (c0 :: w));
        destruct (enc_nextCode st <? EndCode o);
        cbn [enc_w enc_codes length Nat.eqb]; rewrite ?length_app; simpl; lia.
Qed.

Lemma Compress_fold_pending (input : TString) :
  forall st,
    (pending (fold_left (Compress_step o) input st)
     <= pending st + length input)%nat.
Proof.
  induction input as [|c input IH]; intros st; simpl; [lia|].
  pose proof (IH (Compress_step o st c)).
  pose proof (Compress_step_pending st c). lia.
Qed.

Lemma CompressCodes_length (x : TString) :
  (1 <= length (CompressCodes o x) <= length x + 1)%nat.
Proof.
  unfold CompressCodes.
  pose proof (Compress_fold_pending x
                (MkEncoder initial_dict (FirstFreeCode o) [] [])) as H.
  destruct (fold_left (Compress_step o) x _) as [dict n w codes].
  unfold pending in H. cbn [enc_w enc_codes enc_dict length Nat.eqb] in *.
  rewrite length_app. simpl.
  destruct w as [|c0 w]; [simpl in H; lia|].
  destruct (dict !! (c0 :: w)); rewrite ?length_app; simpl in *; lia.
Qed.

(** X14: [Compress] emits at most one code for every input byte, and the END
    code after them; the stream is never empty and never longer than
    [(3 (n + 1) + 1) / 2] bytes for an input of [n] bytes. *)
Theorem Compress_size_bound (x : TString) :
  (1 <= length (CompressCodes o x) <= length x + 1)%nat
  /\ List.last (CompressCodes o x) 0 = 4095
  /\ (2 <= length (Compress o x) <= (3 * (length x + 1) + 1) / 2)%nat.
Proof.
  pose proof (CompressCodes_length x) as Hlen.
  split; [exact Hlen|]. split.
  - destruct (CompressCodes_ends x) as [body ->]. apply last_last.
  - unfold Compress.
    destruct (DecompressCodes_CompressCodes x) as [Hrange _].
    destruct (PackCodes_shape _ Hrange) as [-> _].
    split.
    + apply (Nat.div_le_lower_bound _ 2 2); lia.
    + apply Nat.Div0.div_le_mono. lia.
Qed.

End packed_size.


(** * TF-IDF ranking: what the search returns *)

Section sorting_keeps_the_results.

Import TTfIdf.

Lemma insert_swap_Permutation {A} (l : list A) (i j : nat) (a b : A) :
  i < j -> l !! i = Some a -> l !! j = Some b ->
  <[j := a]> (<[i := b]> l) ≡ₚ l.
Proof.
  intros Hij Ha Hb.
  apply list_elem_of_split_length in Ha as (l1 & l2 & -> & ->).
  rewrite lookup_app_r in Hb by lia.
  replace (j - length l1) with (S (j - S (length l1))) in Hb by lia.
  cbn [lookup list_lookup] in Hb.
  apply list_elem_of_split_length in Hb as (l3 & l4 & -> & Hj).
  replace j with (length l1 + S (length l3)) by lia.
  replace (length l1) with (length l1 + 0) at 2 by lia.
  rewrite (insert_app_r l1 _ 0 b). cbn [insert list_insert].
  rewrite (insert_app_r l1 _ (S (length l3)) a). cbn [insert list_insert].
  replace (length l3) with (length l3 + 0) by lia.
  rewrite (insert_app_r l3 _ 0 a). cbn [insert list_insert].
  apply Permutation_app_head.
  rewrite <- !Permutation_middle. apply Permutation_swap.
Qed.

Lemma swap_if_greater_Permutation (i j : nat) (rs : list TSearchResult) :
  i < j -> swap_if_greater i j rs ≡ₚ rs.
Proof.
  intros Hij. unfold swap_if_greater.
  destruct (rs !! i) as [ri|] eqn:Ei; [|reflexivity].
  destruct (rs !! j) as [rj|] eqn:Ej; [|reflexivity].
  destruct (Score ri <? Score rj)%float; [|reflexivity].
  apply insert_swap_Permutation; assumption.
Qed.

Lemma SortResults_inner_Permutation (i : nat) (rs : list TSearchResult) :
  SortResults_inner i rs ≡ₚ rs.
Proof.
  unfold SortResults_inner.
  assert (H : forall js rs0,
            Forall (fun j => i < j) js ->
            fold_left (fun rs j => swap_if_greater i j rs) js rs0 ≡ₚ rs0).
  { induction js as [|j js IH]; intros rs0 Hjs; simpl; [reflexivity|].
    apply Forall_cons in Hjs as [Hj Hjs].
    rewrite IH by exact Hjs. apply swap_if_greater_Permutation, Hj. }
  apply H. apply Forall_forall. intros j Hj.
  apply list_elem_of_In, in_seq in Hj. lia.
Qed.

Lemma SortResults_Permutation (rs : list TSearchResult) :
  SortResults rs ≡ₚ rs.
Proof.
  unfold SortResults. generalize (seq 0 (length rs)). intros idxs.
  revert rs. induction idxs as [|i idxs IH]; intros rs; simpl; [reflexivity|].
  rewrite IH. apply SortResults_inner_Permutation.
Qed.

(** X15: [SortResults] rearranges: the sorted vector holds the same results as
    the vector it was given, each as often, and is in non-increasing score
    order. *)
Theorem SortResults_rearranges (rs : list TSearchResult) :
  SortResults rs ≡ₚ rs /\ NonIncreasingScores (SortResults rs).
Proof. split; [apply SortResults_Permutation|apply SortResults_sorted]. Qed.

End sorting_keeps_the_results.

Section probing_loop.

Import TUnorderedSet.
Local Open Scope Z_scope.

Lemma sum_slack_insert (slots : list TSlot) (i : nat) (s : TSlot) :
  (i < length slots)%nat ->
  (sum_list_with slack (<[i := s]> slots) + slack (nth i slots empty_slot)
   = sum_list_with slack slots + slack s)%nat.
Proof.
  revert i. induction slots as [|x slots IH]; intros i Hi; cbn [length] in Hi;
    [lia|].
  destruct i as [|i]; cbn [sum_list_with nth]; simpl.
  - lia.
  - specialize (IH i ltac:(lia)). lia.
Qed.

Lemma occupied_in_range (m : t) (idx : Z) :
  State (slot_at m idx) = Occupied -> (Z.to_nat idx < length (Slots_ m))%nat.
Proof.
  unfold slot_at. intros H.
  destruct (Nat.lt_ge_cases (Z.to_nat idx) (length (Slots_ m))) as [Hlt | Hge];
    [exact Hlt|].
  rewrite nth_overflow in H by exact Hge. discriminate.
Qed.

Lemma probe_ends (fuel : nat) :
  forall m idx probeDistance key,
    0 <= probeDistance ->
    (sum_list_with slack (Slots_ m)
     + Z.to_nat (MAX_PROBE_DISTANCE + 1 - probeDistance) < fuel)%nat ->
    probe fuel m idx probeDistance key <> None.
Proof.
  induction fuel as [|fuel IH]; intros m idx d k Hd Hfuel; [lia|].
  cbn [probe].
  destruct (d <=? MAX_PROBE_DISTANCE) eqn:Ed; [|discriminate].
  apply Z.leb_le in Ed. unfold MAX_PROBE_DISTANCE in *.
  destruct (State (slot_at m idx)) eqn:Es; try discriminate.
  destruct (Key (slot_at m idx) =? k)%nat; [discriminate|].
  destruct (ProbeDistance (slot_at m idx) <? d) eqn:Elt.
  - apply Z.ltb_lt in Elt. apply IH.
    + apply Z.mod_pos_bound. lia.
    + pose proof (sum_slack_insert (Slots_ m) (Z.to_nat idx)
                    (MkSlot k Occupied d) (occupied_in_range m idx Es)) as Hsum.
      fold (slot_at m idx) in Hsum. cbn [set_slot Slots_].
      change (slack (slot_at m idx))
        with (Z.to_nat (128 - ProbeDistance (slot_at m idx))) in Hsum.
      change (slack (MkSlot k Occupied d)) with (Z.to_nat (128 - d)) in Hsum.
      assert (Hd' : (Z.to_nat (128 + 1 - (ProbeDistance (slot_at m idx) + 1) mod 256)
                     <= Z.to_nat (128 - ProbeDistance (slot_at m idx)))%nat).
      { destruct (Z.lt_ge_cases (ProbeDistance (slot_at m idx)) 0) as [Hneg | Hpos].
        - pose proof (Z.mod_pos_bound (ProbeDistance (slot_at m idx) + 1) 256
                        ltac:(lia)). lia.
        - rewrite Z.mod_small by lia. lia. }
      lia.
  - apply Z.ltb_ge in Elt. apply IH.
    + apply Z.mod_pos_bound. lia.
    + rewrite Z.mod_small by lia. lia.
Qed.

Lemma probe_more_fuel (fuel : nat) :
  forall m idx probeDistance key more,
    probe fuel m idx probeDistance key <> None ->
    probe (fuel + more) m idx probeDistance key
    = probe fuel m idx probeDistance key.
Proof.
  induction fuel as [|fuel IH]; intros m idx d k more H; [contradiction H; reflexivity|].
  cbn [probe Nat.add] in *.
  destruct (d <=? MAX_PROBE_DISTANCE); [|reflexivity].
  destruct (State (slot_at m idx)); try reflexivity.
  destruct (Key (slot_at m idx) =? k)%nat; [reflexivity|].
  destruct (ProbeDistance (slot_at m idx) <? d); apply IH, H.
Qed.

(** X27: the probing loop of [InsertInternal] ends: started with probe distance
    0 on any table, at any slot, it comes to a result (the key placed, the
    key found, or the probe distance in hand above [MAX_PROBE_DISTANCE])
    within [probe_rounds m] rounds, and rounds allowed beyond these change
    nothing. *)
Theorem probing_loop_ends (m : t) (idx : Z) (key : TDocId) :
  exists r,
    probe (probe_rounds m) m idx 0 key = Some r
    /\ forall more, probe (probe_rounds m + more) m idx 0 key = Some r.
Proof.
  assert (H : probe (probe_rounds m) m idx 0 key <> None).
  { apply probe_ends; [lia|]. unfold probe_rounds, MAX_PROBE_DISTANCE. lia. }
  destruct (probe (probe_rounds m) m idx 0 key) as [r|] eqn:E;
    [|contradiction H; reflexivity].
  exists r. split; [reflexivity|].
  intros more. rewrite probe_more_fuel; [exact E|].
  rewrite E. discriminate.
Qed.

End probing_loop.

Section candidate_set.

Import TUnorderedSet.
Local Open Scope Z_scope.

Lemma keys_in_set_slot (P : nat -> Prop) (m : t) (idx : Z) (k : nat)
    (d size : Z) :
  keys_in P m -> P k -> keys_in P (set_slot m idx (MkSlot k Occupied d) size).
Proof.
  intros Hm Hk. unfold keys_in, set_slot. cbn [Slots_].
  apply Forall_insert; [exact Hm|]. intros _. exact Hk.
Qed.

Lemma keys_in_slot_at (P : nat -> Prop) (m : t) (idx : Z) :
  keys_in P m -> State (slot_at m idx) = Occupied -> P (Key (slot_at m idx)).
Proof.
  intros Hm. unfold slot_at, keys_in in *.
  destruct (nth_in_or_default (Z.to_nat idx) (Slots_ m) empty_slot) as [Hin | Hd].
  - rewrite Forall_forall in Hm. apply Hm, list_elem_of_In, Hin.
  - rewrite Hd. discriminate.
Qed.

Lemma keys_in_probe (P : nat -> Prop) (fuel : nat) :
  forall m idx d k,
    keys_in P m -> P k ->
    match probe fuel m idx d k with
    | Some (inl m') => keys_in P m'
    | Some (inr (m', k')) => keys_in P m' /\ P k'
    | None => True
    end.
Proof.
  induction fuel as [|fuel IH]; intros m idx d k Hm Hk; cbn [probe]; [exact I|].
  destruct (d <=? MAX_PROBE_DISTANCE); [|auto].
  destruct (State (slot_at m idx)) eqn:Es.
  - apply keys_in_set_slot; assumption.
  - destruct (Key (slot_at m idx) =? k)%nat; [exact Hm|].
    destruct (ProbeDistance (slot_at m idx) <? d).
    + apply IH.
      * apply keys_in_set_slot; assumption.
      * apply keys_in_slot_at; assumption.
    + apply IH; assumption.
  - apply keys_in_set_slot; assumption.
Qed.

Lemma keys_in_InitSlots (P : nat -> Prop) (capacity : Z) :
  keys_in P (InitSlots capacity).
Proof.
  unfold keys_in, InitSlots. cbn [Slots_].
  apply Forall_forall. intros s Hs.
  apply list_elem_of_In, repeat_spec in Hs. subst s. discriminate.
Qed.

Lemma keys_in_Rehash_with (P : nat -> Prop) (insert : t -> nat -> t) (m : t)
    (newCapacity : Z) :
  (forall m k, keys_in P m -> P k -> keys_in P (insert m k)) ->
  keys_in P m -> keys_in P (Rehash_with insert m newCapacity).
Proof.
  intros Hins Hm. unfold Rehash_with.
  destruct ((RoundUpToPowerOf2 newCapacity <=? Capacity_ m)
            && (4 * Size_ m <? 3 * Capacity_ m)); [exact Hm|].
  unfold keys_in in Hm.
  generalize (keys_in_InitSlots P (RoundUpToPowerOf2 newCapacity)).
  generalize (InitSlots (RoundUpToPowerOf2 newCapacity)).
  induction Hm as [|s slots Hs _ IH]; intros acc Hacc; simpl; [exact Hacc|].
  apply IH. destruct (State s) eqn:Es; try exact Hacc.
  apply Hins; [exact Hacc|apply Hs; reflexivity].
Qed.

Lemma keys_in_InsertInternal (P : nat -> Prop) (fuel : nat) :
  forall m k, keys_in P m -> P k -> keys_in P (InsertInternal fuel m k).
Proof.
  induction fuel as [|fuel IH]; intros m k Hm Hk; cbn [InsertInternal];
    [exact Hm|].
  pose proof (keys_in_probe P (probe_rounds m) m
                (Z.land (THash (Z.of_nat k)) (Mask_ m)) 0 k Hm Hk) as H.
  destruct (probe (probe_rounds m) m (Z.land (THash (Z.of_nat k)) (Mask_ m)) 0 k)
    as [[m'|[m' k']]|]; [exact H| |exact Hm].
  destruct H as [Hm' Hk'].
  apply IH; [|exact Hk'].
  apply keys_in_Rehash_with; [exact IH|exact Hm'].
Qed.

Lemma keys_in_Insert (P : nat -> Prop) (m : t) (k : nat) :
  keys_in P m -> P k -> keys_in P (Insert m k).
Proof.
  intros Hm Hk. unfold Insert. apply keys_in_InsertInternal; [|exact Hk].
  destruct (ShouldRehash m); [|exact Hm].
  apply keys_in_Rehash_with; [apply keys_in_InsertInternal|exact Hm].
Qed.

Lemma keys_in_elements (P : nat -> Prop) (m : t) :
  keys_in P m -> Forall P (elements m).
Proof.
  unfold keys_in, elements. induction 1 as [|s slots Hs _ IH]; simpl;
    [constructor|].
  destruct (State s) eqn:Es; try exact IH.
  constructor; [apply Hs; reflexivity|exact IH].
Qed.

(** X16: inserting into the hash set never makes up an element: what the set
    holds afterwards was in it before or is the inserted value. *)
Theorem Insert_holds_only_inserted (m : t) (value d : nat) :
  d ∈ elements (Insert m value) -> d = value \/ d ∈ elements m.
Proof.
  intros Hd.
  assert (H : keys_in (fun k => k = value \/ k ∈ elements m) m).
  { unfold keys_in, elements. apply Forall_forall. intros s Hs Es. right.
    apply list_elem_of_In, in_map, filter_In. split.
    - apply list_elem_of_In, Hs.
    - rewrite Es. reflexivity. }
  pose proof (keys_in_elements _ _
                (keys_in_Insert _ m value H (or_introl eq_refl))) as H'.
  rewrite Forall_forall in H'. apply H', Hd.
Qed.

(** X16 on a concrete input. *)
Lemma Insert_holds_only_inserted_witness :
  5%nat = 7%nat \/ 5%nat ∈ elements (Insert new 5).
Proof.
  apply (Insert_holds_only_inserted (Insert new 5) 7 5).
  vm_compute. apply list_elem_of_In. simpl. tauto.
Defined.

End candidate_set.

Section search_results.

Import TTfIdf.

Lemma fold_left_cons {A B} (f : A -> B -> A) (x : B) (l : list B) (a : A) :
  fold_left f (x :: l) a = fold_left f l (f a x).
Proof. reflexivity. Qed.

Lemma keys_in_fold_Insert (P : nat -> Prop) (l : list nat) :
  forall set,
    keys_in P set -> Forall P l ->
    keys_in P (fold_left TUnorderedSet.Insert l set).
Proof.
  induction l as [|d l IH]; intros set Hset Hl; [exact Hset|].
  rewrite fold_left_cons.
  apply Forall_cons in Hl as [Hd Hl].
  apply IH; [|exact Hl]. apply keys_in_Insert; assumption.
Qed.

Lemma candidate_fold_matches (index : TInvertedIndex.t)
    (queryTerms terms : list TString) :
  forall set,
    (forall t, t ∈ terms -> t ∈ queryTerms) ->
    keys_in (matches index queryTerms) set ->
    keys_in (matches index queryTerms)
      (fold_left
         (fun set term =>
            fold_left TUnorderedSet.Insert
              (TInvertedIndex.GetPostingList index term) set)
         terms set).
Proof.
  induction terms as [|term terms IH]; intros set Hsub Hset; [exact Hset|].
  rewrite fold_left_cons.
  apply IH; [intros t Ht; apply Hsub; right; exact Ht|].
  apply keys_in_fold_Insert; [exact Hset|].
  apply Forall_forall. intros d Hd. exists term.
  split; [apply Hsub; left|exact Hd].
Qed.

Lemma candidateDocs_matches (index : TInvertedIndex.t)
    (queryTerms : list TString) :
  Forall (matches index queryTerms)
    (TUnorderedSet.elements (candidateDocs index queryTerms)).
Proof.
  apply keys_in_elements.
  apply (candidate_fold_matches index queryTerms queryTerms TUnorderedSet.new).
  - intros t Ht. exact Ht.
  - exact (keys_in_InitSlots _ TUnorderedSet.DEFAULT_CAPACITY).
Qed.

(** X17: what the ranked search returns: at most [topK] results, each for a
    document that is in the posting list of at least one query term, each
    with the score [ComputeDocumentScore] gives that document, and that
    score is positive.  So an empty query, or [topK = 0], gives no result. *)
Theorem Search_returns_scored_matches (index : TInvertedIndex.t)
    (queryTerms : list TString) (topK : nat) :
  length (Search index queryTerms topK) <= topK
  /\ Forall
       (fun r =>
          matches index queryTerms (DocId r)
          /\ Score r = ComputeDocumentScore index (DocId r) queryTerms
          /\ (0 <? Score r)%float = true)
       (Search index queryTerms topK).
Proof.
  unfold Search.
  set (P := fun r =>
              matches index queryTerms (DocId r)
              /\ Score r = ComputeDocumentScore index (DocId r) queryTerms
              /\ (0 <? Score r)%float = true).
  set (step := fun results docId =>
                 if (0 <? ComputeDocumentScore index docId queryTerms)%float
                 then results ++ [MkResult docId
                                    (ComputeDocumentScore index docId queryTerms)]
                 else results).
  assert (H : forall ds rs,
            Forall (matches index queryTerms) ds -> Forall P rs ->
            Forall P (fold_left step ds rs)).
  { induction ds as [|d ds IH]; intros rs Hds Hrs; simpl; [exact Hrs|].
    apply Forall_cons in Hds as [Hd Hds]. apply IH; [exact Hds|].
    unfold step.
    destruct (0 <? ComputeDocumentScore index d queryTerms)%float eqn:E;
      [|exact Hrs].
    apply Forall_app. split; [exact Hrs|].
    constructor; [|constructor]. subst P. cbn [DocId Score]. auto. }
  specialize (H _ [] (candidateDocs_matches index queryTerms) (List.Forall_nil _)).
  fold step. set (rs := fold_left step _ []) in *.
  assert (Hs : Forall P (SortResults rs)).
  { rewrite SortResults_Permutation. exact H. }
  destruct (topK <? length (SortResults rs))%nat eqn:E.
  - split; [rewrite length_firstn; lia|].
    apply Forall_take. exact Hs.
  - apply Nat.ltb_ge in E. split; [exact E|exact Hs].
Qed.

End search_results.


(** * Text pipeline, stemmer and lemmatizer *)

Section pipeline_composition.

(** X18: [Process] is tokenization followed by [NormalizeTerm] on every token,
    whatever the options: the second lower-casing that [NormalizeTerm]
    applies finds the tokens already in lower case. *)
Theorem Process_is_tokenize_then_normalize (o : TTextPipeline.TOptions)
    (text : TString) :
  TTextPipeline.Process o text
  = TTextPipeline.NormalizeTerms o
      (NTokenizer.TokenizeToStrings (TTextPipeline.tokenizer_options o) text).
Proof.
  unfold TTextPipeline.Process, TTextPipeline.NormalizeTerms,
    TTextPipeline.NormalizeTerm, TLemmatizer.LemmatizeAll, NStemmer.StemAll.
  generalize (TLemmatizer.Lemmatize TLemmatizer.new). intros lemmatize.
  destruct (TTextPipeline.LowerCase o) eqn:Hlc.
  - pose proof (TokenizeToStrings_fixed (TTextPipeline.tokenizer_options o)
                  ltac:(exact Hlc) eq_refl text) as H.
    assert (Hmap : forall f : TString -> TString,
              map f (NTokenizer.TokenizeToStrings
                       (TTextPipeline.tokenizer_options o) text)
              = map (fun term => f (NTokenizer.ToLower term))
                  (NTokenizer.TokenizeToStrings
                     (TTextPipeline.tokenizer_options o) text)).
    { intros f. induction H as [|t ts Ht _ IH]; [reflexivity|].
      cbn [map]. rewrite Ht, IH. reflexivity. }
    destruct (TTextPipeline.UseLemmatization o); [apply Hmap|].
    destruct (TTextPipeline.UseStemming o); [apply Hmap|].
    rewrite <- (Hmap (fun term => term)). symmetry. apply List.map_id.
  - destruct (TTextPipeline.UseLemmatization o); [reflexivity|].
    destruct (TTextPipeline.UseStemming o); [reflexivity|].
    symmetry. apply List.map_id.
Qed.

End pipeline_composition.

Section stemmer_lengths.

Import NStemmer.

Lemma lower_char_not_upper (c : ascii) : is_upper (lower_char c) = false.
Proof.
  unfold lower_char. destruct (is_upper c) eqn:E; [|exact E].
  unfold is_upper, char_code in *.
  apply andb_true_iff in E as [E1 E2]. apply Nat.leb_le in E1, E2.
  rewrite nat_ascii_embedding by lia.
  apply andb_false_iff. right. apply Nat.leb_gt. lia.
Qed.

Lemma lower_char_idempotent (c : ascii) :
  lower_char (lower_char c) = lower_char c.
Proof.
  unfold lower_char at 1. rewrite lower_char_not_upper. reflexivity.
Qed.

Lemma Stemmer_ToLower_idempotent (s : TString) : ToLower (ToLower s) = ToLower s.
Proof.
  unfold ToLower. rewrite List.map_map. apply List.map_ext.
  intros c. apply lower_char_idempotent.
Qed.

Lemma Stemmer_ToLower_length (s : TString) : length (ToLower s) = length s.
Proof. apply length_map. Qed.

Lemma SubStr_length_le (s : TString) (pos count : nat) :
  length (SubStr s pos count) <= count.
Proof.
  unfold SubStr. destruct (length s <=? pos); [simpl; lia|].
  destruct (length s <? pos + count) eqn:E.
  - apply Nat.ltb_lt in E. rewrite length_firstn, length_skipn. lia.
  - rewrite length_firstn. lia.
Qed.

Lemma RemoveSuffix_length (s : TString) (n : nat) :
  length (RemoveSuffix s n) <= length s - n.
Proof.
  unfold RemoveSuffix. destruct (length s <=? n); [simpl; lia|].
  apply SubStr_length_le.
Qed.

Lemma EndsWith_length (s suffix : TString) :
  EndsWith s suffix = true -> length suffix <= length s.
Proof.
  unfold EndsWith. destruct (length s <? length suffix) eqn:E;
    [discriminate|].
  intros _. apply Nat.ltb_ge in E. exact E.
Qed.

Lemma ReplaceSuffix_length (s : TString) (n : nat) (add : TString) :
  n <= length s -> length add <= n ->
  length (ReplaceSuffix s n add) <= length s.
Proof.
  intros H1 H2. unfold ReplaceSuffix. rewrite length_app.
  pose proof (RemoveSuffix_length s n). lia.
Qed.

Ltac ends_with H :=
  match goal with
  | |- context [EndsWith ?s ?suf] =>
      let E := fresh H in
      destruct (EndsWith s suf) eqn:E;
      [apply EndsWith_length in E; cbn [lit list_ascii_of_string length] in E|]
  end.

Lemma Step1a_length (s : TString) : length (Step1a s) <= length s.
Proof.
  unfold Step1a.
  ends_with E; [apply ReplaceSuffix_length; cbn; lia|].
  ends_with E; [apply ReplaceSuffix_length; cbn; lia|].
  ends_with E; [lia|].
  ends_with E; [pose proof (RemoveSuffix_length s 1); lia|lia].
Qed.

Lemma Step1b_tail_length (result : TString) :
  length
    (if EndsWith result (lit "at") then ReplaceSuffix result 2 (lit "ate")
     else if EndsWith result (lit "bl") then ReplaceSuffix result 2 (lit "ble")
     else if EndsWith result (lit "iz") then ReplaceSuffix result 2 (lit "ize")
     else
       let c := char_at result (length result - 1) in
       if EndsWithDoubleConsonant result
          && negb (char_eqb c "l") && negb (char_eqb c "s")
          && negb (char_eqb c "z")
       then RemoveSuffix result 1
       else if (MeasureM result =? 1) && EndsCVC result
       then result ++ lit "e"
       else result)
  <= S (length result).
Proof.
  assert (Hrep : forall add,
            length add = 3 -> 2 <= length result ->
            length (ReplaceSuffix result 2 add) <= S (length result)).
  { intros add Ha Hl. unfold ReplaceSuffix. rewrite length_app.
    pose proof (RemoveSuffix_length result 2). lia. }
  ends_with E; [apply Hrep; [reflexivity|lia]|].
  ends_with E; [apply Hrep; [reflexivity|lia]|].
  ends_with E; [apply Hrep; [reflexivity|lia]|].
  cbv zeta.
  match goal with |- context [if ?c then _ else _] => destruct c end.
  - pose proof (RemoveSuffix_length result 1). lia.
  - match goal with |- context [if ?c then _ else _] => destruct c end.
    + rewrite length_app. simpl. lia.
    + lia.
Qed.

Lemma Step1b_length (s : TString) : length (Step1b s) <= length s.
Proof.
  unfold Step1b.
  ends_with E.
  { destruct (0 <? MeasureM (RemoveSuffix s 3)); [|lia].
    apply ReplaceSuffix_length; cbn; lia. }
  ends_with E.
  { destruct (HasVowel (RemoveSuffix s 2)) eqn:Ev; [|lia].
    pose proof (Step1b_tail_length (RemoveSuffix s 2)) as H.
    pose proof (RemoveSuffix_length s 2). cbv zeta in H. lia. }
  ends_with E; [|lia].
  destruct (HasVowel (RemoveSuffix s 3)) eqn:Ev; [|lia].
  pose proof (Step1b_tail_length (RemoveSuffix s 3)) as H.
  pose proof (RemoveSuffix_length s 3). cbv zeta in H. lia.
Qed.

Lemma Step1c_length (s : TString) : length (Step1c s) <= length s.
Proof.
  unfold Step1c.
  ends_with E; [|lia].
  destruct (HasVowel (RemoveSuffix s 1)); [|lia].
  apply ReplaceSuffix_length; cbn; lia.
Qed.

Lemma apply_rules_length (rules : list TSuffixRule) (s : TString) :
  forallb rule_shrinks rules = true ->
  length (apply_rules rules s) <= length s.
Proof.
  induction rules as [|r rules IH]; intros H; simpl; [lia|].
  simpl in H. apply andb_true_iff in H as [Hr H].
  apply andb_true_iff in Hr as [H1 H2].
  apply Nat.eqb_eq in H1. apply Nat.leb_le in H2.
  destruct (EndsWith s (From r)) eqn:E; [|apply IH, H].
  apply EndsWith_length in E.
  destruct (0 <? MeasureM (RemoveSuffix s (Len r))); [|lia].
  apply ReplaceSuffix_length; lia.
Qed.

Lemma Step2_length (s : TString) : length (Step2 s) <= length s.
Proof. apply apply_rules_length. reflexivity. Qed.

Lemma Step3_length (s : TString) : length (Step3 s) <= length s.
Proof. apply apply_rules_length. reflexivity. Qed.

Lemma Step4_loop_length (suffixes : list TString) (s : TString) :
  length (Step4_loop suffixes s) <= length s.
Proof.
  induction suffixes as [|suffix rest IH]; simpl; [lia|].
  pose proof (RemoveSuffix_length s (length suffix)).
  repeat match goal with
         | |- context [if ?c then _ else _] => destruct c
         end; lia.
Qed.

Lemma Step4_length (s : TString) : length (Step4 s) <= length s.
Proof. apply Step4_loop_length. Qed.

Lemma Step5a_length (s : TString) : length (Step5a s) <= length s.
Proof.
  unfold Step5a. pose proof (RemoveSuffix_length s 1).
  repeat match goal with
         | |- context [if ?c then _ else _] => destruct c
         end; lia.
Qed.

Lemma Step5b_length (s : TString) : length (Step5b s) <= length s.
Proof.
  unfold Step5b. pose proof (RemoveSuffix_length s 1).
  destruct ((1 <? MeasureM s) && EndsWithDoubleConsonant s
            && EndsWith s (lit "l")); lia.
Qed.

(** X19: the stemmer never lengthens a word, and it gives back a word of fewer
    than three bytes as it is, upper-case letters included. *)
Theorem Stem_never_lengthens (word : TString) :
  length (Stem word) <= length word
  /\ (length word < 3 -> Stem word = word).
Proof.
  unfold Stem. destruct (length word <? 3) eqn:E.
  - split; [lia|reflexivity].
  - apply Nat.ltb_ge in E. split; [|lia].
    pose proof (Stemmer_ToLower_length word).
    pose proof (Step1a_length (ToLower word)).
    pose proof (Step1b_length (Step1a (ToLower word))).
    pose proof (Step1c_length (Step1b (Step1a (ToLower word)))).
    pose proof (Step2_length (Step1c (Step1b (Step1a (ToLower word))))).
    pose proof (Step3_length (Step2 (Step1c (Step1b (Step1a (ToLower word)))))).
    pose proof (Step4_length
                  (Step3 (Step2 (Step1c (Step1b (Step1a (ToLower word))))))).
    pose proof (Step5a_length
                  (Step4 (Step3 (Step2 (Step1c (Step1b (Step1a (ToLower word)))))))).
    pose proof (Step5b_length
                  (Step5a
                     (Step4 (Step3 (Step2 (Step1c (Step1b (Step1a (ToLower word))))))))).
    lia.
Qed.

(** X19 on a concrete input. *)
Lemma Stem_never_lengthens_witness : Stem (lit "AS") = lit "AS".
Proof.
  apply (proj2 (Stem_never_lengthens (lit "AS"))). simpl. lia.
Defined.

(** X20: the stem of a word of three bytes or more does not depend on the case
    of its letters. *)
Theorem Stem_ignores_case (word : TString) :
  3 <= length word -> Stem (ToLower word) = Stem word.
Proof.
  intros H. unfold Stem.
  rewrite Stemmer_ToLower_length, Stemmer_ToLower_idempotent.
  destruct (length word <? 3) eqn:E; [|reflexivity].
  apply Nat.ltb_lt in E. lia.
Qed.

(** X20 on a concrete input. *)
Lemma Stem_ignores_case_witness :
  Stem (ToLower (lit "Running")) = Stem (lit "Running").
Proof. apply (Stem_ignores_case (lit "Running")). simpl. lia. Defined.

End stemmer_lengths.

Section lemmatizer_lookup.

Import TLemmatizer.

Lemma Lemmatizer_ToLower_idempotent (s : TString) :
  ToLower (ToLower s) = ToLower s.
Proof.
  unfold ToLower. rewrite List.map_map. apply List.map_ext.
  intros c. apply lower_char_idempotent.
Qed.

(** X21: for every dictionary: the lemma of a word does not depend on the case of
    its letters; after [AddWord form lemma] every spelling of [form] gets
    [lemma], and a word whose lower-case form hashes differently gets what
    it got before. *)
Theorem AddWord_then_Lemmatize (self : t) (form lemma word : TString) :
  Lemmatize self (ToLower word) = Lemmatize self word
  /\ (ToLower word = ToLower form ->
      Lemmatize (AddWord self form lemma) word = lemma)
  /\ (Hash (ToLower word) <> Hash (ToLower form) ->
      Lemmatize (AddWord self form lemma) word = Lemmatize self word).
Proof.
  split; [|split].
  - unfold Lemmatize. rewrite Lemmatizer_ToLower_idempotent. reflexivity.
  - intros H. unfold Lemmatize, GetLemma, AddWord. cbn [Dictionary_].
    rewrite H, lookup_insert_eq. reflexivity.
  - intros H. unfold Lemmatize, GetLemma, AddWord. cbn [Dictionary_].
    rewrite lookup_insert_ne by congruence. reflexivity.
Qed.

(** X21 on a concrete input. *)
Lemma AddWord_then_Lemmatize_witness :
  Lemmatize (AddWord new (lit "Mice") (lit "mouse")) (lit "MICE") = lit "mouse"
  /\ Lemmatize (AddWord (Mk ∅) (lit "Mice") (lit "mouse")) (lit "cats")
     = Lemmatize (Mk ∅) (lit "cats").
Proof.
  split.
  - apply (proj1 (proj2 (AddWord_then_Lemmatize new (lit "Mice") (lit "mouse")
                           (lit "MICE")))).
    reflexivity.
  - apply (proj2 (proj2 (AddWord_then_Lemmatize (Mk ∅) (lit "Mice")
                           (lit "mouse") (lit "cats")))).
    vm_compute. discriminate.
Defined.

End lemmatizer_lookup.

Section query_tokens.

Import TSearchDatabase.

Lemma IsParen_not_ws (c : ascii) : IsParen c = true -> IsWs c = false.
Proof.
  unfold IsParen, IsWs, char_eqb. intros H.
  apply orb_true_iff in H as [H|H]; apply Ascii.eqb_eq in H; subst c;
    reflexivity.
Qed.

Lemma word_part_token (cur : TString) :
  word_part cur -> cur <> [] -> query_token cur.
Proof. intros [H1 H2] H. split; [exact H|]. split; [exact H1|left; exact H2]. Qed.

Lemma paren_token (c : ascii) : IsParen c = true -> query_token [c].
Proof.
  intros H. split; [discriminate|]. split.
  - constructor; [apply IsParen_not_ws, H|constructor].
  - right. exists c. split; [exact H|reflexivity].
Qed.

Lemma TokenizeBooleanQuery_step_spec (tokens : list TString) (cur : TString)
    (c : ascii) :
  Forall query_token tokens -> word_part cur ->
  Forall query_token (fst (TokenizeBooleanQuery_step (tokens, cur) c))
  /\ word_part (snd (TokenizeBooleanQuery_step (tokens, cur) c))
  /\ concat (fst (TokenizeBooleanQuery_step (tokens, cur) c))
       ++ snd (TokenizeBooleanQuery_step (tokens, cur) c)
     = (concat tokens ++ cur) ++ (if negb (IsWs c) then [c] else []).
Proof.
  intros Htok Hcur. unfold TokenizeBooleanQuery_step.
  assert (Hnil : word_part []) by (split; constructor).
  destruct (IsWs c) eqn:Ews; cbn [negb].
  - destruct cur as [|c0 cur]; cbn [fst snd].
    + rewrite !app_nil_r. auto.
    + split; [|split; [exact Hnil|]].
      * apply Forall_app. split; [exact Htok|].
        constructor; [|constructor].
        apply word_part_token; [exact Hcur|discriminate].
      * rewrite concat_app. simpl. rewrite !app_nil_r. reflexivity.
  - destruct (IsParen c) eqn:Ep.
    + destruct cur as [|c0 cur]; cbn [fst snd].
      * split; [|split; [exact Hnil|]].
        -- apply Forall_app. split; [exact Htok|].
           constructor; [apply paren_token, Ep|constructor].
        -- rewrite concat_app. simpl. rewrite !app_nil_r. reflexivity.
      * split; [|split; [exact Hnil|]].
        -- repeat (apply Forall_app; split); try exact Htok.
           ++ constructor; [|constructor].
              apply word_part_token; [exact Hcur|discriminate].
           ++ constructor; [apply paren_token, Ep|constructor].
        -- rewrite !concat_app. simpl. rewrite !app_nil_r.
           rewrite <- !app_assoc. reflexivity.
    + cbn [fst snd]. split; [exact Htok|]. split.
      * destruct Hcur as [Ha Hb].
        split; apply Forall_app; split; try assumption;
          (constructor; [assumption|constructor]).
      * rewrite <- !app_assoc. reflexivity.
Qed.

Lemma TokenizeBooleanQuery_fold (query : TString) :
  forall st,
    Forall query_token (fst st) -> word_part (snd st) ->
    Forall query_token (fst (fold_left TokenizeBooleanQuery_step query st))
    /\ word_part (snd (fold_left TokenizeBooleanQuery_step query st))
    /\ concat (fst (fold_left TokenizeBooleanQuery_step query st))
         ++ snd (fold_left TokenizeBooleanQuery_step query st)
       = (concat (fst st) ++ snd st)
         ++ List.filter (fun c => negb (IsWs c)) query.
Proof.
  induction query as [|c query IH]; intros [tokens cur] Htok Hcur.
  - simpl. rewrite app_nil_r. auto.
  - cbn [fold_left List.filter fst snd] in *.
    destruct (TokenizeBooleanQuery_step_spec tokens cur c Htok Hcur)
      as (H1 & H2 & H3).
    destruct (IH _ H1 H2) as (I1 & I2 & I3).
    split; [exact I1|]. split; [exact I2|].
    rewrite I3, H3. rewrite <- !app_assoc. f_equal. f_equal.
    destruct (negb (IsWs c)); reflexivity.
Qed.

(** X22: [TokenizeBooleanQuery] loses only white space: its tokens, one after
    the other, spell the query without its white space.  No token is empty
    or holds white space, and a parenthesis is always a token of its own. *)
Theorem TokenizeBooleanQuery_keeps_the_text (query : TString) :
  concat (TokenizeBooleanQuery query)
  = List.filter (fun c => negb (IsWs c)) query
  /\ Forall query_token (TokenizeBooleanQuery query).
Proof.
  unfold TokenizeBooleanQuery.
  destruct (TokenizeBooleanQuery_fold query ([], []))
    as (H1 & H2 & H3); [constructor|split; constructor|].
  destruct (fold_left TokenizeBooleanQuery_step query ([], []))
    as [tokens cur].
  cbn [fst snd] in *. simpl in H3.
  destruct cur as [|c0 cur].
  - rewrite app_nil_r in H3. split; assumption.
  - split.
    + rewrite concat_app. simpl. rewrite app_nil_r. exact H3.
    + apply Forall_app. split; [exact H1|].
      constructor; [|constructor].
      apply word_part_token; [exact H2|discriminate].
Qed.

End query_tokens.


(** * Tokenizer: the words it cuts *)

Section word_tokens.

Import NTokenizer.

Lemma advance_while_stop (p : nat -> bool) (len fuel i : nat) :
  len <= fuel + i ->
  len <= advance_while p len fuel i
  \/ p (advance_while p len fuel i) = false.
Proof.
  revert i. induction fuel as [|fuel IH]; intros i H; simpl.
  - left. lia.
  - destruct (i <? len) eqn:E1; simpl.
    + destruct (p i) eqn:E2; [apply IH; lia|right; exact E2].
    + apply Nat.ltb_ge in E1. left. exact E1.
Qed.

Lemma advance_while_le_len (p : nat -> bool) (len fuel i : nat) :
  i <= len -> advance_while p len fuel i <= len.
Proof.
  revert i. induction fuel as [|fuel IH]; intros i H; simpl; [exact H|].
  destruct (i <? len) eqn:E1; simpl; [|exact H].
  apply Nat.ltb_lt in E1. destruct (p i); [apply IH; lia|exact H].
Qed.

Lemma advance_while_first (p : nat -> bool) (len fuel i : nat) :
  i < len -> p i = true -> 0 < fuel -> i < advance_while p len fuel i.
Proof.
  intros Hi Hp Hf. destruct fuel as [|fuel]; [lia|]. simpl.
  apply Nat.ltb_lt in Hi. rewrite Hi, Hp. simpl.
  pose proof (proj1 (advance_while_range p len fuel (S i))). lia.
Qed.

Lemma SubStr_length (s : TString) (pos count : nat) :
  pos + count <= length s -> 0 < count -> length (SubStr s pos count) = count.
Proof.
  intros H Hc. unfold SubStr.
  destruct (length s <=? pos) eqn:E; [apply Nat.leb_le in E; lia|].
  destruct (length s <? pos + count) eqn:E2; [apply Nat.ltb_lt in E2; lia|].
  rewrite length_firstn, length_skipn. lia.
Qed.

Lemma in_text_order_snoc (tokens : list TToken) (t : TToken) (pos : nat) :
  in_text_order tokens ->
  Forall (fun t' => Position t' + Length t' <= pos) tokens ->
  pos <= Position t ->
  in_text_order (tokens ++ [t]).
Proof.
  intros Hord Hend Hpos i j t1 t2 Hij H1 H2.
  destruct (decide (j < length tokens)) as [Hj|Hj].
  - rewrite lookup_app_l in H1, H2 by lia. apply (Hord i j t1 t2); assumption.
  - assert (j = length tokens).
    { apply lookup_lt_Some in H2. rewrite length_app in H2. simpl in H2. lia. }
    subst j. rewrite lookup_app_l in H1 by lia.
    rewrite lookup_app_r, Nat.sub_diag in H2 by lia. simpl in H2.
    injection H2 as <-.
    rewrite Forall_forall in Hend.
    specialize (Hend t1 (list_elem_of_lookup_2 _ _ _ H1)). lia.
Qed.

Section loop.

Variable o : TOptions.
Hypothesis Hws : SkipWhitespace o = true.
Hypothesis Hnum : SkipNumbers o = true.
Hypothesis Hpun : SkipPunctuation o = true.

Variable text : TString.

Lemma collected_later (pos pos' : nat) (tokens : list TToken) :
  pos <= pos' -> collected o text pos tokens -> collected o text pos' tokens.
Proof.
  intros H (H1 & H2 & H3). split; [exact H1|]. split; [|exact H3].
  eapply Forall_impl; [exact H2|]. simpl. intros t Ht. lia.
Qed.

Lemma GetCharType_Word (c : ascii) : GetCharType c = Word -> IsAlpha c = true.
Proof.
  unfold GetCharType. destruct (IsAlpha c); [reflexivity|].
  destruct (IsDigit c); [discriminate|].
  destruct (IsWhitespace c); discriminate.
Qed.

Lemma ToLower_length (s : TString) : length (ToLower s) = length s.
Proof. apply length_map. Qed.

Lemma Tokenize_loop_collected (fuel : nat) :
  forall pos tokens,
    pos <= length text ->
    collected o text pos tokens ->
    exists pos',
      collected o text pos'
        (Tokenize_loop o text (length text) fuel pos tokens).
Proof.
  induction fuel as [|fuel IH]; intros pos tokens Hpos Hcol; simpl.
  - eauto.
  - destruct (pos <? length text) eqn:Elt; [|eauto].
    apply Nat.ltb_lt in Elt.
    rewrite Hws, andb_false_r.
    set (pos1 := advance_while _ (length text) (length text) pos).
    assert (Hpos1 : pos <= pos1 <= length text).
    { split.
      - apply (advance_while_range _ (length text) (length text) pos).
      - apply advance_while_le_len. lia. }
    destruct (length text <=? pos1) eqn:Elen; [eauto|].
    apply Nat.leb_gt in Elen.
    destruct (GetCharType (char_at text pos1)) eqn:Ety.
    + (* Word *)
      set (p := fun k => is_word_char (char_at text k)).
      set (pos2 := advance_while p (length text) (length text) pos1).
      assert (Halpha : IsAlpha (char_at text pos1) = true)
        by (apply GetCharType_Word, Ety).
      assert (Hp1 : p pos1 = true).
      { subst p. cbv beta. unfold is_word_char. rewrite Halpha. reflexivity. }
      assert (Hpos2 : pos1 < pos2 <= length text).
      { split.
        - apply advance_while_first; [exact Elen|exact Hp1|lia].
        - apply advance_while_le_len. lia. }
      destruct (advance_while_range p (length text) (length text) pos1)
        as [_ Hrange]. fold pos2 in Hrange.
      assert (Hlen : length (if LowerCase o
                             then ToLower (SubStr text pos1 (pos2 - pos1))
                             else SubStr text pos1 (pos2 - pos1))
                     = pos2 - pos1).
      { destruct (LowerCase o); rewrite ?ToLower_length;
          apply SubStr_length; lia. }
      rewrite Hlen.
      apply (IH pos2); [lia|].
      destruct ((MinTokenLength o <=? pos2 - pos1)
                && (pos2 - pos1 <=? MaxTokenLength o)) eqn:Eb.
      * apply andb_true_iff in Eb as [Eb1 Eb2].
        apply Nat.leb_le in Eb1, Eb2.
        destruct Hcol as (H1 & H2 & H3).
        split; [|split].
        -- apply Forall_app. split; [exact H1|].
           constructor; [|constructor].
           constructor; cbn [Text Position Length].
           ++ lia.
           ++ lia.
           ++ reflexivity.
           ++ exact Halpha.
           ++ intros k Hk. apply (Hrange k). lia.
           ++ replace (pos1 + (pos2 - pos1)) with pos2 by lia.
              destruct (advance_while_stop p (length text) (length text) pos1
                          ltac:(lia)) as [Hs|Hs]; fold pos2 in Hs.
              ** left. lia.
              ** right. exact Hs.
           ++ lia.
        -- apply Forall_app. split.
           ++ eapply Forall_impl; [exact H2|]. simpl. intros t Ht. lia.
           ++ constructor; [|constructor]. cbn [Position Length]. lia.
        -- apply (in_text_order_snoc tokens _ pos); [exact H3|exact H2|].
           cbn [Position]. lia.
      * apply (collected_later pos); [lia|exact Hcol].
    + (* Number *)
      rewrite Hnum. cbn [negb].
      set (pos2 := advance_while _ (length text) (length text) pos1).
      assert (Hpos2 : pos1 <= pos2 <= length text).
      { split.
        - apply (advance_while_range _ (length text) (length text) pos1).
        - apply advance_while_le_len. lia. }
      apply (IH pos2); [lia|]. apply (collected_later pos); [lia|exact Hcol].
    + (* Punctuation *)
      rewrite Hpun. cbn [negb].
      apply (IH (S pos1)); [lia|].
      apply (collected_later pos); [lia|exact Hcol].
    + apply (IH (S pos1)); [lia|].
      apply (collected_later pos); [lia|exact Hcol].
    + apply (IH (S pos1)); [lia|].
      apply (collected_later pos); [lia|exact Hcol].
Qed.

End loop.

(** X23: when white space, numbers and punctuation are skipped (the defaults of
    the tokenizer, and what the text pipeline always asks for white space),
    every token is a word of the text: a run of letters, digits, [_] and
    [-] that starts with a letter and cannot be extended to the right, of a
    length within the bounds of the options, with its position and length in
    the text; the tokens come in text order and do not overlap. *)
Theorem Tokenize_cuts_words (o : TOptions) (text : TString) :
  SkipWhitespace o = true -> SkipNumbers o = true ->
  SkipPunctuation o = true ->
  Forall (word_token o text) (Tokenize o text)
  /\ in_text_order (Tokenize o text).
Proof.
  intros Hws Hnum Hpun. unfold Tokenize.
  destruct (Tokenize_loop_collected o Hws Hnum Hpun text (length text) 0 [])
    as (pos' & H1 & _ & H3).
  - lia.
  - split; [constructor|]. split; [constructor|].
    intros i j t1 t2 _ H. destruct i; discriminate.
  - split; assumption.
Qed.

(** X23 on a concrete input. *)
Lemma Tokenize_cuts_words_witness :
  Forall (word_token default_options (lit "Hello, wide-World 42 times"))
    (Tokenize default_options (lit "Hello, wide-World 42 times"))
  /\ in_text_order (Tokenize default_options (lit "Hello, wide-World 42 times")).
Proof.
  apply (Tokenize_cuts_words default_options
           (lit "Hello, wide-World 42 times")); reflexivity.
Defined.

End word_tokens.


(** * Tokenizer: splitting, joining, normalising *)

Section splitting.

Import NTokenizer.

Lemma char_at_middle (done cur : TString) (c : ascii) (rest : TString) :
  char_at (done ++ cur ++ c :: rest) (length done + length cur) = c.
Proof.
  unfold char_at. rewrite app_assoc, app_nth2; rewrite length_app; [|lia].
  rewrite Nat.sub_diag. reflexivity.
Qed.

Lemma SubStr_middle (done cur rest : TString) :
  cur <> [] ->
  SubStr (done ++ cur ++ rest) (length done) (length cur) = cur.
Proof.
  intros Hne. unfold SubStr. rewrite !length_app.
  assert (0 < length cur) by (destruct cur; [congruence|simpl; lia]).
  destruct (length done + (length cur + length rest) <=? length done) eqn:E;
    [apply Nat.leb_le in E; lia|].
  destruct (length done + (length cur + length rest)
            <? length done + length cur) eqn:E2;
    [apply Nat.ltb_lt in E2; lia|].
  rewrite drop_app_length, take_app_length. reflexivity.
Qed.

Lemma Split_fold (d : ascii) (str rest : TString) :
  forall done cur result,
    str = done ++ cur ++ rest ->
    fold_left (Split_step str d)
      (seq (length done + length cur) (length rest)) (result, length done)
    = (result ++ fst (split_run d cur rest),
       length str - length (snd (split_run d cur rest))).
Proof.
  induction rest as [|c rest IH]; intros done cur result Hstr.
  - simpl. rewrite app_nil_r. f_equal.
    rewrite Hstr, app_nil_r, length_app. lia.
  - cbn [length seq fold_left split_run].
    assert (Hc : char_at str (length done + length cur) = c).
    { rewrite Hstr. apply char_at_middle. }
    destruct (char_eqb c d) eqn:E.
    + assert (Hstep : Split_step str d (result, length done)
                        (length done + length cur)
                      = (result ++ match cur with [] => [] | _ :: _ => [cur] end,
                         S (length done + length cur))).
      { unfold Split_step. rewrite Hc, E. f_equal.
        destruct cur as [|c0 cur].
        - cbn [length]. rewrite Nat.add_0_r, Nat.ltb_irrefl, app_nil_r.
          reflexivity.
        - replace (length done <? length done + length (c0 :: cur)) with true
            by (symmetry; apply Nat.ltb_lt; simpl; lia).
          replace (length done + length (c0 :: cur) - length done)
            with (length (c0 :: cur)) by lia.
          rewrite Hstr, (SubStr_middle done (c0 :: cur) (c :: rest))
            by discriminate.
          reflexivity. }
      rewrite Hstep.
      replace (S (length done + length cur))
        with (length (done ++ cur ++ [c]) + length (@nil ascii))
        by (rewrite !length_app; simpl; lia).
      replace (length (done ++ cur ++ [c]) + length (@nil ascii))
        with (length (done ++ cur ++ [c])) at 2 by (simpl; lia).
      rewrite (IH (done ++ cur ++ [c]) []).
      2:{ rewrite Hstr, <- !app_assoc. reflexivity. }
      destruct (split_run d [] rest) as [pieces pending]. cbn [fst snd].
      rewrite <- app_assoc. destruct cur; reflexivity.
    + assert (Hstep : Split_step str d (result, length done)
                        (length done + length cur)
                      = (result, length done)).
      { unfold Split_step. rewrite Hc, E. reflexivity. }
      rewrite Hstep.
      replace (S (length done + length cur))
        with (length done + length (cur ++ [c]))
        by (rewrite length_app; simpl; lia).
      apply IH. rewrite Hstr, <- !app_assoc. reflexivity.
Qed.

Lemma split_run_pending (d : ascii) (rest : TString) :
  forall cur, length (snd (split_run d cur rest)) <= length cur + length rest.
Proof.
  induction rest as [|c rest IH]; intros cur; simpl; [lia|].
  destruct (char_eqb c d).
  - specialize (IH []). destruct (split_run d [] rest). simpl in *. lia.
  - specialize (IH (cur ++ [c])). rewrite length_app in IH. simpl in IH. lia.
Qed.

Lemma SubStr_suffix (done cur : TString) :
  cur <> [] -> SubStr (done ++ cur) (length done) (length cur) = cur.
Proof.
  intros H. rewrite <- (app_nil_r cur) at 1. apply SubStr_middle, H.
Qed.

Lemma split_run_suffix (d : ascii) (rest : TString) :
  forall cur, exists front,
    cur ++ rest = front ++ snd (split_run d cur rest).
Proof.
  induction rest as [|c rest IH]; intros cur; simpl.
  - exists []. rewrite app_nil_r. reflexivity.
  - destruct (char_eqb c d).
    + destruct (IH []) as [front Hf]. destruct (split_run d [] rest).
      simpl in *. exists (cur ++ c :: front). rewrite Hf, <- app_assoc.
      reflexivity.
    + destruct (IH (cur ++ [c])) as [front Hf]. exists front.
      rewrite <- Hf, <- app_assoc. reflexivity.
Qed.

Lemma Split_split_run (str : TString) (d : ascii) :
  Split str d
  = match snd (split_run d [] str) with
    | [] => fst (split_run d [] str)
    | _ :: _ => fst (split_run d [] str) ++ [snd (split_run d [] str)]
    end.
Proof.
  unfold Split.
  pose proof (Split_fold d str str [] [] [] eq_refl) as H.
  cbn [app length Nat.add] in H. rewrite H. clear H.
  pose proof (split_run_pending d str []) as Hlen. cbn [length Nat.add] in Hlen.
  destruct (split_run_suffix d str []) as [front Hf]. cbn [app] in Hf.
  destruct (split_run d [] str) as [pieces pending]. cbn [fst snd] in *.
  destruct pending as [|c0 pending].
  - cbn [length]. rewrite Nat.sub_0_r, Nat.ltb_irrefl. reflexivity.
  - replace (length str - length (c0 :: pending) <? length str) with true
      by (symmetry; apply Nat.ltb_lt; simpl in *; lia).
    f_equal. f_equal.
    assert (Hfl : length str - length (c0 :: pending) = length front).
    { rewrite Hf, length_app. lia. }
    rewrite Hfl.
    replace (length str - length front) with (length (c0 :: pending))
      by (rewrite Hf, length_app; lia).
    rewrite Hf. apply SubStr_suffix. discriminate.
Qed.

Lemma split_run_pieces (d : ascii) (rest : TString) :
  forall cur,
    Forall (fun c => char_eqb c d = false) cur ->
    Forall (piece d) (fst (split_run d cur rest))
    /\ Forall (fun c => char_eqb c d = false) (snd (split_run d cur rest)).
Proof.
  induction rest as [|c rest IH]; intros cur Hcur; simpl.
  - split; [constructor|exact Hcur].
  - destruct (char_eqb c d) eqn:E.
    + destruct (IH [] ltac:(constructor)) as [H1 H2].
      destruct (split_run d [] rest) as [pieces pending]. cbn [fst snd] in *.
      split; [|exact H2].
      destruct cur as [|c0 cur]; [exact H1|].
      constructor; [|exact H1]. split; [discriminate|exact Hcur].
    + apply IH. apply Forall_app. split; [exact Hcur|].
      constructor; [exact E|constructor].
Qed.

Lemma split_run_piece (d : ascii) (p tail : TString) :
  Forall (fun c => char_eqb c d = false) p ->
  forall cur, split_run d cur (p ++ tail) = split_run d (cur ++ p) tail.
Proof.
  induction 1 as [|c p Hc _ IH]; intros cur; simpl.
  - rewrite app_nil_r. reflexivity.
  - rewrite Hc, IH, <- app_assoc. reflexivity.
Qed.

Lemma Join_flat_map (d : ascii) (rest : list TString) :
  forall first,
    fold_left (fun result part => (result ++ [d]) ++ part) rest first
    = first ++ flat_map (fun p => d :: p) rest.
Proof.
  induction rest as [|p rest IH]; intros first; simpl.
  - rewrite app_nil_r. reflexivity.
  - rewrite IH, <- !app_assoc. reflexivity.
Qed.

Lemma split_run_delimiter (d : ascii) (cur tail : TString) :
  split_run d cur (d :: tail)
  = (match cur with
     | [] => fst (split_run d [] tail)
     | _ :: _ => cur :: fst (split_run d [] tail)
     end,
     snd (split_run d [] tail)).
Proof.
  cbn [split_run]. unfold char_eqb. rewrite Ascii.eqb_refl.
  destruct (split_run d [] tail). reflexivity.
Qed.

Lemma split_run_joined (d : ascii) (rest : list TString) :
  Forall (piece d) rest ->
  forall cur,
    cur <> [] ->
    fst (split_run d cur (flat_map (fun p => d :: p) rest))
      ++ [snd (split_run d cur (flat_map (fun p => d :: p) rest))]
    = cur :: rest
    /\ snd (split_run d cur (flat_map (fun p => d :: p) rest)) <> [].
Proof.
  induction 1 as [|p rest [Hp1 Hp2] _ IH]; intros cur Hcur.
  - simpl. split; [reflexivity|exact Hcur].
  - cbn [flat_map app]. rewrite split_run_delimiter.
    rewrite (split_run_piece d p _ Hp2 []). cbn [app fst snd].
    destruct (IH p Hp1) as [H1 H2].
    destruct cur as [|c0 cur]; [congruence|].
    split; [|exact H2]. cbn [app]. rewrite H1. reflexivity.
Qed.

(** X24: [Split] returns the non-empty runs between delimiters: no piece is
    empty or holds the delimiter.  On such pieces it undoes [Join] with the
    delimiter as the separator. *)
Theorem Split_undoes_Join (d : ascii) (str : TString) (parts : list TString) :
  Forall (piece d) (Split str d)
  /\ (Forall (piece d) parts -> Split (Join parts [d]) d = parts).
Proof.
  split.
  - rewrite Split_split_run.
    destruct (split_run_pieces d str [] ltac:(constructor)) as [H1 H2].
    destruct (snd (split_run d [] str)) as [|c0 pending] eqn:E; [exact H1|].
    apply Forall_app. split; [exact H1|].
    constructor; [|constructor]. split; [discriminate|exact H2].
  - intros Hparts. rewrite Split_split_run.
    destruct Hparts as [|first rest [Hf1 Hf2] Hrest]; [reflexivity|].
    cbn [Join]. rewrite Join_flat_map.
    rewrite (split_run_piece d first _ Hf2 []). cbn [app].
    destruct (split_run_joined d rest Hrest first Hf1) as [H1 H2].
    destruct (snd (split_run d first (flat_map (fun p => d :: p) rest)));
      [congruence|exact H1].
Qed.

(** X24 on a concrete input. *)
Lemma Split_undoes_Join_witness :
  Split (Join [lit "alpha"; lit "b"; lit "gamma"] [","%char]) ","
  = [lit "alpha"; lit "b"; lit "gamma"].
Proof.
  apply (proj2 (Split_undoes_Join "," [] [lit "alpha"; lit "b"; lit "gamma"])).
  repeat constructor; discriminate.
Defined.

Lemma Normalize_fold (s : TString) :
  forall result,
    fold_left
      (fun result c =>
         if IsAlpha c || IsDigit c then result ++ [ToLowerChar c] else result)
      s result
    = result
      ++ map ToLowerChar (List.filter (fun c => IsAlpha c || IsDigit c) s).
Proof.
  induction s as [|c s IH]; intros result; simpl.
  - rewrite app_nil_r. reflexivity.
  - rewrite IH. destruct (IsAlpha c || IsDigit c); simpl;
      rewrite <- ?app_assoc; reflexivity.
Qed.

Lemma ToLowerChar_keeps_class (c : ascii) :
  IsAlpha c || IsDigit c = true ->
  IsAlpha (ToLowerChar c) || IsDigit (ToLowerChar c) = true.
Proof.
  unfold ToLowerChar.
  destruct ((65 <=? char_code c) && (char_code c <=? 90)) eqn:E;
    [|intros H; exact H].
  intros _. apply andb_true_iff in E as [E1 E2].
  apply Nat.leb_le in E1, E2.
  unfold IsAlpha, char_code in *. rewrite nat_ascii_embedding by lia.
  apply orb_true_iff. left. apply orb_true_iff. left.
  apply andb_true_iff. split; apply Nat.leb_le; lia.
Qed.

(** X25: [Normalize] keeps the letters and digits and folds the letters to lower
    case; normalising twice changes nothing more. *)
Theorem Normalize_keeps_letters_and_digits (s : TString) :
  Normalize s
  = map ToLowerChar (List.filter (fun c => IsAlpha c || IsDigit c) s)
  /\ Normalize (Normalize s) = Normalize s.
Proof.
  assert (H : forall s0,
            Normalize s0
            = map ToLowerChar
                (List.filter (fun c => IsAlpha c || IsDigit c) s0)).
  { intros s0. unfold Normalize. rewrite Normalize_fold. reflexivity. }
  split; [apply H|].
  rewrite (H (Normalize s)), (H s).
  set (kept := List.filter (fun c => IsAlpha c || IsDigit c) s).
  assert (Hk : Forall (fun c => IsAlpha c || IsDigit c = true) kept).
  { apply Forall_forall. intros c Hc.
    apply list_elem_of_In, filter_In in Hc. tauto. }
  clearbody kept. induction Hk as [|c kept Hc _ IH]; [reflexivity|].
  simpl. rewrite (ToLowerChar_keeps_class c Hc). simpl.
  rewrite ToLowerChar_idempotent. f_equal. exact IH.
Qed.

End splitting.


(** * Boolean queries, end to end *)

Section simple_queries.

Import TSearchDatabase.

Lemma step_word_char (tokens : list TString) (cur : TString) (c : ascii) :
  IsWs c = false -> IsParen c = false ->
  TokenizeBooleanQuery_step (tokens, cur) c = (tokens, cur ++ [c]).
Proof. intros H1 H2. unfold TokenizeBooleanQuery_step. rewrite H1, H2. reflexivity. Qed.

Lemma fold_word (w : TString) :
  word_part w ->
  forall tokens cur,
    fold_left TokenizeBooleanQuery_step w (tokens, cur) = (tokens, cur ++ w).
Proof.
  intros [H1 H2]. induction H1 as [|c w Hc Hw IH]; intros tokens cur.
  - rewrite app_nil_r. reflexivity.
  - apply Forall_cons in H2 as [Hp H2]. rewrite fold_left_cons.
    rewrite step_word_char by assumption.
    rewrite (IH H2), <- app_assoc. reflexivity.
Qed.

Lemma step_space (tokens : list TString) (cur : TString) :
  cur <> [] ->
  TokenizeBooleanQuery_step (tokens, cur) " " = (tokens ++ [cur], []).
Proof. intros H. destruct cur; [congruence|reflexivity]. Qed.

Lemma fold_word_space (w : TString) (tokens : list TString) (rest : TString) :
  w <> [] -> word_part w ->
  fold_left TokenizeBooleanQuery_step (w ++ " "%char :: rest) (tokens, [])
  = fold_left TokenizeBooleanQuery_step rest (tokens ++ [w], []).
Proof.
  intros Hne Hw. rewrite fold_left_app, (fold_word w Hw), fold_left_cons.
  cbn [app]. rewrite step_space by exact Hne. reflexivity.
Qed.

Lemma Tokenize_last_word (w : TString) (tokens : list TString) :
  w <> [] -> word_part w ->
  (let '(tokens, cur) :=
     fold_left TokenizeBooleanQuery_step w (tokens, []) in
   match cur with [] => tokens | _ :: _ => tokens ++ [cur] end)
  = tokens ++ [w].
Proof.
  intros Hne Hw. rewrite (fold_word w Hw). cbn [app].
  destruct w; [congruence|reflexivity].
Qed.

Lemma Tokenize_one (a : TString) :
  a <> [] -> word_part a -> TokenizeBooleanQuery a = [a].
Proof. intros. unfold TokenizeBooleanQuery. apply (Tokenize_last_word a []); assumption. Qed.

Lemma Tokenize_two (a b : TString) :
  a <> [] -> word_part a -> b <> [] -> word_part b ->
  TokenizeBooleanQuery (a ++ " "%char :: b) = [a; b].
Proof.
  intros. unfold TokenizeBooleanQuery.
  rewrite fold_word_space by assumption.
  apply (Tokenize_last_word b [a]); assumption.
Qed.

Lemma Tokenize_three (a b c : TString) :
  a <> [] -> word_part a -> b <> [] -> word_part b ->
  c <> [] -> word_part c ->
  TokenizeBooleanQuery (a ++ " "%char :: b ++ " "%char :: c) = [a; b; c].
Proof.
  intros. unfold TokenizeBooleanQuery.
  rewrite !fold_word_space by assumption.
  apply (Tokenize_last_word c [a; b]); assumption.
Qed.

Lemma word_not_paren (w : TString) :
  w <> [] -> word_part w -> tok_is w "(" = false /\ tok_is w ")" = false.
Proof.
  intros Hne [_ Hp].
  split; (destruct (tok_is w _) eqn:E; [|reflexivity]);
    apply TString_eqb_eq in E; subst w;
    apply Forall_cons in Hp as [Hp _]; discriminate.
Qed.

Lemma ToRpn_step_operand (p : TTextPipeline.TOptions) (w : TString)
    (out ops : list TString) :
  operand p w ->
  ToRpn_step p (out, ops) w = (out ++ [TTextPipeline.NormalizeTerm p w], ops).
Proof.
  intros (Hne & Hw & Hop & _). unfold ToRpn_step.
  destruct (word_not_paren w Hne Hw) as [-> ->]. rewrite Hop. reflexivity.
Qed.

Lemma word_and : lit "and" <> [] /\ word_part (lit "and").
Proof. split; [discriminate|]. split; repeat constructor. Qed.

Lemma word_or : lit "or" <> [] /\ word_part (lit "or").
Proof. split; [discriminate|]. split; repeat constructor. Qed.

Lemma word_not : lit "not" <> [] /\ word_part (lit "not").
Proof. split; [discriminate|]. split; repeat constructor. Qed.

Lemma EvalRpn_loop_operand (idx : TInvertedIndex.t) (tok : TString)
    (rpn : list TString) (st : list (list nat)) :
  IsOp tok = false ->
  EvalRpn_loop idx (tok :: rpn) st
  = EvalRpn_loop idx rpn (TInvertedIndex.GetPostingList idx tok :: st).
Proof. intros H. cbn [EvalRpn_loop]. rewrite H. reflexivity. Qed.

(** X26: the simplest queries, from the query string to the answer: a single
    word returns the posting list of its normalised term; [x and y],
    [x or y] and [not x] return the intersection, the union and the
    complement of the posting lists of the normalised terms.  The words
    must not turn into operator keywords when normalised, since the
    evaluation looks for operators after normalisation. *)
Theorem simple_queries_combine_posting_lists (db : t) (x y : TString) :
  operand (pipeline db) x -> operand (pipeline db) y ->
  BooleanQuery db x
  = TInvertedIndex.GetPostingList (index db)
      (TTextPipeline.NormalizeTerm (pipeline db) x)
  /\ BooleanQuery db (x ++ lit " and " ++ y)
     = Intersect
         (TInvertedIndex.GetPostingList (index db)
            (TTextPipeline.NormalizeTerm (pipeline db) x))
         (TInvertedIndex.GetPostingList (index db)
            (TTextPipeline.NormalizeTerm (pipeline db) y))
  /\ BooleanQuery db (x ++ lit " or " ++ y)
     = Union
         (TInvertedIndex.GetPostingList (index db)
            (TTextPipeline.NormalizeTerm (pipeline db) x))
         (TInvertedIndex.GetPostingList (index db)
            (TTextPipeline.NormalizeTerm (pipeline db) y))
  /\ BooleanQuery db (lit "not " ++ x)
     = NotList (TInvertedIndex.GetDocumentCount (index db))
         (TInvertedIndex.GetPostingList (index db)
            (TTextPipeline.NormalizeTerm (pipeline db) x)).
Proof.
  intros Hx Hy.
  pose proof Hx as (Hxne & Hxw & _ & Hxop).
  pose proof Hy as (Hyne & Hyw & _ & Hyop).
  destruct word_and as [Ha1 Ha2]. destruct word_or as [Ho1 Ho2].
  destruct word_not as [Hn1 Hn2].
  unfold BooleanQuery, EvalRpn.
  split; [|split; [|split]].
  - rewrite (Tokenize_one x Hxne Hxw). unfold ToRpn. cbn [fold_left].
    rewrite (ToRpn_step_operand _ x [] [] Hx). cbn [app drain_ops].
    rewrite EvalRpn_loop_operand by exact Hxop. reflexivity.
  - change (x ++ lit " and " ++ y)
      with (x ++ " "%char :: lit "and" ++ " "%char :: y).
    rewrite (Tokenize_three x (lit "and") y) by assumption.
    unfold ToRpn. cbn [fold_left].
    rewrite (ToRpn_step_operand _ x [] [] Hx). cbn [app].
    change (ToRpn_step (pipeline db)
              ([TTextPipeline.NormalizeTerm (pipeline db) x], []) (lit "and"))
      with ([TTextPipeline.NormalizeTerm (pipeline db) x], [lit "and"]).
    rewrite (ToRpn_step_operand _ y _ _ Hy). cbn [app].
    change (drain_ops [lit "and"]
              [TTextPipeline.NormalizeTerm (pipeline db) x;
               TTextPipeline.NormalizeTerm (pipeline db) y])
      with [TTextPipeline.NormalizeTerm (pipeline db) x;
            TTextPipeline.NormalizeTerm (pipeline db) y; lit "and"].
    rewrite !EvalRpn_loop_operand by assumption. reflexivity.
  - change (x ++ lit " or " ++ y)
      with (x ++ " "%char :: lit "or" ++ " "%char :: y).
    rewrite (Tokenize_three x (lit "or") y) by assumption.
    unfold ToRpn. cbn [fold_left].
    rewrite (ToRpn_step_operand _ x [] [] Hx). cbn [app].
    change (ToRpn_step (pipeline db)
              ([TTextPipeline.NormalizeTerm (pipeline db) x], []) (lit "or"))
      with ([TTextPipeline.NormalizeTerm (pipeline db) x], [lit "or"]).
    rewrite (ToRpn_step_operand _ y _ _ Hy). cbn [app].
    change (drain_ops [lit "or"]
              [TTextPipeline.NormalizeTerm (pipeline db) x;
               TTextPipeline.NormalizeTerm (pipeline db) y])
      with [TTextPipeline.NormalizeTerm (pipeline db) x;
            TTextPipeline.NormalizeTerm (pipeline db) y; lit "or"].
    rewrite !EvalRpn_loop_operand by assumption. reflexivity.
  - change (lit "not " ++ x) with (lit "not" ++ " "%char :: x).
    rewrite (Tokenize_two (lit "not") x) by assumption.
    unfold ToRpn. cbn [fold_left].
    change (ToRpn_step (pipeline db) ([], []) (lit "not"))
      with (@nil (list ascii), [lit "not"]).
    rewrite (ToRpn_step_operand _ x _ _ Hx). cbn [app].
    change (drain_ops [lit "not"]
              [TTextPipeline.NormalizeTerm (pipeline db) x])
      with [TTextPipeline.NormalizeTerm (pipeline db) x; lit "not"].
    rewrite !EvalRpn_loop_operand by assumption. reflexivity.
Qed.

(** X26 on a concrete input. *)
Lemma simple_queries_witness :
  BooleanQuery pets (lit "cat and dog") = [0]
  /\ BooleanQuery pets (lit "fish or dog") = [0; 2]
  /\ BooleanQuery pets (lit "not cat") = [2].
Proof.
  assert (Hop : forall w,
            w = lit "cat" \/ w = lit "dog" \/ w = lit "fish" ->
            operand (pipeline pets) w).
  { intros w [-> | [-> | ->]];
      (split; [discriminate|]);
      (split; [split; repeat constructor|]);
      split; vm_compute; reflexivity. }
  split; [|split].
  - refine (eq_trans
              (proj1 (proj2 (simple_queries_combine_posting_lists pets
                               (lit "cat") (lit "dog") _ _))) _);
      [apply Hop; tauto|apply Hop; tauto|vm_compute; reflexivity].
  - refine (eq_trans
              (proj1 (proj2 (proj2 (simple_queries_combine_posting_lists pets
                                      (lit "fish") (lit "dog") _ _)))) _);
      [apply Hop; tauto|apply Hop; tauto|vm_compute; reflexivity].
  - refine (eq_trans
              (proj2 (proj2 (proj2 (simple_queries_combine_posting_lists pets
                                      (lit "cat") (lit "cat") _ _)))) _);
      [apply Hop; tauto|apply Hop; tauto|vm_compute; reflexivity].
Defined.

End simple_queries.


(** * Operator keywords in Boolean queries *)

Section keyword_spellings.

Import TSearchDatabase.

Lemma Tokenize_unwords_from (ws : list TString) :
  Forall word ws ->
  forall tokens,
    (let '(tokens, cur) :=
       fold_left TokenizeBooleanQuery_step (unwords ws) (tokens, []) in
     match cur with [] => tokens | _ :: _ => tokens ++ [cur] end)
    = tokens ++ ws.
Proof.
  induction 1 as [|w ws [Hne Hw] Hws IH]; intros tokens.
  - cbn [unwords fold_left]. rewrite app_nil_r. reflexivity.
  - destruct ws as [|w' ws].
    + cbn [unwords]. apply Tokenize_last_word; assumption.
    + change (unwords (w :: w' :: ws))
        with (w ++ " "%char :: unwords (w' :: ws)).
      rewrite fold_word_space by assumption.
      rewrite IH, <- app_assoc. reflexivity.
Qed.

Lemma Tokenize_unwords (ws : list TString) :
  Forall word ws -> TokenizeBooleanQuery (unwords ws) = ws.
Proof.
  intros H. unfold TokenizeBooleanQuery.
  apply (Tokenize_unwords_from ws H []).
Qed.

Lemma ToRpn_step_word (p : TTextPipeline.TOptions) (w : TString)
    (out ops : list TString) :
  word w -> IsOp w = false ->
  ToRpn_step p (out, ops) w = (out ++ [TTextPipeline.NormalizeTerm p w], ops).
Proof.
  intros [Hne Hw] Hop. unfold ToRpn_step.
  destruct (word_not_paren w Hne Hw) as [-> ->]. rewrite Hop. reflexivity.
Qed.

Lemma ToRpn_words_from (p : TTextPipeline.TOptions) (ws : list TString) :
  Forall (fun w => word w /\ IsOp w = false) ws ->
  forall out ops,
    fold_left (ToRpn_step p) ws (out, ops)
    = (out ++ map (TTextPipeline.NormalizeTerm p) ws, ops).
Proof.
  induction 1 as [|w ws [Hw Hop] Hws IH]; intros out ops.
  - cbn [map fold_left]. rewrite app_nil_r. reflexivity.
  - rewrite fold_left_cons, ToRpn_step_word by assumption.
    rewrite IH, <- app_assoc. reflexivity.
Qed.

Lemma ToRpn_words (p : TTextPipeline.TOptions) (ws : list TString) :
  Forall (fun w => word w /\ IsOp w = false) ws ->
  ToRpn p ws = map (TTextPipeline.NormalizeTerm p) ws.
Proof.
  intros H. unfold ToRpn. rewrite (ToRpn_words_from p ws H [] []).
  reflexivity.
Qed.

(** A query without parentheses and without one of the six spellings is
    evaluated as it stands, in postfix notation. *)
Lemma BooleanQuery_words (db : t) (ws : list TString) :
  Forall (fun w => word w /\ IsOp w = false) ws ->
  BooleanQuery db (unwords ws)
  = EvalRpn_loop (index db)
      (map (TTextPipeline.NormalizeTerm (pipeline db)) ws) [].
Proof.
  intros H. unfold BooleanQuery, EvalRpn.
  rewrite Tokenize_unwords, ToRpn_words; [reflexivity|exact H|].
  eapply Forall_impl; [exact H|]. intros w [Hw _]. exact Hw.
Qed.

Lemma is_and_spellings (tok : TString) :
  is_and tok = true -> tok = lit "and" \/ tok = lit "AND".
Proof.
  unfold is_and, tok_is. intros H.
  apply orb_true_iff in H as [H|H]; apply TString_eqb_eq in H; auto.
Qed.

Lemma is_or_spellings (tok : TString) :
  is_or tok = true -> tok = lit "or" \/ tok = lit "OR".
Proof.
  unfold is_or, tok_is. intros H.
  apply orb_true_iff in H as [H|H]; apply TString_eqb_eq in H; auto.
Qed.

Lemma is_not_spellings (tok : TString) :
  is_not tok = true -> tok = lit "not" \/ tok = lit "NOT".
Proof.
  unfold is_not, tok_is. intros H.
  apply orb_true_iff in H as [H|H]; apply TString_eqb_eq in H; auto.
Qed.

Lemma keyword_is_word (k : TString) : IsOp k = true -> word k.
Proof.
  intros H. apply IsOp_spellings in H.
  unfold operator_spellings in H. cbn [map In] in H.
  repeat (destruct H as [<-|H];
          [split; [discriminate|split; repeat constructor]|]).
  contradiction.
Qed.

(** [EvalRpn] at a token that is "and", "or" or "not" in one of the two
    spellings it knows. *)
Lemma EvalRpn_loop_and (idx : TInvertedIndex.t) (tok : TString)
    (rpn : list TString) (st : list TPostingList) :
  is_and tok = true ->
  EvalRpn_loop idx (tok :: rpn) st
  = match st with
    | b :: a :: st' => EvalRpn_loop idx rpn (Intersect a b :: st')
    | _ => []
    end.
Proof.
  intros H. apply is_and_spellings in H as [-> | ->];
    destruct st as [|b [|a st]]; reflexivity.
Qed.

Lemma EvalRpn_loop_or (idx : TInvertedIndex.t) (tok : TString)
    (rpn : list TString) (st : list TPostingList) :
  is_or tok = true ->
  EvalRpn_loop idx (tok :: rpn) st
  = match st with
    | b :: a :: st' => EvalRpn_loop idx rpn (Union a b :: st')
    | _ => []
    end.
Proof.
  intros H. apply is_or_spellings in H as [-> | ->];
    destruct st as [|b [|a st]]; reflexivity.
Qed.

Lemma EvalRpn_loop_not (idx : TInvertedIndex.t) (tok : TString)
    (rpn : list TString) (st : list TPostingList) :
  is_not tok = true ->
  EvalRpn_loop idx (tok :: rpn) st
  = match st with
    | a :: st' =>
        EvalRpn_loop idx rpn
          (NotList (TInvertedIndex.GetDocumentCount idx) a :: st')
    | [] => []
    end.
Proof.
  intros H. apply is_not_spellings in H as [-> | ->];
    destruct st as [|a st]; reflexivity.
Qed.

(** [ToRpn] at the infix and prefix use of the six spellings. *)
Lemma ToRpn_infix (p : TTextPipeline.TOptions) (x k y : TString) :
  operand p x -> operand p y -> IsOp k = true ->
  ToRpn p [x; k; y]
  = [TTextPipeline.NormalizeTerm p x; TTextPipeline.NormalizeTerm p y; k].
Proof.
  intros Hx Hy Hk. unfold ToRpn. cbn [fold_left].
  rewrite (ToRpn_step_operand _ x [] [] Hx). cbn [app].
  generalize (TTextPipeline.NormalizeTerm p x). intros x'.
  assert (E : ToRpn_step p ([x'], []) k = ([x'], [k])).
  { apply IsOp_spellings in Hk.
    unfold operator_spellings in Hk. cbn [map In] in Hk.
    repeat (destruct Hk as [<-|Hk]; [reflexivity|]). contradiction. }
  rewrite E, (ToRpn_step_operand _ y _ _ Hy). cbn [app].
  generalize (TTextPipeline.NormalizeTerm p y). intros y'.
  apply IsOp_spellings in Hk.
  unfold operator_spellings in Hk. cbn [map In] in Hk.
  repeat (destruct Hk as [<-|Hk]; [reflexivity|]). contradiction.
Qed.

Lemma ToRpn_prefix (p : TTextPipeline.TOptions) (k x : TString) :
  operand p x -> IsOp k = true ->
  ToRpn p [k; x] = [TTextPipeline.NormalizeTerm p x; k].
Proof.
  intros Hx Hk. unfold ToRpn. cbn [fold_left].
  assert (E : ToRpn_step p ([], []) k = ([], [k])).
  { apply IsOp_spellings in Hk.
    unfold operator_spellings in Hk. cbn [map In] in Hk.
    repeat (destruct Hk as [<-|Hk]; [reflexivity|]). contradiction. }
  rewrite E, (ToRpn_step_operand _ x _ _ Hx). cbn [app].
  generalize (TTextPipeline.NormalizeTerm p x). intros x'.
  apply IsOp_spellings in Hk.
  unfold operator_spellings in Hk. cbn [map In] in Hk.
  repeat (destruct Hk as [<-|Hk]; [reflexivity|]). contradiction.
Qed.

Lemma is_and_IsOp (tok : TString) : is_and tok = true -> IsOp tok = true.
Proof. intros H. apply is_and_spellings in H as [-> | ->]; reflexivity. Qed.

Lemma is_or_IsOp (tok : TString) : is_or tok = true -> IsOp tok = true.
Proof. intros H. apply is_or_spellings in H as [-> | ->]; reflexivity. Qed.

Lemma is_not_IsOp (tok : TString) : is_not tok = true -> IsOp tok = true.
Proof. intros H. apply is_not_spellings in H as [-> | ->]; reflexivity. Qed.

Lemma operand_word (p : TTextPipeline.TOptions) (w : TString) :
  operand p w -> word w /\ IsOp w = false.
Proof. intros (Hne & Hw & Hop & _). split; [split|]; assumption. Qed.

Lemma Forall_two {A} (P : A -> Prop) (a b : A) :
  P a -> P b -> Forall P [a; b].
Proof. intros. constructor; [|constructor; [|constructor]]; assumption. Qed.

Lemma Forall_three {A} (P : A -> Prop) (a b c : A) :
  P a -> P b -> P c -> Forall P [a; b; c].
Proof.
  intros. constructor; [|constructor; [|constructor; [|constructor]]];
    assumption.
Qed.

Lemma BooleanQuery_infix (db : t) (x k y : TString) :
  operand (pipeline db) x -> operand (pipeline db) y -> IsOp k = true ->
  BooleanQuery db (unwords [x; k; y])
  = EvalRpn_loop (index db)
      [TTextPipeline.NormalizeTerm (pipeline db) x;
       TTextPipeline.NormalizeTerm (pipeline db) y; k] [].
Proof.
  intros Hx Hy Hk. unfold BooleanQuery, EvalRpn.
  rewrite Tokenize_unwords; [rewrite ToRpn_infix by assumption; reflexivity|].
  apply Forall_three;
    [apply (operand_word _ _ Hx)|apply keyword_is_word, Hk
    |apply (operand_word _ _ Hy)].
Qed.

Lemma BooleanQuery_prefix (db : t) (k x : TString) :
  operand (pipeline db) x -> IsOp k = true ->
  BooleanQuery db (unwords [k; x])
  = EvalRpn_loop (index db)
      [TTextPipeline.NormalizeTerm (pipeline db) x; k] [].
Proof.
  intros Hx Hk. unfold BooleanQuery, EvalRpn.
  rewrite Tokenize_unwords; [rewrite ToRpn_prefix by assumption; reflexivity|].
  apply Forall_two;
    [apply keyword_is_word, Hk|apply (operand_word _ _ Hx)].
Qed.

(** A lower-casing pipeline turns every spelling of a keyword into the
    keyword: neither the lemmatizer nor the stemmer changes "and", "or" or
    "not". *)
Lemma NormalizeTerm_keyword (p : TTextPipeline.TOptions) (k : TString) :
  TTextPipeline.LowerCase p = true ->
  In (NTokenizer.ToLower k) (map lit ["and"; "or"; "not"]%string) ->
  TTextPipeline.NormalizeTerm p k = NTokenizer.ToLower k.
Proof.
  intros Hl Hk. unfold TTextPipeline.NormalizeTerm. rewrite Hl.
  cbn [map In] in Hk.
  destruct Hk as [<-|[<-|[<-|[]]]];
    destruct (TTextPipeline.UseLemmatization p),
      (TTextPipeline.UseStemming p); vm_compute; reflexivity.
Qed.

(** C4 (amended): what [BooleanQuery] makes of the keywords.

    - A token is an infix operator in exactly six spellings: "and", "or",
      "not", "AND", "OR", "NOT".  For operand words [x] and [y], "x and y"
      and "x AND y" return the intersection, "x or y" and "x OR y" the
      union, "not x" and "NOT x" the complement of the posting lists of the
      normalised operands.
    - Every other word [k], any other spelling of a keyword among them, is
      passed on where it stands, as [NormalizeTerm k], and a query made of
      such words only is evaluated as it stands, in postfix notation.
    - What such a word does is decided on [NormalizeTerm k].  If that is a
      keyword, [k] is that operator, applied to the lists on the stack
      before it: "x y k" is the intersection or the union, "x k" the
      complement, while the infix forms "x k y" and "k x" run out of
      operands and return the empty list.  If it is no keyword, [k] is
      looked up as a term: "x k" is the posting list of [NormalizeTerm k].
    - A pipeline that lower-cases (the default) normalises every spelling
      of "and", "or" and "not" to the keyword itself. *)
Theorem C4_keywords_in_queries (db : t) :
  let p := pipeline db in
  let posting w :=
    TInvertedIndex.GetPostingList (index db) (TTextPipeline.NormalizeTerm p w) in
  let n := TInvertedIndex.GetDocumentCount (index db) in
  (forall k, IsOp k = true <-> In k operator_spellings)
  /\ (forall x y k,
        operand p x -> operand p y ->
        (is_and k = true ->
         BooleanQuery db (unwords [x; k; y]) = Intersect (posting x) (posting y))
        /\ (is_or k = true ->
            BooleanQuery db (unwords [x; k; y]) = Union (posting x) (posting y))
        /\ (is_not k = true ->
            BooleanQuery db (unwords [k; x]) = NotList n (posting x)))
  /\ (forall ws,
        Forall (fun w => word w /\ IsOp w = false) ws ->
        BooleanQuery db (unwords ws)
        = EvalRpn_loop (index db) (map (TTextPipeline.NormalizeTerm p) ws) [])
  /\ (forall x y k,
        operand p x -> operand p y -> word k -> IsOp k = false ->
        (is_and (TTextPipeline.NormalizeTerm p k) = true ->
         BooleanQuery db (unwords [x; y; k]) = Intersect (posting x) (posting y)
         /\ BooleanQuery db (unwords [x; k; y]) = [])
        /\ (is_or (TTextPipeline.NormalizeTerm p k) = true ->
            BooleanQuery db (unwords [x; y; k]) = Union (posting x) (posting y)
            /\ BooleanQuery db (unwords [x; k; y]) = [])
        /\ (is_not (TTextPipeline.NormalizeTerm p k) = true ->
            BooleanQuery db (unwords [x; k]) = NotList n (posting x)
            /\ BooleanQuery db (unwords [k; x]) = [])
        /\ (IsOp (TTextPipeline.NormalizeTerm p k) = false ->
            BooleanQuery db (unwords [x; k]) = posting k
            /\ BooleanQuery db (unwords [x; k; y]) = posting y))
  /\ (forall k,
        TTextPipeline.LowerCase p = true ->
        In (NTokenizer.ToLower k) (map lit ["and"; "or"; "not"]%string) ->
        TTextPipeline.NormalizeTerm p k = NTokenizer.ToLower k).
Proof.
  intros p posting n.
  split; [exact IsOp_spellings|].
  split; [|split; [exact (BooleanQuery_words db)|split;
                   [|exact (NormalizeTerm_keyword p)]]].
  - intros x y k Hx Hy.
    pose proof Hx as (_ & _ & _ & Hx'). pose proof Hy as (_ & _ & _ & Hy').
    split; [|split]; intros Hk.
    + rewrite BooleanQuery_infix by (try assumption; apply is_and_IsOp, Hk).
      rewrite !EvalRpn_loop_operand by assumption.
      rewrite EvalRpn_loop_and by exact Hk. reflexivity.
    + rewrite BooleanQuery_infix by (try assumption; apply is_or_IsOp, Hk).
      rewrite !EvalRpn_loop_operand by assumption.
      rewrite EvalRpn_loop_or by exact Hk. reflexivity.
    + rewrite BooleanQuery_prefix by (try assumption; apply is_not_IsOp, Hk).
      rewrite !EvalRpn_loop_operand by assumption.
      rewrite EvalRpn_loop_not by exact Hk. reflexivity.
  - intros x y k Hx Hy Hk Hop.
    pose proof Hx as (_ & _ & _ & Hx'). pose proof Hy as (_ & _ & _ & Hy').
    pose proof (operand_word _ _ Hx) as Hxw.
    pose proof (operand_word _ _ Hy) as Hyw.
    assert (Hkw : word k /\ IsOp k = false) by (split; assumption).
    split; [|split; [|split]]; intros Hn; split.
    + rewrite BooleanQuery_words by (first [apply Forall_two|apply Forall_three]; assumption).
      cbn [map]. rewrite !EvalRpn_loop_operand by assumption.
      rewrite EvalRpn_loop_and by exact Hn. reflexivity.
    + rewrite BooleanQuery_words by (first [apply Forall_two|apply Forall_three]; assumption).
      cbn [map]. rewrite EvalRpn_loop_operand by assumption.
      rewrite EvalRpn_loop_and by exact Hn. reflexivity.
    + rewrite BooleanQuery_words by (first [apply Forall_two|apply Forall_three]; assumption).
      cbn [map]. rewrite !EvalRpn_loop_operand by assumption.
      rewrite EvalRpn_loop_or by exact Hn. reflexivity.
    + rewrite BooleanQuery_words by (first [apply Forall_two|apply Forall_three]; assumption).
      cbn [map]. rewrite EvalRpn_loop_operand by assumption.
      rewrite EvalRpn_loop_or by exact Hn. reflexivity.
    + rewrite BooleanQuery_words by (first [apply Forall_two|apply Forall_three]; assumption).
      cbn [map]. rewrite !EvalRpn_loop_operand by assumption.
      rewrite EvalRpn_loop_not by exact Hn. reflexivity.
    + rewrite BooleanQuery_words by (first [apply Forall_two|apply Forall_three]; assumption).
      cbn [map]. rewrite EvalRpn_loop_not by exact Hn. reflexivity.
    + rewrite BooleanQuery_words by (first [apply Forall_two|apply Forall_three]; assumption).
      cbn [map]. rewrite !EvalRpn_loop_operand by assumption. reflexivity.
    + rewrite BooleanQuery_words by (first [apply Forall_two|apply Forall_three]; assumption).
      cbn [map]. rewrite !EvalRpn_loop_operand by assumption. reflexivity.
Qed.

(** The amended C4 at the pets: "And", "oR" and "Not" are operators behind
    their operands and leave the infix forms empty; "AND" is the infix
    operator. *)
Lemma C4_keywords_witness :
  BooleanQuery pets (lit "cat dog And") = [0]
  /\ BooleanQuery pets (lit "cat And dog") = []
  /\ BooleanQuery pets (lit "cat bird oR") = [0; 1]
  /\ BooleanQuery pets (lit "cat oR bird") = []
  /\ BooleanQuery pets (lit "cat Not") = [2]
  /\ BooleanQuery pets (lit "Not cat") = []
  /\ BooleanQuery pets (lit "cat AND dog") = [0].
Proof.
  destruct (C4_keywords_in_queries pets) as (_ & Hinfix & _ & Hpost & _).
  assert (Hop : forall w,
            w = lit "cat" \/ w = lit "dog" \/ w = lit "bird" ->
            operand (pipeline pets) w).
  { intros w [-> | [-> | ->]];
      (split; [discriminate|]);
      (split; [split; repeat constructor|]);
      split; vm_compute; reflexivity. }
  assert (Hk : forall k,
            k = lit "And" \/ k = lit "oR" \/ k = lit "Not" ->
            word k /\ IsOp k = false).
  { intros k [-> | [-> | ->]];
      (split; [split; [discriminate|split; repeat constructor]|]);
      vm_compute; reflexivity. }
  pose proof (Hop (lit "cat") (or_introl eq_refl)) as Hcat.
  pose proof (Hop (lit "dog") (or_intror (or_introl eq_refl))) as Hdog.
  pose proof (Hop (lit "bird") (or_intror (or_intror eq_refl))) as Hbird.
  destruct (Hk (lit "And") (or_introl eq_refl)) as [Hw1 Ho1].
  destruct (Hk (lit "oR") (or_intror (or_introl eq_refl))) as [Hw2 Ho2].
  destruct (Hk (lit "Not") (or_intror (or_intror eq_refl))) as [Hw3 Ho3].
  pose proof (Hpost (lit "cat") (lit "dog") (lit "And") Hcat Hdog Hw1 Ho1)
    as (Hand & _).
  pose proof (Hpost (lit "cat") (lit "bird") (lit "oR") Hcat Hbird Hw2 Ho2)
    as (_ & Hor & _).
  pose proof (Hpost (lit "cat") (lit "cat") (lit "Not") Hcat Hcat Hw3 Ho3)
    as (_ & _ & Hnot & _).
  pose proof (Hinfix (lit "cat") (lit "dog") (lit "AND") Hcat Hdog)
    as (Hinf & _).
  specialize (Hand ltac:(vm_compute; reflexivity)).
  specialize (Hor ltac:(vm_compute; reflexivity)).
  specialize (Hnot ltac:(vm_compute; reflexivity)).
  specialize (Hinf ltac:(vm_compute; reflexivity)).
  split; [|split; [|split; [|split; [|split; [|split]]]]].
  - refine (eq_trans (proj1 Hand) _). vm_compute. reflexivity.
  - exact (proj2 Hand).
  - refine (eq_trans (proj1 Hor) _). vm_compute. reflexivity.
  - exact (proj2 Hor).
  - refine (eq_trans (proj1 Hnot) _). vm_compute. reflexivity.
  - exact (proj2 Hnot).
  - refine (eq_trans Hinf _). vm_compute. reflexivity.
Defined.

End keyword_spellings.

